(** * The projectile scene of [src/grafkom/src/main.ts]

    A shallow embedding of the scene program: the projectile class, the
    per-frame projectile pass, the animation callback, the key handler
    and the font-loader callback, together with the properties of the
    specification that concern them.

    Numbers.  JavaScript numbers are modelled as real numbers: every
    arithmetic operation is exact, rounding of binary64 is not
    modelled.  The results of [Math.random()] are inputs of the key
    handler.

    Library.  The methods of three.js the program calls ([Vector3] and
    [Object3D.add]/[remove]) are modelled after their definitions in
    three.js.

    Objects.  Every [THREE.Vector3] the program creates is a cell of a
    heap, addressed by a location, because the program mutates vectors
    in place and passes them around by reference ([copy], [clone],
    [normalize], [multiplyScalar] and [add] all act on the receiver).
    An [Object3D] (mesh, light, camera) is represented by the address
    of its [position] vector, which three.js creates with the object
    and never rebinds.

    Shaders.  The fragment shaders of the three materials are functions
    of their uniforms and varyings; the built-in functions of GLSL are
    modelled after the GLSL specification, over the reals. *)

From Stdlib Require Import Reals Lra Lia List String Bool Arith.
From Stdlib Require Import FunctionalExtensionality.
Import ListNotations.
Open Scope R_scope.

(** ** Vectors (the part of [THREE.Vector3] the program uses) *)

Module Vector3.

Record t : Type := mk { x : R; y : R; z : R }.

(** [v.length()] is [Math.sqrt(x*x + y*y + z*z)]. *)
Definition length (v : t) : R :=
  sqrt (x v * x v + y v * y v + z v * z v).

(** The value [v.add(u)] leaves in [v]. *)
Definition add (v u : t) : t :=
  mk (x v + x u) (y v + y u) (z v + z u).

(** The value [v.multiplyScalar(s)] leaves in [v]. *)
Definition multiplyScalar (v : t) (s : R) : t :=
  mk (x v * s) (y v * s) (z v * s).

(** [v.divideScalar(s)] is [v.multiplyScalar(1 / s)]. *)
Definition divideScalar (v : t) (s : R) : t :=
  multiplyScalar v (1 / s).

(** [v.normalize()] is [v.divideScalar(v.length() || 1)]: a vector of
    length zero is divided by one. *)
Definition normalize (v : t) : t :=
  divideScalar v (if Req_dec_T (length v) 0 then 1 else length v).

(** [v.distanceToSquared(u)]. *)
Definition distanceToSquared (v u : t) : R :=
  let dx := x v - x u in
  let dy := y v - y u in
  let dz := z v - z u in
  dx * dx + dy * dy + dz * dz.

(** [v.distanceTo(u)] is [Math.sqrt(v.distanceToSquared(u))]. *)
Definition distanceTo (v u : t) : R :=
  sqrt (distanceToSquared v u).

Definition zero : t := mk 0 0 0.

End Vector3.

Abbreviation Vector3 := Vector3.t.

(** ** The heap of vectors *)

Definition loc := nat.

Definition Heap := loc -> Vector3.

Definition store (h : Heap) (l : loc) (v : Vector3) : Heap :=
  fun l' => if Nat.eqb l' l then v else h l'.

(** ** Objects of the scene graph *)

(** A mesh, a light or the camera: the address of its [position]. *)
Record Object3D : Type := { position : loc }.

Definition Object3D_eqb (a b : Object3D) : bool :=
  Nat.eqb (position a) (position b).

(** [class Projectile]: its mesh, the vector [direction] refers to, and
    the liveness flag. *)
Record Projectile : Type := {
  mesh : Object3D;
  direction : loc;
  alive : bool
}.

(** The uniforms of [alphabetMaterial] and of [digitMaterial]. *)
Record ShaderMaterial : Type := {
  cubePos : loc;
  baseColor : loc;
  viewPosition : loc;
  ambientIntensity : R
}.

(** The module-level state of the program. *)
Record World : Type := {
  heap : Heap;
  next : loc;                        (* the next unused address *)
  scene : list Object3D;             (* scene.children *)
  camera : Object3D;
  cubeMesh : Object3D;
  cube_rotation_x : R;               (* cubeMesh.rotation.x *)
  cube_rotation_y : R;               (* cubeMesh.rotation.y *)
  time : R;                          (* cubeLightMaterial.uniforms.time.value *)
  alphabetMaterial : ShaderMaterial;
  digitMaterial : ShaderMaterial;
  ambientLight : Object3D;
  projectiles : list Projectile;
  letterN : option Object3D;         (* undefined until the font is loaded *)
  number1 : option Object3D
}.

Definition PROJECTILE_SPEED : R := 0.1.
Definition DETECTION_RADIUS : R := 2.

(** *** Field updates *)

Definition with_heap (w : World) (h : Heap) : World :=
  {| heap := h; next := next w; scene := scene w; camera := camera w;
     cubeMesh := cubeMesh w; cube_rotation_x := cube_rotation_x w;
     cube_rotation_y := cube_rotation_y w; time := time w;
     alphabetMaterial := alphabetMaterial w; digitMaterial := digitMaterial w;
     ambientLight := ambientLight w; projectiles := projectiles w;
     letterN := letterN w; number1 := number1 w |}.

Definition with_next (w : World) (n : loc) : World :=
  {| heap := heap w; next := n; scene := scene w; camera := camera w;
     cubeMesh := cubeMesh w; cube_rotation_x := cube_rotation_x w;
     cube_rotation_y := cube_rotation_y w; time := time w;
     alphabetMaterial := alphabetMaterial w; digitMaterial := digitMaterial w;
     ambientLight := ambientLight w; projectiles := projectiles w;
     letterN := letterN w; number1 := number1 w |}.

Definition with_scene (w : World) (s : list Object3D) : World :=
  {| heap := heap w; next := next w; scene := s; camera := camera w;
     cubeMesh := cubeMesh w; cube_rotation_x := cube_rotation_x w;
     cube_rotation_y := cube_rotation_y w; time := time w;
     alphabetMaterial := alphabetMaterial w; digitMaterial := digitMaterial w;
     ambientLight := ambientLight w; projectiles := projectiles w;
     letterN := letterN w; number1 := number1 w |}.

Definition with_rotation (w : World) (rx ry : R) : World :=
  {| heap := heap w; next := next w; scene := scene w; camera := camera w;
     cubeMesh := cubeMesh w; cube_rotation_x := rx;
     cube_rotation_y := ry; time := time w;
     alphabetMaterial := alphabetMaterial w; digitMaterial := digitMaterial w;
     ambientLight := ambientLight w; projectiles := projectiles w;
     letterN := letterN w; number1 := number1 w |}.

Definition with_time (w : World) (t : R) : World :=
  {| heap := heap w; next := next w; scene := scene w; camera := camera w;
     cubeMesh := cubeMesh w; cube_rotation_x := cube_rotation_x w;
     cube_rotation_y := cube_rotation_y w; time := t;
     alphabetMaterial := alphabetMaterial w; digitMaterial := digitMaterial w;
     ambientLight := ambientLight w; projectiles := projectiles w;
     letterN := letterN w; number1 := number1 w |}.

Definition with_alphabetMaterial (w : World) (m : ShaderMaterial) : World :=
  {| heap := heap w; next := next w; scene := scene w; camera := camera w;
     cubeMesh := cubeMesh w; cube_rotation_x := cube_rotation_x w;
     cube_rotation_y := cube_rotation_y w; time := time w;
     alphabetMaterial := m; digitMaterial := digitMaterial w;
     ambientLight := ambientLight w; projectiles := projectiles w;
     letterN := letterN w; number1 := number1 w |}.

Definition with_digitMaterial (w : World) (m : ShaderMaterial) : World :=
  {| heap := heap w; next := next w; scene := scene w; camera := camera w;
     cubeMesh := cubeMesh w; cube_rotation_x := cube_rotation_x w;
     cube_rotation_y := cube_rotation_y w; time := time w;
     alphabetMaterial := alphabetMaterial w; digitMaterial := m;
     ambientLight := ambientLight w; projectiles := projectiles w;
     letterN := letterN w; number1 := number1 w |}.

Definition with_projectiles (w : World) (ps : list Projectile) : World :=
  {| heap := heap w; next := next w; scene := scene w; camera := camera w;
     cubeMesh := cubeMesh w; cube_rotation_x := cube_rotation_x w;
     cube_rotation_y := cube_rotation_y w; time := time w;
     alphabetMaterial := alphabetMaterial w; digitMaterial := digitMaterial w;
     ambientLight := ambientLight w; projectiles := ps;
     letterN := letterN w; number1 := number1 w |}.

Definition with_letterN (w : World) (m : option Object3D) : World :=
  {| heap := heap w; next := next w; scene := scene w; camera := camera w;
     cubeMesh := cubeMesh w; cube_rotation_x := cube_rotation_x w;
     cube_rotation_y := cube_rotation_y w; time := time w;
     alphabetMaterial := alphabetMaterial w; digitMaterial := digitMaterial w;
     ambientLight := ambientLight w; projectiles := projectiles w;
     letterN := m; number1 := number1 w |}.

Definition with_number1 (w : World) (m : option Object3D) : World :=
  {| heap := heap w; next := next w; scene := scene w; camera := camera w;
     cubeMesh := cubeMesh w; cube_rotation_x := cube_rotation_x w;
     cube_rotation_y := cube_rotation_y w; time := time w;
     alphabetMaterial := alphabetMaterial w; digitMaterial := digitMaterial w;
     ambientLight := ambientLight w; projectiles := projectiles w;
     letterN := letterN w; number1 := m |}.

Definition with_ambientIntensity (m : ShaderMaterial) (a : R) : ShaderMaterial :=
  {| cubePos := cubePos m; baseColor := baseColor m;
     viewPosition := viewPosition m; ambientIntensity := a |}.

Definition with_alive (p : Projectile) (b : bool) : Projectile :=
  {| mesh := mesh p; direction := direction p; alive := b |}.

(** ** Vector methods as heap operations *)

(** Writing a value into the vector at [l]. *)
Definition write (l : loc) (v : Vector3) (w : World) : World :=
  with_heap w (store (heap w) l v).

(** [new THREE.Vector3(x, y, z)]: a fresh cell. *)
Definition new_Vector3 (v : Vector3) (w : World) : loc * World :=
  (next w, with_next (write (next w) v w) (S (next w))).

(** [a.copy(b)]. *)
Definition copy (a b : loc) (w : World) : World :=
  write a (heap w b) w.

(** [a.clone()]: a fresh vector with the components of [a]. *)
Definition clone (a : loc) (w : World) : loc * World :=
  new_Vector3 (heap w a) w.

(** [a.add(b)]. *)
Definition add (a b : loc) (w : World) : World :=
  write a (Vector3.add (heap w a) (heap w b)) w.

(** [a.multiplyScalar(s)]; the method returns its receiver. *)
Definition multiplyScalar (a : loc) (s : R) (w : World) : World :=
  write a (Vector3.multiplyScalar (heap w a) s) w.

(** [a.normalize()]; the method returns its receiver. *)
Definition normalize (a : loc) (w : World) : World :=
  write a (Vector3.normalize (heap w a)) w.

(** [new THREE.Mesh(...)], [new THREE.AmbientLight(...)]: an object
    whose position is a fresh vector (0, 0, 0). *)
Definition new_Object3D (w : World) : Object3D * World :=
  let (l, w1) := new_Vector3 Vector3.zero w in
  ({| position := l |}, w1).

(** [scene.add(o)] for an object [o] that has no parent yet, which is
    the case at every call of the program: [o] is pushed onto
    [scene.children]. *)
Definition scene_add (o : Object3D) (w : World) : World :=
  with_scene w (scene w ++ [o]).

(** [children.splice(children.indexOf(o), 1)] when [o] is found. *)
Fixpoint remove_first (o : Object3D) (s : list Object3D) : list Object3D :=
  match s with
  | [] => []
  | c :: s' => if Object3D_eqb c o then s' else c :: remove_first o s'
  end.

(** [scene.remove(o)]. *)
Definition scene_remove (o : Object3D) (w : World) : World :=
  with_scene w (remove_first o (scene w)).

(** ** [class Projectile] *)

(** [new Projectile(position, direction)]. *)
Definition Projectile_new (position0 direction0 : loc) (w : World)
  : Projectile * World :=
  let (m, w1) := new_Object3D w in
  let w2 := copy (position m) position0 w1 in
  let w3 := normalize direction0 w2 in
  let this := {| mesh := m; direction := direction0; alive := true |} in
  (this, scene_add m w3).

(** [destroy()]. *)
Definition Projectile_destroy (this : Projectile) (w : World)
  : Projectile * World :=
  (with_alive this false, scene_remove (mesh this) w).

(** [update()]. *)
Definition Projectile_update (this : Projectile) (w : World)
  : Projectile * World :=
  let w1 := multiplyScalar (direction this) PROJECTILE_SPEED w in
  let w2 := add (position (mesh this)) (direction this) w1 in
  if Rgt_dec (Vector3.length (heap w2 (position (mesh this)))) 10
  then Projectile_destroy this w2
  else (this, w2).

(** ** The projectile pass *)

Definition set_alphabet_ambient (a : R) (w : World) : World :=
  with_alphabetMaterial w (with_ambientIntensity (alphabetMaterial w) a).

Definition set_digit_ambient (a : R) (w : World) : World :=
  with_digitMaterial w (with_ambientIntensity (digitMaterial w) a).

(** The guarded proximity check in the body of the loop. *)
Definition proximity (projectile : Projectile) (w : World) : World :=
  match letterN w, number1 w with
  | Some n, Some d =>
      let distanceToN :=
        Vector3.distanceTo (heap w (position (mesh projectile)))
                           (heap w (position n)) in
      let distanceTo1 :=
        Vector3.distanceTo (heap w (position (mesh projectile)))
                           (heap w (position d)) in
      let w1 :=
        if Rlt_dec distanceToN DETECTION_RADIUS
        then set_alphabet_ambient 0.8 w
        else set_alphabet_ambient 0.401 w in
      if Rlt_dec distanceTo1 DETECTION_RADIUS
      then set_digit_ambient 0.8 w1
      else set_digit_ambient 0.401 w1
  | _, _ => w
  end.

(** The callback given to [forEach]. *)
Definition tick (projectile : Projectile) (w : World) : Projectile * World :=
  let (p, w1) := Projectile_update projectile w in
  (p, proximity p w1).

(** [ps.forEach(f)], for a callback that mutates the element it is
    given and the world: the elements are visited in order and the
    array afterwards holds the mutated elements. *)
Fixpoint forEach (f : Projectile -> World -> Projectile * World)
  (ps : list Projectile) (w : World) : list Projectile * World :=
  match ps with
  | [] => ([], w)
  | p :: ps' =>
      let (p', w1) := f p w in
      let (ps'', w2) := forEach f ps' w1 in
      (p' :: ps'', w2)
  end.

(** The array the loop of [updateProjectiles] iterates:
    [projectiles.filter(p => p.alive)]. *)
Definition iterated (w : World) : list Projectile :=
  filter alive (projectiles w).

(** [updateProjectiles()]. *)
Definition updateProjectiles (w : World) : World :=
  let w0 := with_projectiles w (iterated w) in
  let (ps, w1) := forEach tick (projectiles w0) w0 in
  with_projectiles w1 ps.

(** ** The animation callback *)

(** [animate()], one frame; scheduling the next frame and submitting
    the picture to the renderer have no effect on the state. *)
Definition animate (w : World) : World :=
  let w1 := with_time w (time w + 0.05) in
  let w2 := copy (viewPosition (alphabetMaterial w1)) (position (camera w1)) w1 in
  let w3 := copy (viewPosition (digitMaterial w2)) (position (camera w2)) w2 in
  let w4 := copy (cubePos (alphabetMaterial w3)) (position (cubeMesh w3)) w3 in
  let w5 := copy (cubePos (digitMaterial w4)) (position (cubeMesh w4)) w4 in
  let w6 := with_rotation w5 (cube_rotation_x w5 + 0.01) (cube_rotation_y w5 + 0.01) in
  updateProjectiles w6.

(** ** The frame, with the exception it could raise

    Reading a property of [undefined] throws a [TypeError], and the
    reads of [letterN.position] and [number1.position] are the only
    operations of a frame that can throw.  The definitions below are
    [proximity], [tick], [forEach], [updateProjectiles] and [animate]
    once more, with the test of the guard and the two reads written
    apart; [None] is the exception, which ends the callback. *)

(** Whether a mesh variable is truthy: an object is, [undefined] is
    not. *)
Definition truthy (o : option Object3D) : bool :=
  match o with
  | Some _ => true
  | None => false
  end.

(** [o.position] for a mesh variable [o]. *)
Definition position_of (o : option Object3D) : option loc :=
  match o with
  | Some m => Some (position m)
  | None => None
  end.

Definition proximity_checked (projectile : Projectile) (w : World)
  : option World :=
  if truthy (letterN w) && truthy (number1 w) then
    match position_of (letterN w) with
    | None => None
    | Some letterN_position =>
        let distanceToN :=
          Vector3.distanceTo (heap w (position (mesh projectile)))
                             (heap w letterN_position) in
        match position_of (number1 w) with
        | None => None
        | Some number1_position =>
            let distanceTo1 :=
              Vector3.distanceTo (heap w (position (mesh projectile)))
                                 (heap w number1_position) in
            let w1 :=
              if Rlt_dec distanceToN DETECTION_RADIUS
              then set_alphabet_ambient 0.8 w
              else set_alphabet_ambient 0.401 w in
            Some (if Rlt_dec distanceTo1 DETECTION_RADIUS
                  then set_digit_ambient 0.8 w1
                  else set_digit_ambient 0.401 w1)
        end
    end
  else Some w.

Definition tick_checked (projectile : Projectile) (w : World)
  : option (Projectile * World) :=
  let (p, w1) := Projectile_update projectile w in
  match proximity_checked p w1 with
  | Some w2 => Some (p, w2)
  | None => None
  end.

Fixpoint forEach_checked
  (f : Projectile -> World -> option (Projectile * World))
  (ps : list Projectile) (w : World) : option (list Projectile * World) :=
  match ps with
  | [] => Some ([], w)
  | p :: ps' =>
      match f p w with
      | None => None
      | Some (p', w1) =>
          match forEach_checked f ps' w1 with
          | None => None
          | Some (ps'', w2) => Some (p' :: ps'', w2)
          end
      end
  end.

Definition updateProjectiles_checked (w : World) : option World :=
  let w0 := with_projectiles w (iterated w) in
  match forEach_checked tick_checked (projectiles w0) w0 with
  | Some (ps, w1) => Some (with_projectiles w1 ps)
  | None => None
  end.

Definition animate_checked (w : World) : option World :=
  let w1 := with_time w (time w + 0.05) in
  let w2 := copy (viewPosition (alphabetMaterial w1)) (position (camera w1)) w1 in
  let w3 := copy (viewPosition (digitMaterial w2)) (position (camera w2)) w2 in
  let w4 := copy (cubePos (alphabetMaterial w3)) (position (cubeMesh w3)) w3 in
  let w5 := copy (cubePos (digitMaterial w4)) (position (cubeMesh w4)) w4 in
  let w6 := with_rotation w5 (cube_rotation_x w5 + 0.01) (cube_rotation_y w5 + 0.01) in
  updateProjectiles_checked w6.

(** ** The key handler *)

Definition add_x (l : loc) (d : R) (w : World) : World :=
  let v := heap w l in
  write l (Vector3.mk (Vector3.x v + d) (Vector3.y v) (Vector3.z v)) w.

Definition add_y (l : loc) (d : R) (w : World) : World :=
  let v := heap w l in
  write l (Vector3.mk (Vector3.x v) (Vector3.y v + d) (Vector3.z v)) w.

Definition add_z (l : loc) (d : R) (w : World) : World :=
  let v := heap w l in
  write l (Vector3.mk (Vector3.x v) (Vector3.y v) (Vector3.z v + d)) w.

(** The space case: [r1], [r2], [r3] are the three results of
    [Math.random()], in call order. *)
Definition spawn (r1 r2 r3 : R) (w : World) : World :=
  let (projectileStartPos, w1) := clone (position (cubeMesh w)) w in
  let (projectileDirection, w2) :=
    new_Vector3 (Vector3.mk (r1 - 0.5) (r2 - 0.5) (r3 - 0.5)) w1 in
  let (p, w3) := Projectile_new projectileStartPos projectileDirection w2 in
  with_projectiles w3 (projectiles w3 ++ [p]).

(** The [keydown] listener: [key] is [event.key]. *)
Definition keydown (key : string) (r1 r2 r3 : R) (w : World) : World :=
  if String.eqb key "w" then add_y (position (cubeMesh w)) 0.1 w
  else if String.eqb key "s" then add_y (position (cubeMesh w)) (- 0.1) w
  else if String.eqb key "a" then add_x (position (camera w)) (- 0.1) w
  else if String.eqb key "d" then add_x (position (camera w)) 0.1 w
  else if String.eqb key "q" then add_z (position (cubeMesh w)) (- 0.1) w
  else if String.eqb key "e" then add_z (position (cubeMesh w)) 0.1 w
  else if String.eqb key " " then spawn r1 r2 r3 w
  else w.

(** ** The font-loader callback *)

Definition font_loaded (w : World) : World :=
  let (n, w1) := new_Object3D w in
  let w2 := with_letterN w1 (Some n) in
  let w3 := write (position n) (Vector3.mk (-2) 0 0) w2 in
  let w4 := scene_add n w3 in
  let (d, w5) := new_Object3D w4 in
  let w6 := with_number1 w5 (Some d) in
  let w7 := write (position d) (Vector3.mk 2 0 0) w6 in
  scene_add d w7.

(** ** The state the module sets up

    The state when the module reaches its last statement, the first
    call of [animate]: that call is the first [Frame] of a run. *)

Definition init : World :=
  let h0 : Heap := fun _ => Vector3.zero in
  let h1 := store h0 2%nat (Vector3.mk 1.0 0.843 0.0) in
  let h2 := store h1 5%nat (Vector3.mk 0.165 0.322 0.745) in
  let h3 := store h2 0%nat (Vector3.mk 0 0 5) in
  {| heap := h3; next := 9%nat;
     scene := [ {| position := 7%nat |}; {| position := 8%nat |} ];
     camera := {| position := 0%nat |};
     cubeMesh := {| position := 7%nat |};
     cube_rotation_x := 0; cube_rotation_y := 0; time := 0;
     alphabetMaterial :=
       {| cubePos := 1%nat; baseColor := 2%nat; viewPosition := 3%nat;
          ambientIntensity := 0.401 |};
     digitMaterial :=
       {| cubePos := 4%nat; baseColor := 5%nat; viewPosition := 6%nat;
          ambientIntensity := 0.401 |};
     ambientLight := {| position := 8%nat |};
     projectiles := [];
     letterN := None; number1 := None |}.

(** ** Runs of the program *)

(** What the browser can call: the animation callback, the key
    listener (with the three numbers [Math.random()] would return) and
    the callback of the font loader. *)
Inductive Event : Type :=
| Frame
| KeyDown (key : string) (r1 r2 r3 : R)
| FontLoaded.

Definition step (w : World) (e : Event) : World :=
  match e with
  | Frame => animate w
  | KeyDown key r1 r2 r3 => keydown key r1 r2 r3 w
  | FontLoaded => font_loaded w
  end.

Definition run (es : list Event) (w : World) : World :=
  fold_left step es w.

(** ** Well-formed worlds *)

Definition material_locs (m : ShaderMaterial) : list loc :=
  [cubePos m; baseColor m; viewPosition m].

Definition option_locs (o : option Object3D) : list loc :=
  match o with
  | Some m => [position m]
  | None => []
  end.

Definition projectile_locs (p : Projectile) : list loc :=
  [position (mesh p); direction p].

(** The vectors the program holds a reference to, apart from those
    reached through [scene.children] only. *)
Definition fixed_locs (w : World) : list loc :=
  position (camera w) :: position (cubeMesh w) :: position (ambientLight w)
  :: material_locs (alphabetMaterial w) ++ material_locs (digitMaterial w).

Definition static_locs (w : World) : list loc :=
  option_locs (letterN w) ++ option_locs (number1 w) ++ fixed_locs w.

Definition vectors (w : World) : list loc :=
  static_locs w ++ flat_map projectile_locs (projectiles w).

(** No two references of the program share a vector, every vector in
    use was allocated, and an object is a child of the scene at most
    once. *)
Record wf (w : World) : Prop := {
  wf_nodup : NoDup (vectors w);
  wf_bound : Forall (fun l => (l < next w)%nat) (vectors w);
  wf_scene_nodup : NoDup (map position (scene w));
  wf_scene_bound : Forall (fun o => (position o < next w)%nat) (scene w)
}.

(** The two text meshes stay where the loader callback put them. *)
Definition anchored (w : World) : Prop :=
  (forall n, letterN w = Some n -> heap w (position n) = Vector3.mk (-2) 0 0) /\
  (forall d, number1 w = Some d -> heap w (position d) = Vector3.mk 2 0 0).

(** The references a world holds besides the projectile array and the
    children of the scene; no callback of the program except the
    loader callback rebinds any of them. *)
Definition refs (w : World) :=
  (camera w, cubeMesh w, ambientLight w,
   material_locs (alphabetMaterial w), material_locs (digitMaterial w),
   letterN w, number1 w).

(** ** Parts of the callbacks, named *)

(** The part of [animate] that precedes the projectile pass. *)
Definition before_pass (w : World) : World :=
  let w1 := with_time w (time w + 0.05) in
  let w2 := copy (viewPosition (alphabetMaterial w1)) (position (camera w1)) w1 in
  let w3 := copy (viewPosition (digitMaterial w2)) (position (camera w2)) w2 in
  let w4 := copy (cubePos (alphabetMaterial w3)) (position (cubeMesh w3)) w3 in
  let w5 := copy (cubePos (digitMaterial w4)) (position (cubeMesh w4)) w4 in
  with_rotation w5 (cube_rotation_x w5 + 0.01) (cube_rotation_y w5 + 0.01).

(** The pass without the proximity check: the array is filtered and
    every remaining projectile is updated. *)
Definition advance_and_prune (w : World) : World :=
  let w0 := with_projectiles w (iterated w) in
  let (ps, w1) := forEach Projectile_update (projectiles w0) w0 in
  with_projectiles w1 ps.

(** The projectile a press of the space bar creates in [w]: the fresh
    vectors are allocated in the order start position, direction,
    position of the mesh. *)
Definition spawned (w : World) : Projectile :=
  {| mesh := {| position := S (S (next w)) |};
     direction := S (next w);
     alive := true |}.

(** The vectors the frame copies the camera and the cube into. *)
Definition uniform_locs (w : World) : list loc :=
  [viewPosition (alphabetMaterial w); viewPosition (digitMaterial w);
   cubePos (alphabetMaterial w); cubePos (digitMaterial w)].

(** The keys the handler has a case for. *)
Definition mapped_keys : list string := ["w"; "s"; "a"; "d"; "q"; "e"; " "]%string.

(** The key events. *)
Definition is_key (e : Event) : Prop :=
  match e with
  | KeyDown _ _ _ _ => True
  | _ => False
  end.

(** The number of frames in a run. *)
Fixpoint frames (es : list Event) : nat :=
  match es with
  | [] => 0
  | Frame :: es' => S (frames es')
  | _ :: es' => frames es'
  end.

(** [v.lengthSq()]. *)
Definition lengthSq (v : Vector3) : R :=
  Vector3.x v * Vector3.x v + Vector3.y v * Vector3.y v
  + Vector3.z v * Vector3.z v.

(** [w'] is [w] with the vector at [l] moved by (dx, dy, dz) and
    nothing else changed. *)
Definition translated (l : loc) (dx dy dz : R) (w w' : World) : Prop :=
  heap w' l =
    Vector3.mk (Vector3.x (heap w l) + dx) (Vector3.y (heap w l) + dy)
               (Vector3.z (heap w l) + dz) /\
  (forall l', l' <> l -> heap w' l' = heap w l') /\
  with_heap w' (heap w) = w.

(** ** Invariants of a run *)

(** The state of the highlight while a text mesh is missing. *)
Definition font_pending (w : World) : Prop :=
  letterN w = None /\ number1 w = None /\
  ambientIntensity (alphabetMaterial w) = 0.401 /\
  ambientIntensity (digitMaterial w) = 0.401.

(** What holds of the highlight in every state the program reaches:
    the text meshes are where the loader put them; while one is
    missing both uniforms hold the baseline; each uniform holds one of
    the two values; and a uniform holds the elevated value only while
    the array has a live entry. *)
Definition highlight_ok (w : World) : Prop :=
  wf w /\ anchored w /\
  (letterN w = None \/ number1 w = None ->
   ambientIntensity (alphabetMaterial w) = 0.401 /\
   ambientIntensity (digitMaterial w) = 0.401) /\
  (ambientIntensity (alphabetMaterial w) = 0.401 \/
   ambientIntensity (alphabetMaterial w) = 0.8) /\
  (ambientIntensity (digitMaterial w) = 0.401 \/
   ambientIntensity (digitMaterial w) = 0.8) /\
  (iterated w = [] ->
   ambientIntensity (alphabetMaterial w) = 0.401 /\
   ambientIntensity (digitMaterial w) = 0.401).

(** The mesh of a dead entry never comes back among the entries a pass
    iterates. *)
Definition stays_dead (m : Object3D) (w : World) : Prop :=
  wf w /\ (position m < next w)%nat /\
  forall q, In q (projectiles w) -> mesh q = m -> alive q = false.

(** The state of a projectile [k] frames after it was spawned at [p0]
    with stored direction [d0]: it is an entry of the array, its mesh
    is a child of the scene, its direction has been scaled [k] times
    and its position has received the [k] scaled directions. *)
Definition in_flight (p : Projectile) (p0 d0 : Vector3) (k : nat)
  (w : World) : Prop :=
  wf w /\ In p (projectiles w) /\ In (mesh p) (scene w) /\
  heap w (direction p) = Vector3.multiplyScalar d0 (0.1 ^ k) /\
  heap w (position (mesh p)) =
    Vector3.add p0 (Vector3.multiplyScalar d0 ((1 - 0.1 ^ k) / 9)).

(** What can have become of a projectile that was spawned alive: it is
    still a live entry of the array; it is an entry of the array with
    its flag cleared, waiting to be filtered out; or it has been
    filtered out, and nothing refers to its vectors any more. *)
Inductive fate (p : Projectile) (w : World) : Prop :=
| flying : In p (projectiles w) -> fate p w
| dying : In (with_alive p false) (projectiles w) -> fate p w
| gone :
    position (mesh p) <> direction p ->
    (position (mesh p) < next w)%nat -> (direction p < next w)%nat ->
    ~ In (position (mesh p)) (vectors w) ->
    ~ In (direction p) (vectors w) ->
    fate p w.

(** The projectile has made [j] steps. *)
Definition tracked (p : Projectile) (p0 d0 : Vector3) (j : nat)
  (w : World) : Prop :=
  wf w /\ fate p w /\
  heap w (direction p) = Vector3.multiplyScalar d0 (0.1 ^ j) /\
  heap w (position (mesh p)) =
    Vector3.add p0 (Vector3.multiplyScalar d0 ((1 - 0.1 ^ j) / 9)).

(** ** Three runs *)

(** The font has loaded and the space bar was pressed twice with the
    cube at the origin; the random draws make the first projectile
    head for the letter and the second for the digit. *)
Definition two_shots : list Event :=
  [FontLoaded; KeyDown " " 0 0.5 0.5; KeyDown " " 0.75 0.5 0.5].

(** The projectiles of [two_shots], in spawn order. *)
Definition shot1 : Projectile :=
  {| mesh := {| position := 13%nat |}; direction := 12%nat; alive := true |}.

Definition shot2 : Projectile :=
  {| mesh := {| position := 16%nat |}; direction := 15%nat; alive := true |}.

(** A hundred presses of [w] take the cube to (0, 10, 0); the space bar
    then launches a projectile straight up. *)
Definition hundred_up : list Event := repeat (KeyDown "w" 0 0 0) 100.

(** The presses, then the space bar. *)
Definition out_of_range : list Event :=
  hundred_up ++ [KeyDown " " 0.5 0.75 0.5].

(** The projectile of [out_of_range]. *)
Definition stray : Projectile :=
  {| mesh := {| position := 11%nat |}; direction := 10%nat; alive := true |}.

(** ** Further parts and invariants *)

(** What the update makes of an entry, given the heap it leaves: the
    entry with its flag cleared when its mesh is farther than 10 from
    the origin, the entry itself otherwise. *)
Definition settle (h : Heap) (q : Projectile) : Projectile :=
  if Rgt_dec (Vector3.length (h (position (mesh q)))) 10
  then with_alive q false else q.

(** An entry's mesh is a child of the scene exactly when the entry is
    alive. *)
Definition scene_consistent (w : World) : Prop :=
  forall p, In p (projectiles w) ->
            (In (mesh p) (scene w) <-> alive p = true).

(** Both intensity uniforms hold the elevated value. *)
Definition both_elevated (w : World) : Prop :=
  ambientIntensity (alphabetMaterial w) = 0.8 /\
  ambientIntensity (digitMaterial w) = 0.8.

(** The keys that translate the cube or the camera. *)
Definition translation_keys : list string :=
  ["w"; "s"; "a"; "d"; "q"; "e"]%string.

(** Two keys that add opposite amounts to the same coordinate of the
    same object. *)
Definition opposite (k1 k2 : string) : Prop :=
  In (k1, k2) [("w", "s"); ("s", "w"); ("a", "d"); ("d", "a");
               ("q", "e"); ("e", "q")]%string.

(** The key events that move the cube. *)
Definition moves_cube (e : Event) : Prop :=
  match e with
  | KeyDown key _ _ _ => In key ["w"; "s"; "q"; "e"]%string
  | _ => False
  end.

(** The number of presses of the space bar in a run. *)
Fixpoint spaces (es : list Event) : nat :=
  match es with
  | [] => 0
  | KeyDown key _ _ _ :: es' =>
      if String.eqb key " " then S (spaces es') else spaces es'
  | _ :: es' => spaces es'
  end.

(** A live entry that was spawned within 9.8 of the origin and has made
    some number of steps. *)
Definition cruising (w : World) (p : Projectile) : Prop :=
  alive p = true /\
  exists p0 d0 k,
    Vector3.length p0 <= 9.8 /\ Vector3.length d0 <= 1 /\
    heap w (direction p) = Vector3.multiplyScalar d0 (0.1 ^ k) /\
    heap w (position (mesh p)) =
      Vector3.add p0 (Vector3.multiplyScalar d0 ((1 - 0.1 ^ k) / 9)).

(** The cube is within 9.8 of the origin and every entry of the array
    is cruising. *)
Definition calm (w : World) : Prop :=
  wf w /\ Vector3.length (heap w (position (cubeMesh w))) <= 9.8 /\
  forall p, In p (projectiles w) -> cruising w p.

(** ** The fragment shaders

    The three fragment shaders, as functions of their uniforms and
    varyings; a [vec3] is a [Vector3], [gl_FragColor] is a [vec3] with
    an alpha.  The built-in functions follow the GLSL specification,
    over exact reals. *)

Module GLSL.

(** [dot(a, b)]. *)
Definition dot (a b : Vector3) : R :=
  Vector3.x a * Vector3.x b + Vector3.y a * Vector3.y b
  + Vector3.z a * Vector3.z b.

(** [a - b]. *)
Definition sub (a b : Vector3) : Vector3 :=
  Vector3.mk (Vector3.x a - Vector3.x b) (Vector3.y a - Vector3.y b)
             (Vector3.z a - Vector3.z b).

(** [-a]. *)
Definition neg (a : Vector3) : Vector3 :=
  Vector3.mk (- Vector3.x a) (- Vector3.y a) (- Vector3.z a).

(** [s * a] and [a * s], for a float [s]. *)
Definition scale (s : R) (a : Vector3) : Vector3 :=
  Vector3.mk (s * Vector3.x a) (s * Vector3.y a) (s * Vector3.z a).

(** [normalize(a)], which is [a / length(a)]; GLSL leaves the result
    undefined for a vector of length zero. *)
Definition normalize (a : Vector3) : Vector3 :=
  Vector3.mk (Vector3.x a / Vector3.length a)
             (Vector3.y a / Vector3.length a)
             (Vector3.z a / Vector3.length a).

(** [reflect(I, N)], which is [I - 2.0 * dot(N, I) * N]. *)
Definition reflect (I N : Vector3) : Vector3 :=
  sub I (scale (2.0 * dot N I) N).

(** [vec3(s)]. *)
Definition vec3 (s : R) : Vector3 := Vector3.mk s s s.

End GLSL.

(** The fragment shader of [cubeLightMaterial]. *)
Definition cube_fragment (time : R) : Vector3 * R :=
  let glowColor := GLSL.vec3 1.0 in
  let intensity := 1.0 + 0.3 * sin (time * 2.0) in
  (GLSL.scale intensity glowColor, 1.0).

(** The fragment shader of [alphabetMaterial]; [pow(x, 32.0)] of a
    non-negative [x] is its 32nd power. *)
Definition alphabet_fragment (cubePos baseColor viewPosition : Vector3)
  (ambientIntensity : R) (vNormal vWorldPos : Vector3) : Vector3 * R :=
  let ambient := GLSL.scale ambientIntensity baseColor in
  let lightDir := GLSL.normalize (GLSL.sub cubePos vWorldPos) in
  let diff := Rmax (GLSL.dot vNormal lightDir) 0.0 in
  let diffuse := GLSL.scale diff baseColor in
  let viewDir := GLSL.normalize (GLSL.sub viewPosition vWorldPos) in
  let halfDir := GLSL.normalize (Vector3.add lightDir viewDir) in
  let spec := Rmax (GLSL.dot vNormal halfDir) 0.0 ^ 32 in
  let specular := GLSL.scale spec (GLSL.vec3 0.5) in
  let finalColor := Vector3.add (Vector3.add ambient diffuse) specular in
  (finalColor, 1.0).

(** The fragment shader of [digitMaterial]. *)
Definition digit_fragment (cubePos baseColor viewPosition : Vector3)
  (ambientIntensity : R) (vNormal vWorldPos : Vector3) : Vector3 * R :=
  let ambient := GLSL.scale ambientIntensity baseColor in
  let lightDir := GLSL.normalize (GLSL.sub cubePos vWorldPos) in
  let diff := Rmax (GLSL.dot vNormal lightDir) 0.0 in
  let diffuse := GLSL.scale diff baseColor in
  let viewDir := GLSL.normalize (GLSL.sub viewPosition vWorldPos) in
  let reflectDir := GLSL.reflect (GLSL.neg lightDir) vNormal in
  let spec := Rmax (GLSL.dot viewDir reflectDir) 0.0 ^ 64 in
  let specular := GLSL.scale spec baseColor in
  let finalColor := Vector3.add (Vector3.add ambient diffuse) specular in
  (finalColor, 1.0).

(** The colour the shader of a text material gives a fragment in a
    state of the program: the uniforms are read from the material. *)
Definition text_fragment
  (shader : Vector3 -> Vector3 -> Vector3 -> R -> Vector3 -> Vector3
            -> Vector3 * R)
  (m : ShaderMaterial) (w : World) (vNormal vWorldPos : Vector3)
  : Vector3 * R :=
  shader (heap w (cubePos m)) (heap w (baseColor m))
    (heap w (viewPosition m)) (ambientIntensity m) vNormal vWorldPos.

(** The base colours hold what the module gave them. *)
Definition colours_kept (w : World) : Prop :=
  heap w (baseColor (alphabetMaterial w)) = Vector3.mk 1.0 0.843 0.0 /\
  heap w (baseColor (digitMaterial w)) = Vector3.mk 0.165 0.322 0.745.

(** ** Tactics *)

(** Unfolding the operations down to reads and writes of fields. *)
Ltac unfold_ops :=
  unfold tick, proximity, Projectile_update, Projectile_destroy,
    scene_remove, scene_add, set_alphabet_ambient, set_digit_ambient,
    add, multiplyScalar, normalize, copy, write, refs, material_locs in *.

(** Case analysis on the conditions of the loop body. *)
Ltac case_conditions :=
  repeat match goal with
    | |- context [Rgt_dec ?a ?b] => destruct (Rgt_dec a b)
    | |- context [Rlt_dec ?a ?b] => destruct (Rlt_dec a b)
    | |- context [match letterN ?w with _ => _ end] => destruct (letterN w)
    | |- context [match number1 ?w with _ => _ end] => destruct (number1 w)
    end.

(** Decimal constants as quotients of integers, for [field]. *)
Ltac decimals := unfold Q2R; cbn [QArith_base.Qnum QArith_base.Qden].

(** * Properties *)

(** ** The heap *)

Lemma store_eq (h : Heap) (l : loc) (v : Vector3) : store h l v l = v.
Proof. unfold store. now rewrite Nat.eqb_refl. Qed.

Lemma store_neq (h : Heap) (l l' : loc) (v : Vector3) :
  l' <> l -> store h l v l' = h l'.
Proof.
  intro H. unfold store.
  destruct (Nat.eqb_spec l' l) as [E | _]; [contradiction | reflexivity].
Qed.

(** ** Lengths and distances *)

Lemma Vector3_eq (u v : Vector3) :
  Vector3.x u = Vector3.x v -> Vector3.y u = Vector3.y v ->
  Vector3.z u = Vector3.z v -> u = v.
Proof. destruct u, v. simpl. now intros -> -> ->. Qed.

Lemma sum_squares_nonneg (a b c : R) : 0 <= a * a + b * b + c * c.
Proof. nra. Qed.

Lemma lengthSq_nonneg (v : Vector3) : 0 <= lengthSq v.
Proof. apply sum_squares_nonneg. Qed.

Lemma length_nonneg (v : Vector3) : 0 <= Vector3.length v.
Proof. apply sqrt_pos. Qed.

Lemma length_sq (v : Vector3) :
  Vector3.length v * Vector3.length v = lengthSq v.
Proof. apply sqrt_sqrt, lengthSq_nonneg. Qed.

(** A non-negative number whose square is the sum of the squared
    components is the length. *)
Lemma length_eq (v : Vector3) (r : R) :
  0 <= r -> r * r = lengthSq v -> Vector3.length v = r.
Proof. intros Hr Hsq. apply sqrt_lem_1; [apply lengthSq_nonneg | | ]; assumption. Qed.

Lemma distanceTo_eq (u v : Vector3) (r : R) :
  0 <= r -> r * r = Vector3.distanceToSquared u v ->
  Vector3.distanceTo u v = r.
Proof.
  intros Hr Hsq. apply sqrt_lem_1; try assumption.
  unfold Vector3.distanceToSquared. cbv zeta. apply sum_squares_nonneg.
Qed.

Lemma length_zero (v : Vector3) : Vector3.length v = 0 -> v = Vector3.zero.
Proof.
  intro H. pose proof (length_sq v) as Hsq. rewrite H in Hsq.
  unfold lengthSq in Hsq. destruct v as [a b c]. simpl in Hsq.
  assert (Ha : a * a = 0) by nra.
  assert (Hb : b * b = 0) by nra.
  assert (Hc : c * c = 0) by nra.
  apply Rmult_integral in Ha, Hb, Hc.
  apply Vector3_eq; simpl; tauto.
Qed.

(** Normalising with a known length. *)
Lemma normalize_eq (v : Vector3) (r : R) :
  0 < r -> r * r = lengthSq v ->
  Vector3.normalize v =
  Vector3.mk (Vector3.x v / r) (Vector3.y v / r) (Vector3.z v / r).
Proof.
  intros Hr Hsq. unfold Vector3.normalize.
  rewrite (length_eq v r) by lra.
  destruct (Req_dec_T r 0) as [E | _]; [lra |].
  unfold Vector3.divideScalar, Vector3.multiplyScalar.
  apply Vector3_eq; simpl; field; lra.
Qed.

(** A normalised vector has length one, unless it is the zero vector,
    which [normalize] leaves alone. *)
Lemma normalize_length (v : Vector3) :
  (v = Vector3.zero /\ Vector3.normalize v = Vector3.zero) \/
  Vector3.length (Vector3.normalize v) = 1.
Proof.
  unfold Vector3.normalize.
  destruct (Req_dec_T (Vector3.length v) 0) as [E | N].
  - left. apply length_zero in E. subst v. split; [reflexivity |].
    apply Vector3_eq; simpl; lra.
  - right. pose proof (length_nonneg v) as Hp. pose proof (length_sq v) as Hsq.
    apply length_eq; [lra |].
    unfold lengthSq in *. simpl.
    set (r := Vector3.length v) in *.
    assert (Hinv : r * (1 / r) = 1) by (field; assumption).
    transitivity ((Vector3.x v * Vector3.x v + Vector3.y v * Vector3.y v
                   + Vector3.z v * Vector3.z v) * ((1 / r) * (1 / r)));
      [| ring].
    rewrite <- Hsq.
    transitivity ((r * (1 / r)) * (r * (1 / r))); [| ring].
    rewrite Hinv. ring.
Qed.

Lemma normalize_length_le (v : Vector3) :
  Vector3.length (Vector3.normalize v) <= 1.
Proof.
  destruct (normalize_length v) as [[_ ->] | ->]; [| lra].
  rewrite (length_eq Vector3.zero 0); [lra | lra |].
  unfold lengthSq. simpl. ring.
Qed.

Lemma length_multiplyScalar (v : Vector3) (s : R) :
  0 <= s ->
  Vector3.length (Vector3.multiplyScalar v s) = s * Vector3.length v.
Proof.
  intro Hs. pose proof (length_nonneg v) as Hp. pose proof (length_sq v) as Hsq.
  apply length_eq; [nra |].
  unfold lengthSq in *. simpl.
  transitivity (s * s * (Vector3.length v * Vector3.length v)); [ring |].
  rewrite Hsq. ring.
Qed.

(** Cauchy-Schwarz, from the identity of Lagrange. *)
Lemma dot_square_le (a b c d e f : R) :
  (a * d + b * e + c * f) * (a * d + b * e + c * f)
  <= (a * a + b * b + c * c) * (d * d + e * e + f * f).
Proof.
  pose proof (sum_squares_nonneg (a * e - b * d) (b * f - c * e)
                (c * d - a * f)) as H.
  lra.
Qed.

Lemma triangle (a b c d e f U V W : R) :
  0 <= U -> 0 <= V -> 0 <= W ->
  U * U = a * a + b * b + c * c ->
  V * V = d * d + e * e + f * f ->
  W * W = (a + d) * (a + d) + (b + e) * (b + e) + (c + f) * (c + f) ->
  W <= U + V.
Proof.
  intros HU HV HW SU SV SW.
  pose proof (dot_square_le a b c d e f) as CS. rewrite <- SU, <- SV in CS.
  assert (Hdot : a * d + b * e + c * f <= U * V).
  { destruct (Rle_or_lt (a * d + b * e + c * f) (U * V)) as [H | H];
      [assumption |].
    assert (0 <= U * V) by nra. nra. }
  assert (Hsq : W * W <= (U + V) * (U + V)) by nra.
  destruct (Rle_or_lt W (U + V)) as [H | H]; [assumption |]. nra.
Qed.

(** The triangle inequality. *)
Lemma length_add (u v : Vector3) :
  Vector3.length (Vector3.add u v) <= Vector3.length u + Vector3.length v.
Proof.
  apply (triangle (Vector3.x u) (Vector3.y u) (Vector3.z u)
                  (Vector3.x v) (Vector3.y v) (Vector3.z v));
    try apply length_nonneg; apply length_sq.
Qed.

(** ** Children of the scene *)

Lemma Object3D_eqb_spec (a b : Object3D) : reflect (a = b) (Object3D_eqb a b).
Proof.
  unfold Object3D_eqb. destruct a as [la], b as [lb]. simpl.
  destruct (Nat.eqb_spec la lb) as [E | N]; constructor.
  - now subst.
  - intro H. now inversion H.
Qed.

Lemma remove_first_incl (o c : Object3D) (s : list Object3D) :
  In c (remove_first o s) -> In c s.
Proof.
  induction s as [| a s IH]; simpl; [tauto |].
  destruct (Object3D_eqb a o); simpl; tauto.
Qed.

Lemma remove_first_NoDup (o : Object3D) (s : list Object3D) :
  NoDup (map position s) -> NoDup (map position (remove_first o s)).
Proof.
  induction s as [| a s IH]; simpl; intro H; [constructor |].
  inversion H as [| ? ? Hn Hs]; subst.
  destruct (Object3D_eqb a o); [assumption |].
  simpl. constructor; [| now apply IH].
  intro Hin. apply Hn. apply in_map_iff in Hin as (c & Hc & Hin).
  apply in_map_iff. exists c. split; [assumption |].
  now apply remove_first_incl in Hin.
Qed.

(** Once removed, an object that was a child at most once is no longer
    a child. *)
Lemma remove_first_absent (o : Object3D) (s : list Object3D) :
  NoDup (map position s) -> ~ In o (remove_first o s).
Proof.
  induction s as [| a s IH]; simpl; intro H; [tauto |].
  inversion H as [| ? ? Hn Hs]; subst.
  destruct (Object3D_eqb_spec a o) as [E | N].
  - subst. intro Hin. apply Hn. now apply in_map.
  - simpl. intros [E | Hin]; [contradiction | now apply IH].
Qed.

(** ** One projectile of the loop *)

Lemma refs_letterN (w w' : World) : refs w' = refs w -> letterN w' = letterN w.
Proof. unfold refs. intro H. now injection H. Qed.

Lemma refs_number1 (w w' : World) : refs w' = refs w -> number1 w' = number1 w.
Proof. unfold refs. intro H. now injection H. Qed.

Lemma tick_mesh (p : Projectile) (w : World) :
  mesh (fst (tick p w)) = mesh p.
Proof. unfold_ops. case_conditions; reflexivity. Qed.

Lemma tick_direction (p : Projectile) (w : World) :
  direction (fst (tick p w)) = direction p.
Proof. unfold_ops. case_conditions; reflexivity. Qed.

Lemma tick_refs (p : Projectile) (w : World) :
  refs (snd (tick p w)) = refs w.
Proof. unfold_ops. case_conditions; reflexivity. Qed.

Lemma tick_next (p : Projectile) (w : World) :
  next (snd (tick p w)) = next w.
Proof. unfold_ops. case_conditions; reflexivity. Qed.

(** The scene after one projectile of the loop: its mesh is removed
    exactly when the projectile ends the step dead. *)
Lemma tick_scene (p : Projectile) (w : World) :
  scene (snd (tick p w)) = scene w \/
  (alive (fst (tick p w)) = false /\
   scene (snd (tick p w)) = remove_first (mesh p) (scene w)).
Proof. unfold_ops. case_conditions; simpl; auto. Qed.

(** A step touches two vectors only: the position of the mesh and the
    direction of the projectile. *)
Lemma tick_heap_other (p : Projectile) (w : World) (l : loc) :
  ~ In l (projectile_locs p) -> heap (snd (tick p w)) l = heap w l.
Proof.
  intro H. simpl in H.
  assert (heap (snd (tick p w)) =
          store (store (heap w) (direction p)
                   (Vector3.multiplyScalar (heap w (direction p)) PROJECTILE_SPEED))
                (position (mesh p))
                (Vector3.add
                   (store (heap w) (direction p)
                      (Vector3.multiplyScalar (heap w (direction p)) PROJECTILE_SPEED)
                      (position (mesh p)))
                   (store (heap w) (direction p)
                      (Vector3.multiplyScalar (heap w (direction p)) PROJECTILE_SPEED)
                      (direction p)))) as ->.
  { unfold_ops. case_conditions; reflexivity. }
  rewrite !store_neq; intuition.
Qed.

(** What a step does to the two vectors of a projectile whose position
    and direction are distinct vectors: the direction is scaled by the
    speed, in place, and the scaled direction is added to the
    position. *)
Lemma tick_heap_direction (p : Projectile) (w : World) :
  position (mesh p) <> direction p ->
  heap (snd (tick p w)) (direction p) =
  Vector3.multiplyScalar (heap w (direction p)) PROJECTILE_SPEED.
Proof.
  intro H. unfold_ops. case_conditions; simpl;
    rewrite store_neq, store_eq; congruence.
Qed.

Lemma tick_heap_position (p : Projectile) (w : World) :
  position (mesh p) <> direction p ->
  heap (snd (tick p w)) (position (mesh p)) =
  Vector3.add (heap w (position (mesh p)))
    (Vector3.multiplyScalar (heap w (direction p)) PROJECTILE_SPEED).
Proof.
  intro H. unfold_ops. case_conditions; simpl;
    rewrite !store_eq, store_neq; congruence.
Qed.

(** The liveness flag after a step. *)
Lemma tick_alive (p : Projectile) (w : World) :
  alive (fst (tick p w)) =
  if Rgt_dec (Vector3.length (heap (snd (tick p w)) (position (mesh p)))) 10
  then false else alive p.
Proof.
  unfold_ops.
  destruct (Rgt_dec _ 10) as [G | G]; simpl;
    destruct (letterN w), (number1 w); simpl;
    repeat match goal with
      | |- context [Rlt_dec ?a ?b] => destruct (Rlt_dec a b)
      end; simpl;
    destruct (Rgt_dec _ 10); try reflexivity; contradiction.
Qed.

(** A projectile that ends its step farther than 10 from the origin is
    destroyed in that step. *)
Lemma tick_destroyed (p : Projectile) (w : World) :
  Vector3.length (heap (snd (tick p w)) (position (mesh p))) > 10 ->
  alive (fst (tick p w)) = false /\
  scene (snd (tick p w)) = remove_first (mesh p) (scene w).
Proof.
  unfold_ops.
  destruct (Rgt_dec _ 10) as [G | G]; simpl;
    destruct (letterN w), (number1 w); simpl;
    repeat match goal with
      | |- context [Rlt_dec ?a ?b] => destruct (Rlt_dec a b)
      end; simpl; intro H; auto; contradiction.
Qed.

(** A projectile that ends its step within 10 of the origin is left as
    it was, and so is the scene. *)
Lemma tick_kept (p : Projectile) (w : World) :
  ~ Vector3.length (heap (snd (tick p w)) (position (mesh p))) > 10 ->
  fst (tick p w) = p /\ scene (snd (tick p w)) = scene w.
Proof.
  unfold_ops.
  destruct (Rgt_dec _ 10) as [G | G]; simpl;
    destruct (letterN w), (number1 w); simpl;
    repeat match goal with
      | |- context [Rlt_dec ?a ?b] => destruct (Rlt_dec a b)
      end; simpl; intro H; auto; contradiction.
Qed.

(** With both text meshes present, a step leaves in each intensity
    uniform the verdict on the projectile it has just moved. *)
Lemma tick_alphabet (p : Projectile) (w : World) (n d : Object3D) :
  letterN w = Some n -> number1 w = Some d ->
  ambientIntensity (alphabetMaterial (snd (tick p w))) =
  if Rlt_dec (Vector3.distanceTo (heap (snd (tick p w)) (position (mesh p)))
                                 (heap (snd (tick p w)) (position n)))
             DETECTION_RADIUS
  then 0.8 else 0.401.
Proof.
  intros Hn Hd. unfold_ops.
  destruct (Rgt_dec _ 10) as [G | G]; simpl; rewrite Hn, Hd; simpl;
    repeat match goal with
      | |- context [Rlt_dec ?a ?b] => destruct (Rlt_dec a b)
      end; simpl; try reflexivity; contradiction.
Qed.

Lemma tick_digit (p : Projectile) (w : World) (n d : Object3D) :
  letterN w = Some n -> number1 w = Some d ->
  ambientIntensity (digitMaterial (snd (tick p w))) =
  if Rlt_dec (Vector3.distanceTo (heap (snd (tick p w)) (position (mesh p)))
                                 (heap (snd (tick p w)) (position d)))
             DETECTION_RADIUS
  then 0.8 else 0.401.
Proof.
  intros Hn Hd. unfold_ops.
  destruct (Rgt_dec _ 10) as [G | G]; simpl; rewrite Hn, Hd; simpl;
    repeat match goal with
      | |- context [Rlt_dec ?a ?b] => destruct (Rlt_dec a b)
      end; simpl; try reflexivity; contradiction.
Qed.

(** With a text mesh missing, a step is the update alone. *)
Lemma tick_unguarded (p : Projectile) (w : World) :
  letterN w = None \/ number1 w = None ->
  tick p w = Projectile_update p w.
Proof.
  intro H. unfold tick.
  destruct (Projectile_update p w) as [p' w'] eqn:E.
  assert (letterN w' = letterN w /\ number1 w' = number1 w) as [Hn Hd].
  { unfold_ops. destruct (Rgt_dec _ 10); inversion E; auto. }
  unfold proximity. rewrite Hn, Hd.
  destruct H as [-> | ->]; [reflexivity | now destruct (letterN w)].
Qed.

(** The update never touches an intensity uniform. *)
Lemma Projectile_update_ambient (p : Projectile) (w : World) :
  ambientIntensity (alphabetMaterial (snd (Projectile_update p w))) =
    ambientIntensity (alphabetMaterial w) /\
  ambientIntensity (digitMaterial (snd (Projectile_update p w))) =
    ambientIntensity (digitMaterial w).
Proof. unfold_ops. destruct (Rgt_dec _ 10); auto. Qed.

(** ** The loop *)

Lemma forEach_app (f : Projectile -> World -> Projectile * World)
  (ps qs : list Projectile) (w : World) :
  forEach f (ps ++ qs) w =
  (fst (forEach f ps w) ++ fst (forEach f qs (snd (forEach f ps w))),
   snd (forEach f qs (snd (forEach f ps w)))).
Proof.
  revert w. induction ps as [| p ps IH]; intro w; simpl.
  - now destruct (forEach f qs w).
  - destruct (f p w) as [p' w1]. rewrite IH.
    destruct (forEach f ps w1) as [ps' w2]. simpl.
    now destruct (forEach f qs w2).
Qed.

Lemma forEach_cons (f : Projectile -> World -> Projectile * World)
  (p : Projectile) (ps : list Projectile) (w : World) :
  forEach f (p :: ps) w =
  (fst (f p w) :: fst (forEach f ps (snd (f p w))),
   snd (forEach f ps (snd (f p w)))).
Proof.
  simpl. destruct (f p w) as [p' w1]. simpl.
  now destruct (forEach f ps w1).
Qed.

Lemma forEach_snoc (f : Projectile -> World -> Projectile * World)
  (ps : list Projectile) (p : Projectile) (w : World) :
  forEach f (ps ++ [p]) w =
  (fst (forEach f ps w) ++ [fst (f p (snd (forEach f ps w)))],
   snd (f p (snd (forEach f ps w)))).
Proof.
  rewrite forEach_app. simpl.
  now destruct (f p (snd (forEach f ps w))).
Qed.

Lemma forEach_tick_mesh (ps : list Projectile) (w : World) :
  map mesh (fst (forEach tick ps w)) = map mesh ps.
Proof.
  revert w. induction ps as [| p ps IH]; intro w; [reflexivity |].
  rewrite forEach_cons. simpl. now rewrite IH, tick_mesh.
Qed.

Lemma forEach_tick_locs (ps : list Projectile) (w : World) :
  flat_map projectile_locs (fst (forEach tick ps w)) =
  flat_map projectile_locs ps.
Proof.
  revert w. induction ps as [| p ps IH]; intro w; [reflexivity |].
  rewrite forEach_cons. simpl. rewrite IH.
  unfold projectile_locs. now rewrite tick_mesh, tick_direction.
Qed.

Lemma forEach_tick_refs (ps : list Projectile) (w : World) :
  refs (snd (forEach tick ps w)) = refs w.
Proof.
  revert w. induction ps as [| p ps IH]; intro w; [reflexivity |].
  rewrite forEach_cons. simpl. now rewrite IH, tick_refs.
Qed.

Lemma forEach_tick_next (ps : list Projectile) (w : World) :
  next (snd (forEach tick ps w)) = next w.
Proof.
  revert w. induction ps as [| p ps IH]; intro w; [reflexivity |].
  rewrite forEach_cons. simpl. now rewrite IH, tick_next.
Qed.

Lemma forEach_tick_heap_other (ps : list Projectile) (w : World) (l : loc) :
  ~ In l (flat_map projectile_locs ps) ->
  heap (snd (forEach tick ps w)) l = heap w l.
Proof.
  revert w. induction ps as [| p ps IH]; intros w H; [reflexivity |].
  rewrite forEach_cons. simpl snd.
  change (flat_map projectile_locs (p :: ps))
    with (projectile_locs p ++ flat_map projectile_locs ps) in H.
  rewrite in_app_iff in H.
  rewrite IH by tauto. apply tick_heap_other. tauto.
Qed.

Lemma forEach_tick_scene_incl (ps : list Projectile) (w : World) (c : Object3D) :
  In c (scene (snd (forEach tick ps w))) -> In c (scene w).
Proof.
  revert w. induction ps as [| p ps IH]; intros w H; [assumption |].
  rewrite forEach_cons in H. simpl snd in H. apply IH in H.
  destruct (tick_scene p w) as [E | [_ E]]; rewrite E in H;
    [assumption | now apply remove_first_incl in H].
Qed.

Lemma forEach_tick_scene_NoDup (ps : list Projectile) (w : World) :
  NoDup (map position (scene w)) ->
  NoDup (map position (scene (snd (forEach tick ps w)))).
Proof.
  revert w. induction ps as [| p ps IH]; intros w H; [assumption |].
  rewrite forEach_cons. simpl snd. apply IH.
  destruct (tick_scene p w) as [E | [_ E]]; rewrite E;
    [assumption | now apply remove_first_NoDup].
Qed.

(** ** Well-formedness is kept by every callback *)

Lemma static_locs_refs (w w' : World) :
  refs w' = refs w -> static_locs w' = static_locs w.
Proof.
  unfold refs, static_locs, fixed_locs, material_locs. intro H.
  injection H as -> -> -> -> -> -> -> -> -> -> ->. reflexivity.
Qed.

Lemma vectors_refs (w w' : World) :
  refs w' = refs w ->
  flat_map projectile_locs (projectiles w') =
    flat_map projectile_locs (projectiles w) ->
  vectors w' = vectors w.
Proof.
  intros Hr Hp. unfold vectors. now rewrite (static_locs_refs _ _ Hr), Hp.
Qed.

Lemma filter_locs_incl (ps : list Projectile) (l : loc) :
  In l (flat_map projectile_locs (filter alive ps)) ->
  In l (flat_map projectile_locs ps).
Proof.
  rewrite !in_flat_map. intros (p & Hp & Hl).
  apply filter_In in Hp as [Hp _]. now exists p.
Qed.

Lemma filter_locs_NoDup (A : list loc) (ps : list Projectile) :
  NoDup (A ++ flat_map projectile_locs ps) ->
  NoDup (A ++ flat_map projectile_locs (filter alive ps)).
Proof.
  revert A. induction ps as [| p ps IH]; intros A H; [assumption |].
  simpl in *. destruct (alive p).
  - simpl.
    change (A ++ position (mesh p) :: direction p
              :: flat_map projectile_locs (filter alive ps))
      with (A ++ [position (mesh p); direction p]
              ++ flat_map projectile_locs (filter alive ps)).
    rewrite app_assoc. apply IH. now rewrite <- app_assoc.
  - apply IH. apply NoDup_remove_1 in H. now apply NoDup_remove_1 in H.
Qed.

Lemma wf_write (l : loc) (v : Vector3) (w : World) : wf w -> wf (write l v w).
Proof. intros [H1 H2 H3 H4]. now split. Qed.

Lemma wf_filter (w : World) : wf w -> wf (with_projectiles w (iterated w)).
Proof.
  intros [H1 H2 H3 H4]. split; try assumption.
  - unfold vectors in *. simpl. now apply filter_locs_NoDup.
  - unfold vectors in *. simpl. rewrite Forall_app in *.
    destruct H2 as [Hs Hp]. split; [assumption |].
    rewrite Forall_forall in *. intros l Hl. apply Hp.
    now apply filter_locs_incl.
Qed.

Lemma wf_updateProjectiles (w : World) : wf w -> wf (updateProjectiles w).
Proof.
  intro H. apply wf_filter in H. unfold updateProjectiles.
  set (w0 := with_projectiles w (iterated w)) in *.
  pose proof (forEach_tick_refs (projectiles w0) w0) as Hr.
  pose proof (forEach_tick_locs (projectiles w0) w0) as Hl.
  pose proof (forEach_tick_next (projectiles w0) w0) as Hn.
  pose proof (forEach_tick_scene_NoDup (projectiles w0) w0) as Hs.
  pose proof (forEach_tick_scene_incl (projectiles w0) w0) as Hi.
  destruct (forEach tick (projectiles w0) w0) as [ps w1].
  simpl fst in *. simpl snd in *.
  assert (Hv : vectors (with_projectiles w1 ps) = vectors w0)
    by now apply vectors_refs.
  destruct H as [H1 H2 H3 H4]. split.
  - now rewrite Hv.
  - rewrite Hv. change (next (with_projectiles w1 ps)) with (next w1).
    now rewrite Hn.
  - now apply Hs.
  - change (next (with_projectiles w1 ps)) with (next w1). rewrite Hn.
    apply Forall_forall. intros c Hc. apply Hi in Hc.
    revert c Hc. now apply Forall_forall.
Qed.

Lemma wf_animate (w : World) : wf w -> wf (animate w).
Proof.
  intro H. unfold animate. apply wf_updateProjectiles.
  destruct H as [H1 H2 H3 H4]. now split.
Qed.

(** ** Spawning *)

Lemma spawn_projectiles (r1 r2 r3 : R) (w : World) :
  projectiles (spawn r1 r2 r3 w) = projectiles w ++ [spawned w].
Proof. reflexivity. Qed.

Lemma spawn_scene (r1 r2 r3 : R) (w : World) :
  scene (spawn r1 r2 r3 w) = scene w ++ [mesh (spawned w)].
Proof. reflexivity. Qed.

Lemma spawn_next (r1 r2 r3 : R) (w : World) :
  next (spawn r1 r2 r3 w) = S (S (S (next w))).
Proof. reflexivity. Qed.

Lemma spawn_refs (r1 r2 r3 : R) (w : World) :
  refs (spawn r1 r2 r3 w) = refs w.
Proof. reflexivity. Qed.

Lemma spawn_heap_old (r1 r2 r3 : R) (w : World) (l : loc) :
  (l < next w)%nat -> heap (spawn r1 r2 r3 w) l = heap w l.
Proof.
  intro H. unfold spawn, clone, new_Vector3, Projectile_new, new_Object3D,
    new_Vector3. unfold_ops. simpl.
  rewrite !store_neq by lia. reflexivity.
Qed.

Lemma spawn_heap_position (r1 r2 r3 : R) (w : World) :
  (position (cubeMesh w) < next w)%nat ->
  heap (spawn r1 r2 r3 w) (position (mesh (spawned w))) =
  heap w (position (cubeMesh w)).
Proof.
  intro H. unfold spawn, clone, new_Vector3, Projectile_new, new_Object3D,
    new_Vector3. unfold_ops. simpl.
  rewrite (store_neq _ (S (next w))) by lia.
  rewrite store_eq, (store_neq _ _ (next w)) by lia.
  rewrite (store_neq _ _ (next w)) by lia. now rewrite store_eq.
Qed.

Lemma spawn_heap_direction (r1 r2 r3 : R) (w : World) :
  heap (spawn r1 r2 r3 w) (direction (spawned w)) =
  Vector3.normalize (Vector3.mk (r1 - 0.5) (r2 - 0.5) (r3 - 0.5)).
Proof.
  unfold spawn, clone, new_Vector3, Projectile_new, new_Object3D,
    new_Vector3. unfold_ops. simpl.
  rewrite store_eq, !(store_neq _ _ (S (next w))) by lia.
  now rewrite store_eq.
Qed.

Lemma NoDup_snoc_fresh (ls : list loc) (n : loc) (extra : list loc) :
  NoDup ls -> Forall (fun l => (l < n)%nat) ls ->
  NoDup extra -> Forall (fun l => (n <= l)%nat) extra ->
  NoDup (ls ++ extra).
Proof.
  intros Hls Hb He Hf. apply NoDup_app; try assumption.
  intros a Ha Ha'. rewrite Forall_forall in Hb, Hf.
  specialize (Hb a Ha). specialize (Hf a Ha'). lia.
Qed.

Lemma wf_spawn (r1 r2 r3 : R) (w : World) : wf w -> wf (spawn r1 r2 r3 w).
Proof.
  intros [H1 H2 H3 H4].
  assert (Hv : vectors (spawn r1 r2 r3 w) =
               vectors w ++ [S (S (next w)); S (next w)]).
  { unfold vectors. rewrite (static_locs_refs _ _ (spawn_refs r1 r2 r3 w)).
    rewrite spawn_projectiles, flat_map_app. simpl.
    now rewrite <- app_assoc. }
  split.
  - rewrite Hv. apply (NoDup_snoc_fresh _ (next w)); try assumption.
    + repeat constructor; simpl; intuition lia.
    + repeat constructor; lia.
  - rewrite Hv, spawn_next. apply Forall_app. split.
    + eapply Forall_impl; [| exact H2]. simpl. intros; lia.
    + repeat constructor; lia.
  - rewrite spawn_scene, map_app. simpl.
    apply (NoDup_snoc_fresh _ (next w)).
    + assumption.
    + apply Forall_forall. intros l Hl. apply in_map_iff in Hl as (c & <- & Hc).
      rewrite Forall_forall in H4. now apply H4.
    + repeat constructor; simpl; tauto.
    + repeat constructor; lia.
  - rewrite spawn_scene, spawn_next. apply Forall_app. split.
    + eapply Forall_impl; [| exact H4]. simpl. intros; lia.
    + repeat constructor; simpl; lia.
Qed.

Lemma wf_keydown (key : string) (r1 r2 r3 : R) (w : World) :
  wf w -> wf (keydown key r1 r2 r3 w).
Proof.
  intro H. unfold keydown.
  repeat match goal with
    | |- context [String.eqb ?a ?b] => destruct (String.eqb a b)
    end;
    try (now apply wf_write); [now apply wf_spawn | assumption].
Qed.

Lemma font_loaded_next (w : World) : next (font_loaded w) = S (S (next w)).
Proof. reflexivity. Qed.

Lemma font_loaded_scene (w : World) :
  scene (font_loaded w) =
  (scene w ++ [ {| position := next w |} ]) ++ [ {| position := S (next w) |} ].
Proof. reflexivity. Qed.

Lemma font_loaded_projectiles (w : World) :
  projectiles (font_loaded w) = projectiles w.
Proof. reflexivity. Qed.

Lemma wf_font_loaded (w : World) : wf w -> wf (font_loaded w).
Proof.
  intros [H1 H2 H3 H4].
  assert (Hv : vectors (font_loaded w) =
               next w :: S (next w)
               :: fixed_locs w ++ flat_map projectile_locs (projectiles w))
    by reflexivity.
  unfold vectors, static_locs in H1, H2.
  rewrite <- !app_assoc in H1, H2.
  apply NoDup_app_remove_l in H1. apply NoDup_app_remove_l in H1.
  rewrite !Forall_app in H2. destruct H2 as (_ & _ & Hf & Hp).
  assert (Hb : Forall (fun l => (l < next w)%nat)
                 (fixed_locs w ++ flat_map projectile_locs (projectiles w)))
    by (apply Forall_app; now split).
  rewrite Forall_forall in Hb.
  split.
  - rewrite Hv. constructor; [| constructor; [| assumption]].
    + simpl. intros [E | Hin]; [lia | apply Hb in Hin; lia].
    + intro Hin. apply Hb in Hin. lia.
  - rewrite Hv, font_loaded_next. constructor; [lia |]. constructor; [lia |].
    apply Forall_forall. intros l Hl. apply Hb in Hl. lia.
  - rewrite font_loaded_scene, <- app_assoc, map_app. simpl.
    apply (NoDup_snoc_fresh _ (next w)).
    + assumption.
    + apply Forall_forall. intros l Hl. apply in_map_iff in Hl as (c & <- & Hc).
      rewrite Forall_forall in H4. now apply H4.
    + repeat constructor; simpl; intuition lia.
    + repeat constructor; lia.
  - rewrite font_loaded_scene, font_loaded_next, <- app_assoc.
    apply Forall_app. split.
    + eapply Forall_impl; [| exact H4]. simpl. intros; lia.
    + repeat constructor; simpl; lia.
Qed.

Lemma wf_init : wf init.
Proof.
  split; simpl.
  - repeat constructor; simpl; intuition lia.
  - repeat constructor; lia.
  - repeat constructor; simpl; intuition lia.
  - repeat constructor; simpl; lia.
Qed.

Lemma wf_step (w : World) (e : Event) : wf w -> wf (step w e).
Proof.
  destruct e; simpl; intro H.
  - now apply wf_animate.
  - now apply wf_keydown.
  - now apply wf_font_loaded.
Qed.

Lemma wf_run (es : list Event) (w : World) : wf w -> wf (run es w).
Proof.
  revert w. induction es as [| e es IH]; intros w H; [assumption |].
  simpl. apply IH. now apply wf_step.
Qed.

(** ** What a pass does to each projectile *)

(** The projectile as the step leaves it. *)
Lemma tick_fst (p : Projectile) (w : World) :
  fst (tick p w) =
  if Rgt_dec (Vector3.length (heap (snd (tick p w)) (position (mesh p)))) 10
  then with_alive p false else p.
Proof.
  unfold_ops.
  destruct (Rgt_dec _ 10) as [G | G]; simpl;
    destruct (letterN w), (number1 w); simpl;
    repeat match goal with
      | |- context [Rlt_dec ?a ?b] => destruct (Rlt_dec a b)
      end; simpl;
    destruct (Rgt_dec _ 10); try reflexivity; contradiction.
Qed.

Lemma projectile_locs_In (q : Projectile) (ps : list Projectile) :
  In q ps ->
  In (position (mesh q)) (flat_map projectile_locs ps) /\
  In (direction q) (flat_map projectile_locs ps).
Proof.
  intro H. split; apply in_flat_map; exists q; simpl; auto.
Qed.

(** In a pass over projectiles that share no vector, every projectile
    is moved exactly once, by its own step. *)
Lemma forEach_tick_elem (ps : list Projectile) (w : World) (q : Projectile) :
  NoDup (flat_map projectile_locs ps) -> In q ps ->
  heap (snd (forEach tick ps w)) (direction q) =
    Vector3.multiplyScalar (heap w (direction q)) PROJECTILE_SPEED /\
  heap (snd (forEach tick ps w)) (position (mesh q)) =
    Vector3.add (heap w (position (mesh q)))
      (Vector3.multiplyScalar (heap w (direction q)) PROJECTILE_SPEED) /\
  In (if Rgt_dec (Vector3.length
                    (heap (snd (forEach tick ps w)) (position (mesh q)))) 10
      then with_alive q false else q)
     (fst (forEach tick ps w)).
Proof.
  revert w. induction ps as [| p ps IH]; intros w Hnd Hq; [contradiction |].
  rewrite forEach_cons. simpl fst. simpl snd.
  simpl in Hnd. inversion Hnd as [| ? ? Hpos Hnd1]; subst.
  inversion Hnd1 as [| ? ? Hdir Hnd2]; subst.
  assert (Hpd : position (mesh p) <> direction p).
  { intro E. apply Hpos. left. now symmetry. }
  destruct Hq as [-> | Hq].
  - assert (Hp_out : ~ In (position (mesh q)) (flat_map projectile_locs ps)).
    { intro Hin. apply Hpos. now right. }
    rewrite !forEach_tick_heap_other by assumption.
    rewrite tick_heap_direction, tick_heap_position by assumption.
    repeat split. left.
    rewrite tick_fst. now rewrite tick_heap_position by assumption.
  - destruct (projectile_locs_In q ps Hq) as [Hqp Hqd].
    destruct (IH (snd (tick p w)) Hnd2 Hq) as (Ed & Ep & Hin).
    rewrite Ed, Ep. rewrite Ep in Hin.
    assert (Hd_out : ~ In (direction q) (projectile_locs p)).
    { simpl. intros [E | [E | []]].
      - apply Hpos. right. now rewrite E.
      - apply Hdir. now rewrite E. }
    assert (Hp_out : ~ In (position (mesh q)) (projectile_locs p)).
    { simpl. intros [E | [E | []]].
      - apply Hpos. right. now rewrite E.
      - apply Hdir. now rewrite E. }
    rewrite !tick_heap_other by assumption.
    rewrite !tick_heap_other in Hin by assumption.
    repeat split. now right.
Qed.

(** After a pass over projectiles that share no vector, an entry of
    the array that lies farther than 10 from the origin has been
    destroyed during the pass: its flag is cleared and its mesh is no
    longer a child of the scene. *)
Lemma forEach_tick_far (ps : list Projectile) (w : World) (q : Projectile) :
  NoDup (flat_map projectile_locs ps) ->
  NoDup (map position (scene w)) ->
  In q (fst (forEach tick ps w)) ->
  Vector3.length (heap (snd (forEach tick ps w)) (position (mesh q))) > 10 ->
  alive q = false /\ ~ In (mesh q) (scene (snd (forEach tick ps w))).
Proof.
  revert w. induction ps as [| p ps IH]; intros w Hnd Hsc Hq Hfar;
    [contradiction |].
  rewrite forEach_cons in Hq, Hfar |- *. simpl fst in *. simpl snd in *.
  simpl in Hnd. inversion Hnd as [| ? ? Hpos Hnd1]; subst.
  inversion Hnd1 as [| ? ? Hdir Hnd2]; subst.
  destruct Hq as [<- | Hq].
  - rewrite tick_mesh in *.
    rewrite forEach_tick_heap_other in Hfar
      by (intro Hin; apply Hpos; now right).
    destruct (tick_destroyed p w Hfar) as [Ha Es]. split; [assumption |].
    intro Hin. apply forEach_tick_scene_incl in Hin. rewrite Es in Hin.
    now apply remove_first_absent in Hin.
  - apply IH; try assumption.
    destruct (tick_scene p w) as [E | [_ E]]; rewrite E;
      [assumption | now apply remove_first_NoDup].
Qed.

(** ** Consequences of well-formedness *)

Lemma NoDup_app_disjoint (A B : list loc) (l : loc) :
  NoDup (A ++ B) -> In l A -> In l B -> False.
Proof.
  induction A as [| a A IH]; simpl; intros H HA HB; [contradiction |].
  inversion H as [| ? ? Hn Hrest]; subst.
  destruct HA as [-> | HA].
  - apply Hn. apply in_or_app. now right.
  - now apply IH.
Qed.

Lemma NoDup_flat_map_neq (ps : list Projectile) (q : Projectile) :
  NoDup (flat_map projectile_locs ps) -> In q ps ->
  position (mesh q) <> direction q.
Proof.
  induction ps as [| p ps IH]; intros H Hq; [contradiction |].
  simpl in H. inversion H as [| ? ? Hpos H1]; subst.
  inversion H1 as [| ? ? Hdir H2]; subst.
  destruct Hq as [-> | Hq]; [| now apply IH].
  intro E. apply Hpos. left. now symmetry.
Qed.

Lemma wf_projectiles_NoDup (w : World) :
  wf w -> NoDup (flat_map projectile_locs (projectiles w)).
Proof. intros [H _ _ _]. now apply NoDup_app_remove_l in H. Qed.

Lemma wf_iterated_NoDup (w : World) :
  wf w -> NoDup (flat_map projectile_locs (iterated w)).
Proof. intro H. now apply wf_filter, wf_projectiles_NoDup in H. Qed.

Lemma iterated_In (w : World) (q : Projectile) :
  In q (iterated w) <-> In q (projectiles w) /\ alive q = true.
Proof. apply filter_In. Qed.

(** A projectile of a well-formed world has a position and a direction
    that are distinct allocated vectors, shared with nothing else. *)
Lemma wf_projectile (w : World) (q : Projectile) :
  wf w -> In q (projectiles w) ->
  position (mesh q) <> direction q /\
  (position (mesh q) < next w)%nat /\ (direction q < next w)%nat /\
  ~ In (position (mesh q)) (static_locs w) /\
  ~ In (direction q) (static_locs w).
Proof.
  intros Hwf Hq. pose proof (wf_projectiles_NoDup w Hwf) as Hnd.
  destruct Hwf as [H1 H2 _ _].
  destruct (projectile_locs_In q _ Hq) as [Hp Hd].
  unfold vectors in *. rewrite Forall_app in H2.
  destruct H2 as [_ H2]. rewrite Forall_forall in H2. repeat split.
  - now apply (NoDup_flat_map_neq (projectiles w)).
  - now apply H2.
  - now apply H2.
  - intro Hs. now apply (NoDup_app_disjoint _ _ _ H1 Hs).
  - intro Hs. now apply (NoDup_app_disjoint _ _ _ H1 Hs).
Qed.

(** ** A frame *)

Lemma animate_eq (w : World) : animate w = updateProjectiles (before_pass w).
Proof. reflexivity. Qed.

Lemma uniform_locs_static (w : World) (l : loc) :
  In l (uniform_locs w) -> In l (static_locs w).
Proof.
  unfold uniform_locs, static_locs, fixed_locs, material_locs. intro H.
  apply in_or_app. right. apply in_or_app. right. simpl in *. intuition.
Qed.

Lemma before_pass_heap (w : World) (l : loc) :
  ~ In l (uniform_locs w) -> heap (before_pass w) l = heap w l.
Proof.
  intro H. unfold before_pass, copy, write. simpl in *.
  rewrite !store_neq; intuition.
Qed.

Lemma wf_before_pass (w : World) : wf w -> wf (before_pass w).
Proof. intros [H1 H2 H3 H4]. now split. Qed.

Lemma updateProjectiles_eq (w : World) :
  updateProjectiles w =
  with_projectiles
    (snd (forEach tick (iterated w) (with_projectiles w (iterated w))))
    (fst (forEach tick (iterated w) (with_projectiles w (iterated w)))).
Proof.
  unfold updateProjectiles.
  change (projectiles (with_projectiles w (iterated w))) with (iterated w).
  now destruct (forEach tick (iterated w) (with_projectiles w (iterated w))).
Qed.

Lemma updateProjectiles_refs (w : World) : refs (updateProjectiles w) = refs w.
Proof.
  rewrite updateProjectiles_eq.
  change (refs (with_projectiles ?a ?b)) with (refs a).
  now rewrite forEach_tick_refs.
Qed.

Lemma updateProjectiles_next (w : World) : next (updateProjectiles w) = next w.
Proof.
  rewrite updateProjectiles_eq.
  change (next (with_projectiles ?a ?b)) with (next a).
  now rewrite forEach_tick_next.
Qed.

Lemma updateProjectiles_mesh (w : World) :
  map mesh (projectiles (updateProjectiles w)) = map mesh (iterated w).
Proof. rewrite updateProjectiles_eq. apply forEach_tick_mesh. Qed.

Lemma updateProjectiles_heap_other (w : World) (l : loc) :
  ~ In l (flat_map projectile_locs (iterated w)) ->
  heap (updateProjectiles w) l = heap w l.
Proof.
  intro H. rewrite updateProjectiles_eq.
  change (heap (with_projectiles ?a ?b)) with (heap a).
  now rewrite forEach_tick_heap_other.
Qed.

Lemma updateProjectiles_elem (w : World) (q : Projectile) :
  wf w -> In q (iterated w) ->
  heap (updateProjectiles w) (direction q) =
    Vector3.multiplyScalar (heap w (direction q)) PROJECTILE_SPEED /\
  heap (updateProjectiles w) (position (mesh q)) =
    Vector3.add (heap w (position (mesh q)))
      (Vector3.multiplyScalar (heap w (direction q)) PROJECTILE_SPEED) /\
  In (if Rgt_dec (Vector3.length
                    (heap (updateProjectiles w) (position (mesh q)))) 10
      then with_alive q false else q)
     (projectiles (updateProjectiles w)).
Proof.
  intros Hwf Hq. rewrite updateProjectiles_eq.
  change (heap (with_projectiles ?a ?b)) with (heap a).
  change (projectiles (with_projectiles ?a ?b)) with b.
  apply (forEach_tick_elem (iterated w) (with_projectiles w (iterated w)) q);
    [now apply wf_iterated_NoDup | assumption].
Qed.

Lemma animate_refs (w : World) : refs (animate w) = refs w.
Proof. rewrite animate_eq. now rewrite updateProjectiles_refs. Qed.

Lemma animate_next (w : World) : next (animate w) = next w.
Proof. rewrite animate_eq. now rewrite updateProjectiles_next. Qed.

Lemma animate_mesh (w : World) :
  map mesh (projectiles (animate w)) = map mesh (iterated w).
Proof. rewrite animate_eq. now rewrite updateProjectiles_mesh. Qed.

Lemma animate_heap_other (w : World) (l : loc) :
  ~ In l (uniform_locs w) ->
  ~ In l (flat_map projectile_locs (iterated w)) ->
  heap (animate w) l = heap w l.
Proof.
  intros Hu Hp. rewrite animate_eq.
  rewrite updateProjectiles_heap_other by assumption.
  now apply before_pass_heap.
Qed.

(** A frame moves each live projectile of a well-formed world by its
    own direction vector, after scaling that vector in place. *)
Lemma animate_elem (w : World) (q : Projectile) :
  wf w -> In q (iterated w) ->
  heap (animate w) (direction q) =
    Vector3.multiplyScalar (heap w (direction q)) PROJECTILE_SPEED /\
  heap (animate w) (position (mesh q)) =
    Vector3.add (heap w (position (mesh q)))
      (Vector3.multiplyScalar (heap w (direction q)) PROJECTILE_SPEED) /\
  In (if Rgt_dec (Vector3.length (heap (animate w) (position (mesh q)))) 10
      then with_alive q false else q)
     (projectiles (animate w)).
Proof.
  intros Hwf Hq. rewrite animate_eq.
  assert (Hq' : In q (projectiles w)) by now apply iterated_In in Hq.
  destruct (wf_projectile w q Hwf Hq') as (_ & _ & _ & Hp & Hd).
  destruct (updateProjectiles_elem (before_pass w) q
              (wf_before_pass w Hwf) Hq) as (E1 & E2 & E3).
  rewrite E1, E2. rewrite E2 in E3.
  rewrite !before_pass_heap in *
    by (intro Hu; apply uniform_locs_static in Hu; contradiction).
  auto.
Qed.

(** ** The verdict of a pass is the verdict on its last projectile *)

Lemma forEach_tick_last (w : World) (n d : Object3D)
  (ps : list Projectile) (pl : Projectile) :
  letterN w = Some n -> number1 w = Some d ->
  ambientIntensity (alphabetMaterial (snd (forEach tick (ps ++ [pl]) w))) =
    (if Rlt_dec (Vector3.distanceTo
                   (heap (snd (forEach tick (ps ++ [pl]) w))
                      (position (mesh pl)))
                   (heap (snd (forEach tick (ps ++ [pl]) w)) (position n)))
                DETECTION_RADIUS
     then 0.8 else 0.401) /\
  ambientIntensity (digitMaterial (snd (forEach tick (ps ++ [pl]) w))) =
    (if Rlt_dec (Vector3.distanceTo
                   (heap (snd (forEach tick (ps ++ [pl]) w))
                      (position (mesh pl)))
                   (heap (snd (forEach tick (ps ++ [pl]) w)) (position d)))
                DETECTION_RADIUS
     then 0.8 else 0.401).
Proof.
  intros Hn Hd. rewrite forEach_snoc. simpl snd.
  set (w1 := snd (forEach tick ps w)).
  assert (Hr : refs w1 = refs w) by apply forEach_tick_refs.
  assert (Hn1 : letterN w1 = Some n)
    by now rewrite (refs_letterN _ _ Hr).
  assert (Hd1 : number1 w1 = Some d)
    by now rewrite (refs_number1 _ _ Hr).
  split; [now apply tick_alphabet with (d := d)
         | now apply tick_digit with (n := n)].
Qed.

Lemma before_pass_iterated (w : World) : iterated (before_pass w) = iterated w.
Proof. reflexivity. Qed.

Lemma animate_last (w : World) (n d : Object3D)
  (ps : list Projectile) (pl : Projectile) :
  letterN w = Some n -> number1 w = Some d -> iterated w = ps ++ [pl] ->
  ambientIntensity (alphabetMaterial (animate w)) =
    (if Rlt_dec (Vector3.distanceTo (heap (animate w) (position (mesh pl)))
                                    (heap (animate w) (position n)))
                DETECTION_RADIUS
     then 0.8 else 0.401) /\
  ambientIntensity (digitMaterial (animate w)) =
    (if Rlt_dec (Vector3.distanceTo (heap (animate w) (position (mesh pl)))
                                    (heap (animate w) (position d)))
                DETECTION_RADIUS
     then 0.8 else 0.401).
Proof.
  intros Hn Hd Hit. rewrite animate_eq, updateProjectiles_eq.
  rewrite before_pass_iterated, Hit.
  change (heap (with_projectiles ?a ?b)) with (heap a).
  change (alphabetMaterial (with_projectiles ?a ?b)) with (alphabetMaterial a).
  change (digitMaterial (with_projectiles ?a ?b)) with (digitMaterial a).
  now apply forEach_tick_last.
Qed.

(** C5.  In a pass over at least one live projectile, with both text
    meshes present, each intensity uniform ends the pass with the
    verdict on the projectile evaluated last: 0.8 if that projectile is
    within the detection radius of the mesh, 0.401 otherwise, whatever
    the projectiles evaluated before it were near to. *)
Theorem C5_last_projectile_decides (w : World) (n d : Object3D)
  (ps : list Projectile) (pl : Projectile) :
  letterN w = Some n -> number1 w = Some d -> iterated w = ps ++ [pl] ->
  ambientIntensity (alphabetMaterial (updateProjectiles w)) =
    (if Rlt_dec (Vector3.distanceTo
                   (heap (updateProjectiles w) (position (mesh pl)))
                   (heap (updateProjectiles w) (position n)))
                DETECTION_RADIUS
     then 0.8 else 0.401) /\
  ambientIntensity (digitMaterial (updateProjectiles w)) =
    (if Rlt_dec (Vector3.distanceTo
                   (heap (updateProjectiles w) (position (mesh pl)))
                   (heap (updateProjectiles w) (position d)))
                DETECTION_RADIUS
     then 0.8 else 0.401).
Proof.
  intros Hn Hd Hit. rewrite updateProjectiles_eq, Hit.
  change (heap (with_projectiles ?a ?b)) with (heap a).
  change (alphabetMaterial (with_projectiles ?a ?b)) with (alphabetMaterial a).
  change (digitMaterial (with_projectiles ?a ?b)) with (digitMaterial a).
  now apply forEach_tick_last.
Qed.

(** ** Two projectiles, one near each text mesh *)

Lemma run_app (es1 es2 : list Event) (w : World) :
  run (es1 ++ es2) w = run es2 (run es1 w).
Proof. apply fold_left_app. Qed.

Lemma two_shots_frame :
  let w := run two_shots init in
  heap (animate w) 13%nat = Vector3.mk (- 0.1) 0 0 /\
  heap (animate w) 16%nat = Vector3.mk 0.1 0 0 /\
  heap (animate w) 9%nat = Vector3.mk (-2) 0 0 /\
  heap (animate w) 10%nat = Vector3.mk 2 0 0 /\
  In shot1 (projectiles (animate w)).
Proof.
  intro w.
  assert (Hwf : wf w) by apply wf_run, wf_init.
  assert (H1 : In shot1 (iterated w)) by (simpl; auto).
  assert (H2 : In shot2 (iterated w)) by (simpl; auto).
  destruct (animate_elem w shot1 Hwf H1) as (_ & E1 & I1).
  destruct (animate_elem w shot2 Hwf H2) as (_ & E2 & _).
  change (heap w (position (mesh shot1))) with Vector3.zero in E1.
  change (heap w (direction shot1))
    with (Vector3.normalize (Vector3.mk (0 - 0.5) (0.5 - 0.5) (0.5 - 0.5)))
    in E1.
  change (heap w (position (mesh shot2))) with Vector3.zero in E2.
  change (heap w (direction shot2))
    with (Vector3.normalize (Vector3.mk (0.75 - 0.5) (0.5 - 0.5) (0.5 - 0.5)))
    in E2.
  rewrite (normalize_eq _ 0.5) in E1 by (unfold lengthSq; simpl; lra).
  rewrite (normalize_eq _ 0.25) in E2 by (unfold lengthSq; simpl; lra).
  change (position (mesh shot1)) with 13%nat in *.
  change (position (mesh shot2)) with 16%nat in *.
  assert (P1 : heap (animate w) 13%nat = Vector3.mk (- 0.1) 0 0).
  { rewrite E1. apply Vector3_eq; unfold PROJECTILE_SPEED; simpl; lra. }
  assert (P2 : heap (animate w) 16%nat = Vector3.mk 0.1 0 0).
  { rewrite E2. apply Vector3_eq; unfold PROJECTILE_SPEED; simpl; lra. }
  repeat split; try assumption.
  - rewrite animate_heap_other; [reflexivity | simpl; intuition lia ..].
  - rewrite animate_heap_other; [reflexivity | simpl; intuition lia ..].
  - rewrite P1 in I1.
    rewrite (length_eq _ 0.1) in I1 by (unfold lengthSq; simpl; lra).
    destruct (Rgt_dec 0.1 10) as [G | _]; [lra | assumption].
Qed.

(** C2.  The program at the input on which the claim fails.  After the
    frame that follows [two_shots], the first projectile is alive and
    1.9 away from the letter, inside the detection radius, yet the
    intensity uniform of the letter's material holds the baseline
    0.401: the verdict on the second projectile, 2.1 away, was written
    over the verdict on the first. *)
Theorem C2_near_projectile_not_highlighted :
  let w := run (two_shots ++ [Frame]) init in
  letterN w = Some {| position := 9%nat |} /\
  In shot1 (iterated w) /\
  Vector3.distanceTo (heap w (position (mesh shot1))) (heap w 9%nat) = 1.9 /\
  1.9 < DETECTION_RADIUS /\
  ambientIntensity (alphabetMaterial w) = 0.401.
Proof.
  intro w. subst w. rewrite run_app.
  change (run [Frame] (run two_shots init)) with (animate (run two_shots init)).
  destruct two_shots_frame as (P1 & P2 & PN & PD & I1).
  set (w := run two_shots init) in *.
  assert (HN : letterN w = Some {| position := 9%nat |}) by reflexivity.
  assert (HD : number1 w = Some {| position := 10%nat |}) by reflexivity.
  assert (HI : iterated w = [shot1] ++ [shot2]) by reflexivity.
  clearbody w.
  split; [| split; [| split; [| split]]].
  - now rewrite (refs_letterN _ _ (animate_refs w)).
  - apply iterated_In. now split.
  - change (position (mesh shot1)) with 13%nat. rewrite P1, PN.
    apply distanceTo_eq; [lra |].
    unfold Vector3.distanceToSquared. simpl. lra.
  - unfold DETECTION_RADIUS. lra.
  - destruct (animate_last w _ _ _ _ HN HD HI) as [Ea _].
    rewrite Ea.
    change (position (mesh shot2)) with 16%nat.
    change (position {| position := 9%nat |}) with 9%nat.
    rewrite P2, PN.
    rewrite (distanceTo_eq _ _ 2.1)
      by (try lra; unfold Vector3.distanceToSquared; simpl; lra).
    unfold DETECTION_RADIUS. destruct (Rlt_dec 2.1 2); [lra | reflexivity].
Qed.

(** C5 on the pass that follows [two_shots]: the verdict is the one on
    the second projectile. *)
Lemma C5_last_projectile_decides_witness :
  let w := run two_shots init in
  ambientIntensity (alphabetMaterial (updateProjectiles w)) =
    (if Rlt_dec (Vector3.distanceTo
                   (heap (updateProjectiles w) (position (mesh shot2)))
                   (heap (updateProjectiles w) 9%nat))
                DETECTION_RADIUS
     then 0.8 else 0.401) /\
  ambientIntensity (digitMaterial (updateProjectiles w)) =
    (if Rlt_dec (Vector3.distanceTo
                   (heap (updateProjectiles w) (position (mesh shot2)))
                   (heap (updateProjectiles w) 10%nat))
                DETECTION_RADIUS
     then 0.8 else 0.401).
Proof.
  exact (C5_last_projectile_decides (run two_shots init)
           {| position := 9%nat |} {| position := 10%nat |}
           [shot1] shot2 eq_refl eq_refl eq_refl).
Defined.

(** ** Entries killed by a pass *)

Lemma updateProjectiles_far (w : World) (q : Projectile) :
  wf w -> In q (projectiles (updateProjectiles w)) ->
  Vector3.length (heap (updateProjectiles w) (position (mesh q))) > 10 ->
  alive q = false /\ ~ In (mesh q) (scene (updateProjectiles w)).
Proof.
  intros Hwf. rewrite updateProjectiles_eq.
  change (heap (with_projectiles ?a ?b)) with (heap a).
  change (scene (with_projectiles ?a ?b)) with (scene a).
  change (projectiles (with_projectiles ?a ?b)) with b.
  apply forEach_tick_far; [now apply wf_iterated_NoDup | apply Hwf].
Qed.

Lemma animate_far (w : World) (q : Projectile) :
  wf w -> In q (projectiles (animate w)) ->
  Vector3.length (heap (animate w) (position (mesh q))) > 10 ->
  alive q = false /\ ~ In (mesh q) (scene (animate w)).
Proof.
  intro Hwf. rewrite animate_eq.
  apply updateProjectiles_far. now apply wf_before_pass.
Qed.

(** What the key handler can do to the array and to the allocator. *)
Lemma keydown_projectiles (key : string) (r1 r2 r3 : R) (w : World) :
  (projectiles (keydown key r1 r2 r3 w) = projectiles w /\
   next (keydown key r1 r2 r3 w) = next w) \/
  (projectiles (keydown key r1 r2 r3 w) = projectiles w ++ [spawned w] /\
   next (keydown key r1 r2 r3 w) = S (S (S (next w)))).
Proof.
  unfold keydown.
  repeat match goal with
    | |- context [String.eqb ?a ?b] => destruct (String.eqb a b)
    end; auto.
Qed.

Lemma step_next (w : World) (e : Event) : (next w <= next (step w e))%nat.
Proof.
  destruct e; unfold step.
  - rewrite animate_next. lia.
  - destruct (keydown_projectiles key r1 r2 r3 w) as [[_ ->] | [_ ->]]; lia.
  - rewrite font_loaded_next. lia.
Qed.

Lemma stays_dead_step (m : Object3D) (w : World) (e : Event) :
  stays_dead m w -> stays_dead m (step w e).
Proof.
  intros (Hwf & Hb & Hdead). split; [now apply wf_step |].
  split; [pose proof (step_next w e); lia |].
  destruct e; unfold step.
  - intros q Hq Hm. exfalso.
    assert (Hin : In m (map mesh (projectiles (animate w)))).
    { rewrite <- Hm. now apply in_map. }
    rewrite animate_mesh in Hin. apply in_map_iff in Hin as (q0 & Hm0 & Hq0).
    apply iterated_In in Hq0 as [Hq0 Ha].
    rewrite (Hdead q0 Hq0 Hm0) in Ha. discriminate.
  - destruct (keydown_projectiles key r1 r2 r3 w) as [[-> _] | [-> _]];
      [assumption |].
    intros q Hq Hm. apply in_app_or in Hq as [Hq | [<- | []]];
      [now apply Hdead |].
    exfalso. subst m. simpl in Hb. lia.
  - rewrite font_loaded_projectiles. assumption.
Qed.

Lemma stays_dead_run (m : Object3D) (es : list Event) (w : World) :
  stays_dead m w -> stays_dead m (run es w).
Proof.
  revert w. induction es as [| e es IH]; intros w H; [assumption |].
  simpl. apply IH. now apply stays_dead_step.
Qed.

Lemma stays_dead_absent (m : Object3D) (w : World) :
  stays_dead m w -> ~ In m (map mesh (iterated w)).
Proof.
  intros (_ & _ & Hdead) Hin. apply in_map_iff in Hin as (q & Hm & Hq).
  apply iterated_In in Hq as [Hq Ha]. rewrite (Hdead q Hq Hm) in Ha.
  discriminate.
Qed.

(** C4.  In a well-formed world, a projectile that a frame leaves
    farther than 10 from the origin has had its liveness flag cleared
    and its mesh removed from the scene in that frame, and whatever
    happens next, no later pass iterates an entry with that mesh. *)
Theorem C4_far_projectile_destroyed (w : World) (p : Projectile)
  (es : list Event) :
  wf w ->
  In p (projectiles (animate w)) ->
  Vector3.length (heap (animate w) (position (mesh p))) > 10 ->
  alive p = false /\
  ~ In (mesh p) (scene (animate w)) /\
  ~ In (mesh p) (map mesh (iterated (run es (animate w)))).
Proof.
  intros Hwf Hp Hfar.
  destruct (animate_far w p Hwf Hp Hfar) as [Ha Hs].
  split; [assumption |]. split; [assumption |].
  apply stays_dead_absent, stays_dead_run.
  pose proof (wf_animate w Hwf) as Hwf'.
  split; [assumption |]. split.
  - now apply (wf_projectile (animate w) p Hwf' Hp).
  - intros q Hq Hm. apply (animate_far w q Hwf Hq). now rewrite Hm.
Qed.

(** C3 (amended).  The array is filtered when a pass begins, not when
    it ends: the entries a pass iterates all have their flag set; each
    of them is still an entry of the array when the pass is over, dead
    or not; and the entries the next pass iterates are exactly the
    entries left with their flag set. *)
Theorem C3_filtered_at_pass_start (w : World) :
  Forall (fun p => alive p = true) (iterated w) /\
  map mesh (projectiles (updateProjectiles w)) = map mesh (iterated w) /\
  (forall p, In p (projectiles (updateProjectiles w)) ->
             (In p (iterated (updateProjectiles w)) <-> alive p = true)).
Proof.
  split; [| split].
  - apply Forall_forall. intros p Hp. now apply iterated_In in Hp.
  - apply updateProjectiles_mesh.
  - intros p Hp. rewrite iterated_In. tauto.
Qed.

(** ** A projectile's first frame *)

Lemma wf_cubeMesh (w : World) : wf w -> (position (cubeMesh w) < next w)%nat.
Proof.
  intros [_ H _ _]. unfold vectors, static_locs, fixed_locs in H.
  rewrite !Forall_app in H. destruct H as [(_ & _ & H) _].
  inversion H as [| ? ? _ H1]; subst. now inversion H1.
Qed.

Lemma spawned_iterated (r1 r2 r3 : R) (w : World) :
  In (spawned w) (iterated (spawn r1 r2 r3 w)).
Proof.
  apply iterated_In. split; [| reflexivity].
  rewrite spawn_projectiles. apply in_or_app. right. now left.
Qed.

Lemma spawn_then_frame (r1 r2 r3 : R) (w : World) :
  wf w ->
  let raw := Vector3.mk (r1 - 0.5) (r2 - 0.5) (r3 - 0.5) in
  let w1 := animate (spawn r1 r2 r3 w) in
  heap w1 (direction (spawned w)) =
    Vector3.multiplyScalar (Vector3.normalize raw) PROJECTILE_SPEED /\
  heap w1 (position (mesh (spawned w))) =
    Vector3.add (heap w (position (cubeMesh w)))
      (Vector3.multiplyScalar (Vector3.normalize raw) PROJECTILE_SPEED) /\
  In (if Rgt_dec (Vector3.length (heap w1 (position (mesh (spawned w))))) 10
      then with_alive (spawned w) false else spawned w)
     (projectiles w1).
Proof.
  intros Hwf raw w1.
  destruct (animate_elem (spawn r1 r2 r3 w) (spawned w)
              (wf_spawn r1 r2 r3 w Hwf) (spawned_iterated r1 r2 r3 w))
    as (E1 & E2 & E3).
  rewrite spawn_heap_direction in E1, E2.
  rewrite spawn_heap_position in E2 by now apply wf_cubeMesh.
  auto.
Qed.

(** ** A projectile spawned out of range *)

Lemma run_w_presses (n : nat) (w : World) :
  cubeMesh (run (repeat (KeyDown "w" 0 0 0) n) w) = cubeMesh w /\
  heap (run (repeat (KeyDown "w" 0 0 0) n) w) (position (cubeMesh w)) =
  Vector3.mk (Vector3.x (heap w (position (cubeMesh w))))
             (Vector3.y (heap w (position (cubeMesh w))) + INR n * 0.1)
             (Vector3.z (heap w (position (cubeMesh w)))).
Proof.
  revert w. induction n as [| n IH]; intro w.
  - split; [reflexivity |]. apply Vector3_eq; simpl; lra.
  - change (run (repeat (KeyDown "w" 0 0 0) (S n)) w)
      with (run (repeat (KeyDown "w" 0 0 0) n)
              (add_y (position (cubeMesh w)) 0.1 w)).
    destruct (IH (add_y (position (cubeMesh w)) 0.1 w)) as [Ec Eh].
    change (cubeMesh (add_y (position (cubeMesh w)) 0.1 w))
      with (cubeMesh w) in Ec, Eh.
    split; [assumption |]. rewrite Eh.
    unfold add_y, write. simpl heap. rewrite store_eq.
    rewrite S_INR. apply Vector3_eq; simpl; lra.
Qed.

Lemma out_of_range_frame :
  let w := run out_of_range init in
  wf w /\
  In (with_alive stray false) (projectiles (animate w)) /\
  Vector3.length (heap (animate w) 11%nat) = 10.1.
Proof.
  intro w. split; [apply wf_run, wf_init |].
  subst w. unfold out_of_range. rewrite run_app.
  change (run [KeyDown " " 0.5 0.75 0.5] (run hundred_up init))
    with (spawn 0.5 0.75 0.5 (run hundred_up init)).
  assert (Hwf : wf (run hundred_up init)) by apply wf_run, wf_init.
  destruct (run_w_presses 100 init) as [Ec Eh].
  fold hundred_up in Ec, Eh.
  assert (Es : spawned (run hundred_up init) = stray) by reflexivity.
  destruct (spawn_then_frame 0.5 0.75 0.5 _ Hwf) as (_ & E & I).
  change (heap init (position (cubeMesh init))) with Vector3.zero in Eh.
  rewrite Ec, Eh in E. rewrite Es in E, I.
  change (position (mesh stray)) with 11%nat in *.
  set (w := run hundred_up init) in *. clearbody w.
  rewrite (normalize_eq _ 0.25) in E by (unfold lengthSq; simpl; lra).
  assert (L : Vector3.length (heap (animate (spawn 0.5 0.75 0.5 w)) 11%nat)
              = 10.1).
  { rewrite E. apply length_eq; [lra |].
    rewrite INR_IZR_INZ.
    unfold lengthSq, PROJECTILE_SPEED. simpl. lra. }
  rewrite L in I. destruct (Rgt_dec 10.1 10) as [_ | G]; [| lra].
  auto.
Qed.

Lemma run_frame (es : list Event) (w : World) :
  run (es ++ [Frame]) w = animate (run es w).
Proof. now rewrite run_app. Qed.

(** C3 as stated fails after the frame that follows [out_of_range]: the
    array then holds an entry whose flag is cleared. *)
Lemma C3_counterexample :
  ~ (forall p, In p (projectiles (run (out_of_range ++ [Frame]) init)) ->
               alive p = true).
Proof.
  intro H. rewrite run_frame in H.
  destruct out_of_range_frame as (_ & I & _).
  specialize (H _ I). discriminate H.
Qed.

(** C4 on the frame that follows [out_of_range] and the frame after
    it. *)
Lemma C4_far_projectile_destroyed_witness :
  let w := run out_of_range init in
  let p := with_alive stray false in
  alive p = false /\
  ~ In (mesh p) (scene (animate w)) /\
  ~ In (mesh p) (map mesh (iterated (run [Frame] (animate w)))).
Proof.
  intros w p.
  destruct out_of_range_frame as (Hwf & I & L).
  apply (C4_far_projectile_destroyed w p [Frame] Hwf I).
  subst w p. change (position (mesh (with_alive stray false))) with 11%nat.
  rewrite L. lra.
Defined.

(** ** Before the font has loaded *)

Lemma Projectile_update_guard (p : Projectile) (w : World) :
  letterN (snd (Projectile_update p w)) = letterN w /\
  number1 (snd (Projectile_update p w)) = number1 w.
Proof. unfold_ops. destruct (Rgt_dec _ 10); auto. Qed.

Lemma forEach_tick_unguarded (ps : list Projectile) (w : World) :
  letterN w = None \/ number1 w = None ->
  forEach tick ps w = forEach Projectile_update ps w.
Proof.
  revert w. induction ps as [| p ps IH]; intros w H; [reflexivity |].
  rewrite !forEach_cons, (tick_unguarded p w H).
  destruct (Projectile_update_guard p w) as [En Ed].
  rewrite IH; [reflexivity |]. rewrite En, Ed. exact H.
Qed.

Lemma forEach_update_ambient (ps : list Projectile) (w : World) :
  ambientIntensity (alphabetMaterial (snd (forEach Projectile_update ps w))) =
    ambientIntensity (alphabetMaterial w) /\
  ambientIntensity (digitMaterial (snd (forEach Projectile_update ps w))) =
    ambientIntensity (digitMaterial w).
Proof.
  revert w. induction ps as [| p ps IH]; intro w; [auto |].
  rewrite forEach_cons. simpl snd.
  destruct (IH (snd (Projectile_update p w))) as [-> ->].
  apply Projectile_update_ambient.
Qed.

Lemma updateProjectiles_unguarded (w : World) :
  letterN w = None \/ number1 w = None ->
  updateProjectiles w = advance_and_prune w.
Proof.
  intro H. unfold updateProjectiles, advance_and_prune.
  now rewrite forEach_tick_unguarded.
Qed.

Lemma advance_and_prune_ambient (w : World) :
  ambientIntensity (alphabetMaterial (advance_and_prune w)) =
    ambientIntensity (alphabetMaterial w) /\
  ambientIntensity (digitMaterial (advance_and_prune w)) =
    ambientIntensity (digitMaterial w).
Proof.
  unfold advance_and_prune.
  pose proof (forEach_update_ambient
                (projectiles (with_projectiles w (iterated w)))
                (with_projectiles w (iterated w))) as H.
  destruct (forEach Projectile_update _ _) as [ps w1]. exact H.
Qed.

Lemma keydown_refs (key : string) (r1 r2 r3 : R) (w : World) :
  refs (keydown key r1 r2 r3 w) = refs w.
Proof.
  unfold keydown.
  repeat match goal with
    | |- context [String.eqb ?a ?b] => destruct (String.eqb a b)
    end; reflexivity.
Qed.

Lemma keydown_ambient (key : string) (r1 r2 r3 : R) (w : World) :
  ambientIntensity (alphabetMaterial (keydown key r1 r2 r3 w)) =
    ambientIntensity (alphabetMaterial w) /\
  ambientIntensity (digitMaterial (keydown key r1 r2 r3 w)) =
    ambientIntensity (digitMaterial w).
Proof.
  unfold keydown.
  repeat match goal with
    | |- context [String.eqb ?a ?b] => destruct (String.eqb a b)
    end; auto.
Qed.

(** ** A pass as a map over the array *)

Lemma forEach_tick_map (ps : list Projectile) (w : World) :
  NoDup (flat_map projectile_locs ps) ->
  fst (forEach tick ps w) = map (settle (heap (snd (forEach tick ps w)))) ps.
Proof.
  revert w. induction ps as [| p ps IH]; intros w Hnd; [reflexivity |].
  rewrite forEach_cons. simpl fst. simpl snd.
  simpl in Hnd. inversion Hnd as [| ? ? Hpos Hnd1]; subst.
  inversion Hnd1 as [| ? ? Hdir Hnd2]; subst.
  simpl map. f_equal.
  - rewrite tick_fst. unfold settle.
    rewrite (forEach_tick_heap_other ps (snd (tick p w)))
      by (intro Hin; apply Hpos; now right).
    reflexivity.
  - now apply IH.
Qed.

Lemma animate_map (w : World) :
  wf w ->
  projectiles (animate w) = map (settle (heap (animate w))) (iterated w).
Proof.
  intro Hwf. rewrite animate_eq, updateProjectiles_eq.
  change (heap (with_projectiles ?a ?b)) with (heap a).
  change (projectiles (with_projectiles ?a ?b)) with b.
  rewrite before_pass_iterated.
  apply forEach_tick_map. now apply wf_iterated_NoDup.
Qed.

(** ** The guard of the proximity check *)

(** The guard makes both reads succeed: the check never throws. *)
Lemma proximity_checked_eq (p : Projectile) (w : World) :
  proximity_checked p w = Some (proximity p w).
Proof.
  unfold proximity_checked, proximity.
  destruct (letterN w) as [n |], (number1 w) as [d |]; reflexivity.
Qed.

Lemma tick_checked_eq (p : Projectile) (w : World) :
  tick_checked p w = Some (tick p w).
Proof.
  unfold tick_checked, tick.
  destruct (Projectile_update p w) as [p' w1].
  now rewrite proximity_checked_eq.
Qed.

Lemma forEach_checked_eq (ps : list Projectile) (w : World) :
  forEach_checked tick_checked ps w = Some (forEach tick ps w).
Proof.
  revert w. induction ps as [| p ps IH]; intro w; [reflexivity |].
  cbn [forEach_checked forEach]. rewrite tick_checked_eq.
  destruct (tick p w) as [p' w1]. rewrite IH.
  now destruct (forEach tick ps w1).
Qed.

Lemma updateProjectiles_checked_eq (w : World) :
  updateProjectiles_checked w = Some (updateProjectiles w).
Proof.
  unfold updateProjectiles_checked, updateProjectiles.
  rewrite forEach_checked_eq.
  now destruct (forEach tick _ _).
Qed.

Lemma animate_checked_eq (w : World) :
  animate_checked w = Some (animate w).
Proof.
  unfold animate_checked, animate. apply updateProjectiles_checked_eq.
Qed.

Lemma font_pending_animate (w : World) :
  font_pending w -> font_pending (animate w).
Proof.
  intros (Hn & Hd & Ha & Hg).
  pose proof (animate_refs w) as Hr.
  rewrite animate_eq, updateProjectiles_unguarded in * by now left.
  destruct (advance_and_prune_ambient (before_pass w)) as [Ea Eg].
  unfold font_pending.
  rewrite (refs_letterN _ _ Hr), (refs_number1 _ _ Hr), Ea, Eg.
  exact (conj Hn (conj Hd (conj Ha Hg))).
Qed.

Lemma font_pending_keydown (key : string) (r1 r2 r3 : R) (w : World) :
  font_pending w -> font_pending (keydown key r1 r2 r3 w).
Proof.
  intros (Hn & Hd & Ha & Hg).
  pose proof (keydown_refs key r1 r2 r3 w) as Hr.
  destruct (keydown_ambient key r1 r2 r3 w) as [Ea Eg].
  unfold font_pending.
  rewrite (refs_letterN _ _ Hr), (refs_number1 _ _ Hr), Ea, Eg.
  exact (conj Hn (conj Hd (conj Ha Hg))).
Qed.

Lemma font_pending_step (w : World) (e : Event) :
  font_pending w -> e <> FontLoaded -> font_pending (step w e).
Proof.
  intros Hw He. destruct e; unfold step; [| | contradiction].
  - now apply font_pending_animate.
  - now apply font_pending_keydown.
Qed.

Lemma font_pending_init : font_pending init.
Proof.
  unfold font_pending.
  exact (conj eq_refl (conj eq_refl (conj eq_refl eq_refl))).
Qed.

Lemma font_pending_run (es : list Event) (w : World) :
  font_pending w -> ~ In FontLoaded es -> font_pending (run es w).
Proof.
  revert w. induction es as [| e es IH]; intros w H Hes; [assumption |].
  simpl. apply IH.
  - apply font_pending_step; [assumption |]. intros ->. apply Hes. now left.
  - intro Hin. apply Hes. now right.
Qed.

(** C8.  As long as the loader callback has not run, however many
    frames and key presses there were: both text meshes are undefined
    and both intensity uniforms hold their initial 0.401.  The next
    frame does not throw, because the guard keeps the pass from reading
    the position of an undefined mesh; its pass is the pass without the
    proximity check, and it leaves both uniforms at 0.401.  The other
    updates of the pass take place: the array after the frame holds
    the live entries of the array before it and no dead one, in order;
    every live entry has had its direction scaled by the speed and
    added to its position; and an entry that ends farther than 10 from
    the origin has its flag cleared and its mesh removed from the
    scene. *)
Theorem C8_no_highlight_before_font (es : list Event) :
  ~ In FontLoaded es ->
  let w := run es init in
  letterN w = None /\ number1 w = None /\
  ambientIntensity (alphabetMaterial w) = 0.401 /\
  ambientIntensity (digitMaterial w) = 0.401 /\
  updateProjectiles w = advance_and_prune w /\
  ambientIntensity (alphabetMaterial (animate w)) = 0.401 /\
  ambientIntensity (digitMaterial (animate w)) = 0.401 /\
  animate_checked w = Some (animate w) /\
  projectiles (animate w) =
    map (settle (heap (animate w))) (filter alive (projectiles w)) /\
  (forall q, In q (projectiles w) -> alive q = true ->
     heap (animate w) (direction q) =
       Vector3.multiplyScalar (heap w (direction q)) PROJECTILE_SPEED /\
     heap (animate w) (position (mesh q)) =
       Vector3.add (heap w (position (mesh q)))
         (Vector3.multiplyScalar (heap w (direction q)) PROJECTILE_SPEED) /\
     (Vector3.length (heap (animate w) (position (mesh q))) > 10 ->
      In (with_alive q false) (projectiles (animate w)) /\
      ~ In (mesh q) (scene (animate w)))).
Proof.
  intros Hes w.
  pose proof (font_pending_run es init font_pending_init Hes) as Hw.
  pose proof (wf_run es init wf_init) as Hwf.
  fold w in Hw, Hwf. clearbody w.
  pose proof (font_pending_animate w Hw) as Hf.
  destruct Hw as (Hn & Hd & Ha & Hg).
  destruct Hf as (_ & _ & Ha' & Hg').
  pose proof (updateProjectiles_unguarded w (or_introl Hn)) as Hu.
  split; [exact Hn |]. split; [exact Hd |].
  split; [exact Ha |]. split; [exact Hg |]. split; [exact Hu |].
  split; [exact Ha' |]. split; [exact Hg' |].
  split; [apply animate_checked_eq |].
  split; [exact (animate_map w Hwf) |].
  intros q Hq Hlive.
  assert (Hit : In q (iterated w)) by (apply iterated_In; now split).
  destruct (animate_elem w q Hwf Hit) as (Ed & Ep & Hin).
  split; [exact Ed |]. split; [exact Ep |].
  intro Hfar.
  destruct (Rgt_dec (Vector3.length (heap (animate w) (position (mesh q)))) 10)
    as [_ | N]; [| contradiction].
  split; [exact Hin |].
  exact (proj2 (animate_far w (with_alive q false) Hwf Hin Hfar)).
Qed.

(** C8 on a run with a spawn, a move of the cube and two frames. *)
Lemma C8_no_highlight_before_font_witness :
  let w := run [KeyDown " " 0 0.5 0.5; Frame; KeyDown "w" 0 0 0; Frame] init in
  letterN w = None /\ number1 w = None /\
  ambientIntensity (alphabetMaterial w) = 0.401 /\
  ambientIntensity (digitMaterial w) = 0.401 /\
  updateProjectiles w = advance_and_prune w /\
  ambientIntensity (alphabetMaterial (animate w)) = 0.401 /\
  ambientIntensity (digitMaterial (animate w)) = 0.401 /\
  animate_checked w = Some (animate w) /\
  projectiles (animate w) =
    map (settle (heap (animate w))) (filter alive (projectiles w)) /\
  (forall q, In q (projectiles w) -> alive q = true ->
     heap (animate w) (direction q) =
       Vector3.multiplyScalar (heap w (direction q)) PROJECTILE_SPEED /\
     heap (animate w) (position (mesh q)) =
       Vector3.add (heap w (position (mesh q)))
         (Vector3.multiplyScalar (heap w (direction q)) PROJECTILE_SPEED) /\
     (Vector3.length (heap (animate w) (position (mesh q))) > 10 ->
      In (with_alive q false) (projectiles (animate w)) /\
      ~ In (mesh q) (scene (animate w)))).
Proof.
  apply (C8_no_highlight_before_font
           [KeyDown " " 0 0.5 0.5; Frame; KeyDown "w" 0 0 0; Frame]).
  simpl. intuition discriminate.
Defined.

(** ** The key handler *)

Lemma wf_camera_cube (w : World) :
  wf w -> position (camera w) <> position (cubeMesh w).
Proof.
  intros [H _ _ _]. unfold vectors, static_locs in H.
  rewrite <- !app_assoc in H.
  apply NoDup_app_remove_l in H. apply NoDup_app_remove_l in H.
  unfold fixed_locs in H. simpl in H.
  inversion H as [| ? ? Hn _]; subst. intro E. apply Hn. now left.
Qed.

Lemma static_locs_cube (w : World) :
  In (position (cubeMesh w)) (static_locs w).
Proof.
  unfold static_locs, fixed_locs.
  apply in_or_app. right. apply in_or_app. right. simpl. auto.
Qed.

Lemma static_locs_camera (w : World) :
  In (position (camera w)) (static_locs w).
Proof.
  unfold static_locs, fixed_locs.
  apply in_or_app. right. apply in_or_app. right. simpl. auto.
Qed.

(** A key press writes to the cube's position, to the camera's
    position, or to vectors it has just allocated. *)
Lemma keydown_heap_other (key : string) (r1 r2 r3 : R) (w : World) (l : loc) :
  l <> position (cubeMesh w) -> l <> position (camera w) ->
  (l < next w)%nat ->
  heap (keydown key r1 r2 r3 w) l = heap w l.
Proof.
  intros Hc Hm Hb. unfold keydown.
  repeat match goal with
    | |- context [String.eqb ?a ?b] => destruct (String.eqb a b)
    end;
    try (unfold add_x, add_y, add_z, write; simpl; now rewrite store_neq).
  - now apply spawn_heap_old.
  - reflexivity.
Qed.

Lemma keydown_projectiles_incl (key : string) (r1 r2 r3 : R) (w : World)
  (q : Projectile) :
  In q (projectiles w) -> In q (projectiles (keydown key r1 r2 r3 w)).
Proof.
  intro H.
  destruct (keydown_projectiles key r1 r2 r3 w) as [[-> _] | [-> _]];
    [assumption | apply in_or_app; now left].
Qed.

(** Key presses leave the vectors of every projectile as they are. *)
Lemma keys_projectile_heap (ks : list Event) (w : World) (q : Projectile) :
  wf w -> Forall is_key ks -> In q (projectiles w) ->
  heap (run ks w) (position (mesh q)) = heap w (position (mesh q)) /\
  heap (run ks w) (direction q) = heap w (direction q).
Proof.
  revert w. induction ks as [| k ks IH]; intros w Hwf Hks Hq; [auto |].
  inversion Hks as [| ? ? Hk Hks']; subst.
  destruct k as [| key r1 r2 r3 |]; try contradiction.
  change (run (KeyDown key r1 r2 r3 :: ks) w)
    with (run ks (keydown key r1 r2 r3 w)).
  destruct (IH (keydown key r1 r2 r3 w)) as [-> ->];
    [now apply wf_keydown | assumption
    | now apply keydown_projectiles_incl |].
  destruct (wf_projectile w q Hwf Hq) as (_ & Hbp & Hbd & Hsp & Hsd).
  split; apply keydown_heap_other; try assumption; intro E.
  - apply Hsp. rewrite E. apply static_locs_cube.
  - apply Hsp. rewrite E. apply static_locs_camera.
  - apply Hsd. rewrite E. apply static_locs_cube.
  - apply Hsd. rewrite E. apply static_locs_camera.
Qed.

Lemma refs_cube_camera (w w' : World) :
  refs w' = refs w -> cubeMesh w' = cubeMesh w /\ camera w' = camera w.
Proof.
  unfold refs. intro H. injection H as Ecam Ecube _ _ _ _ _. now split.
Qed.

(** Key presses leave every vector as it is, except the positions of
    the cube and of the camera and the vectors they allocate. *)
Lemma keys_heap_other (ks : list Event) (w : World) (l : loc) :
  Forall is_key ks ->
  l <> position (cubeMesh w) -> l <> position (camera w) ->
  (l < next w)%nat ->
  heap (run ks w) l = heap w l.
Proof.
  revert w. induction ks as [| k ks IH]; intros w Hks Hc Hm Hb; [reflexivity |].
  inversion Hks as [| ? ? Hk Hks']; subst.
  destruct k as [| key r1 r2 r3 |]; try contradiction.
  change (run (KeyDown key r1 r2 r3 :: ks) w)
    with (run ks (keydown key r1 r2 r3 w)).
  destruct (refs_cube_camera _ _ (keydown_refs key r1 r2 r3 w))
    as [Ecube Ecam].
  rewrite IH.
  - now apply keydown_heap_other.
  - assumption.
  - now rewrite Ecube.
  - now rewrite Ecam.
  - pose proof (step_next w (KeyDown key r1 r2 r3)) as Hn.
    unfold step in Hn. lia.
Qed.

(** No callback rebinds the cube or the camera. *)
Lemma step_cube_camera (w : World) (e : Event) :
  cubeMesh (step w e) = cubeMesh w /\ camera (step w e) = camera w.
Proof.
  destruct e as [| key r1 r2 r3 |]; unfold step.
  - exact (refs_cube_camera _ _ (animate_refs w)).
  - exact (refs_cube_camera _ _ (keydown_refs key r1 r2 r3 w)).
  - split; reflexivity.
Qed.

Lemma run_cube_camera (es : list Event) (w : World) :
  cubeMesh (run es w) = cubeMesh w /\ camera (run es w) = camera w.
Proof.
  revert w. induction es as [| e es IH]; intro w; [now split |].
  change (run (e :: es) w) with (run es (step w e)).
  destruct (IH (step w e)) as [-> ->]. apply step_cube_camera.
Qed.

Lemma run_next (es : list Event) (w : World) :
  (next w <= next (run es w))%nat.
Proof.
  revert w. induction es as [| e es IH]; intro w; [simpl; lia |].
  change (run (e :: es) w) with (run es (step w e)).
  pose proof (IH (step w e)). pose proof (step_next w e). lia.
Qed.

Lemma wf_camera (w : World) : wf w -> (position (camera w) < next w)%nat.
Proof.
  intros [_ H _ _]. rewrite Forall_forall in H. apply H.
  unfold vectors. apply in_or_app. left. apply static_locs_camera.
Qed.

(** C10.  A press of the space bar gives the new projectile vectors of
    its own: its position holds the components of the cube's position
    but is another vector; the press changes no vector that existed,
    rebinds no reference, and leaves both intensity uniforms, the time
    and the rotation as they were, so only the projectile array and the
    children of the scene differ.  At every later moment, whatever
    frames, key presses and loading of the font came in between, the
    position of the new projectile is a vector other than the cube's
    and the camera's positions, and key presses, whichever they are,
    change neither the position nor the direction of the new
    projectile nor of any projectile of the array. *)
Theorem C10_spawn_copies_position (w : World) (r1 r2 r3 : R)
  (es ks : list Event) :
  wf w -> Forall is_key ks ->
  let w0 := keydown " " r1 r2 r3 w in
  let w1 := run es w0 in
  projectiles w0 = projectiles w ++ [spawned w] /\
  scene w0 = scene w ++ [mesh (spawned w)] /\
  heap w0 (position (mesh (spawned w))) = heap w (position (cubeMesh w)) /\
  position (mesh (spawned w)) <> position (cubeMesh w) /\
  (forall l, (l < next w)%nat -> heap w0 l = heap w l) /\
  refs w0 = refs w /\
  ambientIntensity (alphabetMaterial w0) = ambientIntensity (alphabetMaterial w) /\
  ambientIntensity (digitMaterial w0) = ambientIntensity (digitMaterial w) /\
  time w0 = time w /\
  cube_rotation_x w0 = cube_rotation_x w /\
  cube_rotation_y w0 = cube_rotation_y w /\
  position (mesh (spawned w)) <> position (cubeMesh w1) /\
  position (mesh (spawned w)) <> position (camera w1) /\
  heap (run ks w1) (position (mesh (spawned w))) =
    heap w1 (position (mesh (spawned w))) /\
  heap (run ks w1) (direction (spawned w)) = heap w1 (direction (spawned w)) /\
  (forall q, In q (projectiles w1) ->
     heap (run ks w1) (position (mesh q)) = heap w1 (position (mesh q)) /\
     heap (run ks w1) (direction q) = heap w1 (direction q)).
Proof.
  intros Hwf Hks w0 w1.
  assert (E0 : w0 = spawn r1 r2 r3 w) by reflexivity.
  pose proof (wf_cubeMesh w Hwf) as Hc.
  pose proof (wf_camera w Hwf) as Hm.
  pose proof (wf_spawn r1 r2 r3 w Hwf) as Hwf0. rewrite <- E0 in Hwf0.
  assert (Hn0 : next w0 = S (S (S (next w))))
    by (rewrite E0; apply spawn_next).
  assert (Ecube0 : cubeMesh w0 = cubeMesh w) by (rewrite E0; reflexivity).
  assert (Ecam0 : camera w0 = camera w) by (rewrite E0; reflexivity).
  pose proof (wf_run es w0 Hwf0) as Hwf1.
  pose proof (run_next es w0) as Hn1.
  destruct (run_cube_camera es w0) as [Ecube1 Ecam1].
  fold w1 in Hwf1, Hn1, Ecube1, Ecam1.
  rewrite Ecube0 in Ecube1. rewrite Ecam0 in Ecam1.
  split; [rewrite E0; reflexivity |]. split; [rewrite E0; reflexivity |].
  split; [rewrite E0; now apply spawn_heap_position |].
  split; [simpl; lia |].
  split; [intros l Hl; rewrite E0; now apply spawn_heap_old |].
  split; [rewrite E0; reflexivity |].
  split; [rewrite E0; reflexivity |]. split; [rewrite E0; reflexivity |].
  split; [rewrite E0; reflexivity |]. split; [rewrite E0; reflexivity |].
  split; [rewrite E0; reflexivity |].
  clearbody w1. clearbody w0.
  assert (P1 : position (mesh (spawned w)) <> position (cubeMesh w1))
    by (rewrite Ecube1; simpl; lia).
  assert (P2 : position (mesh (spawned w)) <> position (camera w1))
    by (rewrite Ecam1; simpl; lia).
  assert (D1 : direction (spawned w) <> position (cubeMesh w1))
    by (rewrite Ecube1; simpl; lia).
  assert (D2 : direction (spawned w) <> position (camera w1))
    by (rewrite Ecam1; simpl; lia).
  split; [exact P1 |]. split; [exact P2 |].
  split; [apply keys_heap_other; try assumption; simpl; lia |].
  split; [apply keys_heap_other; try assumption; simpl; lia |].
  intros q Hq. now apply keys_projectile_heap.
Qed.

(** C10 on a second spawn, followed by two frames with a move of the
    cube between them, and then by moves of the cube and of the camera
    and by a third spawn. *)
Lemma C10_spawn_copies_position_witness :
  let w := run [KeyDown " " 0 0.5 0.5] init in
  let es := [Frame; KeyDown "w" 0 0 0; Frame] in
  let ks := [KeyDown "w" 0 0 0; KeyDown "a" 0 0 0; KeyDown " " 0.75 0.5 0.5;
             KeyDown "e" 0 0 0] in
  let w0 := keydown " " 0.5 0.75 0.5 w in
  let w1 := run es w0 in
  projectiles w0 = projectiles w ++ [spawned w] /\
  scene w0 = scene w ++ [mesh (spawned w)] /\
  heap w0 (position (mesh (spawned w))) = heap w (position (cubeMesh w)) /\
  position (mesh (spawned w)) <> position (cubeMesh w) /\
  (forall l, (l < next w)%nat -> heap w0 l = heap w l) /\
  refs w0 = refs w /\
  ambientIntensity (alphabetMaterial w0) = ambientIntensity (alphabetMaterial w) /\
  ambientIntensity (digitMaterial w0) = ambientIntensity (digitMaterial w) /\
  time w0 = time w /\
  cube_rotation_x w0 = cube_rotation_x w /\
  cube_rotation_y w0 = cube_rotation_y w /\
  position (mesh (spawned w)) <> position (cubeMesh w1) /\
  position (mesh (spawned w)) <> position (camera w1) /\
  heap (run ks w1) (position (mesh (spawned w))) =
    heap w1 (position (mesh (spawned w))) /\
  heap (run ks w1) (direction (spawned w)) = heap w1 (direction (spawned w)) /\
  (forall q, In q (projectiles w1) ->
     heap (run ks w1) (position (mesh q)) = heap w1 (position (mesh q)) /\
     heap (run ks w1) (direction q) = heap w1 (direction q)).
Proof.
  apply (C10_spawn_copies_position
           (run [KeyDown " " 0 0.5 0.5] init) 0.5 0.75 0.5
           [Frame; KeyDown "w" 0 0 0; Frame]
           [KeyDown "w" 0 0 0; KeyDown "a" 0 0 0; KeyDown " " 0.75 0.5 0.5;
            KeyDown "e" 0 0 0]).
  - apply wf_run, wf_init.
  - repeat constructor.
Defined.

Lemma translated_write (l : loc) (dx dy dz : R) (w : World) :
  translated l dx dy dz w
    (write l (Vector3.mk (Vector3.x (heap w l) + dx)
                         (Vector3.y (heap w l) + dy)
                         (Vector3.z (heap w l) + dz)) w).
Proof.
  split; [| split].
  - unfold write. simpl. apply store_eq.
  - intros l' H. unfold write. simpl. now apply store_neq.
  - now destruct w.
Qed.

Lemma add_x_translated (l : loc) (d : R) (w : World) :
  translated l d 0 0 w (add_x l d w).
Proof.
  unfold add_x.
  replace (Vector3.mk (Vector3.x (heap w l) + d) (Vector3.y (heap w l))
             (Vector3.z (heap w l)))
    with (Vector3.mk (Vector3.x (heap w l) + d) (Vector3.y (heap w l) + 0)
            (Vector3.z (heap w l) + 0))
    by (apply Vector3_eq; simpl; lra).
  apply translated_write.
Qed.

Lemma add_y_translated (l : loc) (d : R) (w : World) :
  translated l 0 d 0 w (add_y l d w).
Proof.
  unfold add_y.
  replace (Vector3.mk (Vector3.x (heap w l)) (Vector3.y (heap w l) + d)
             (Vector3.z (heap w l)))
    with (Vector3.mk (Vector3.x (heap w l) + 0) (Vector3.y (heap w l) + d)
            (Vector3.z (heap w l) + 0))
    by (apply Vector3_eq; simpl; lra).
  apply translated_write.
Qed.

Lemma add_z_translated (l : loc) (d : R) (w : World) :
  translated l 0 0 d w (add_z l d w).
Proof.
  unfold add_z.
  replace (Vector3.mk (Vector3.x (heap w l)) (Vector3.y (heap w l))
             (Vector3.z (heap w l) + d))
    with (Vector3.mk (Vector3.x (heap w l) + 0) (Vector3.y (heap w l) + 0)
            (Vector3.z (heap w l) + d))
    by (apply Vector3_eq; simpl; lra).
  apply translated_write.
Qed.

Lemma keydown_unmapped (key : string) (r1 r2 r3 : R) (w : World) :
  ~ In key mapped_keys -> keydown key r1 r2 r3 w = w.
Proof.
  intro H. unfold keydown.
  repeat match goal with
    | |- context [String.eqb ?a ?b] =>
        destruct (String.eqb_spec a b) as [E | _];
        [exfalso; apply H; rewrite E; simpl; tauto |]
    end.
  reflexivity.
Qed.

(** C7.  The key handler, case by case, with [cube] the position of
    the cube and [cam] the position of the camera: [w]/[s] move the
    cube by +0.1/-0.1 on Y, [a]/[d] move the camera by -0.1/+0.1 on X,
    [q]/[e] move the cube by -0.1/+0.1 on Z, each changing that one
    vector and nothing else; the space bar appends one live projectile
    whose position holds the cube's position and whose direction is
    the normalised vector of three draws shifted into [-0.5, 0.5], adds
    its mesh to the scene and changes no vector that existed; any
    other key changes nothing.  In particular one [w] adds exactly 0.1
    to the cube's Y and leaves the camera alone, and one [a] subtracts
    exactly 0.1 from the camera's X and leaves the cube alone. *)
Theorem C7_key_mappings (w : World) (r1 r2 r3 : R) :
  wf w -> 0 <= r1 < 1 -> 0 <= r2 < 1 -> 0 <= r3 < 1 ->
  let cube := position (cubeMesh w) in
  let cam := position (camera w) in
  translated cube 0 0.1 0 w (keydown "w" r1 r2 r3 w) /\
  translated cube 0 (- 0.1) 0 w (keydown "s" r1 r2 r3 w) /\
  translated cam (- 0.1) 0 0 w (keydown "a" r1 r2 r3 w) /\
  translated cam 0.1 0 0 w (keydown "d" r1 r2 r3 w) /\
  translated cube 0 0 (- 0.1) w (keydown "q" r1 r2 r3 w) /\
  translated cube 0 0 0.1 w (keydown "e" r1 r2 r3 w) /\
  (let w' := keydown " " r1 r2 r3 w in
   let raw := Vector3.mk (r1 - 0.5) (r2 - 0.5) (r3 - 0.5) in
   projectiles w' = projectiles w ++ [spawned w] /\
   alive (spawned w) = true /\
   scene w' = scene w ++ [mesh (spawned w)] /\
   heap w' (position (mesh (spawned w))) = heap w cube /\
   heap w' (direction (spawned w)) = Vector3.normalize raw /\
   (- 0.5 <= Vector3.x raw <= 0.5 /\ - 0.5 <= Vector3.y raw <= 0.5 /\
    - 0.5 <= Vector3.z raw <= 0.5) /\
   (forall l, (l < next w)%nat -> heap w' l = heap w l) /\
   refs w' = refs w /\
   ambientIntensity (alphabetMaterial w') =
     ambientIntensity (alphabetMaterial w) /\
   ambientIntensity (digitMaterial w') = ambientIntensity (digitMaterial w) /\
   time w' = time w /\ cube_rotation_x w' = cube_rotation_x w /\
   cube_rotation_y w' = cube_rotation_y w) /\
  (forall key, ~ In key mapped_keys -> keydown key r1 r2 r3 w = w) /\
  (Vector3.y (heap (keydown "w" r1 r2 r3 w) cube) = Vector3.y (heap w cube) + 0.1 /\
   heap (keydown "w" r1 r2 r3 w) cam = heap w cam) /\
  (Vector3.x (heap (keydown "a" r1 r2 r3 w) cam) = Vector3.x (heap w cam) - 0.1 /\
   heap (keydown "a" r1 r2 r3 w) cube = heap w cube).
Proof.
  intros Hwf H1 H2 H3 cube cam.
  pose proof (wf_camera_cube w Hwf) as Hne. fold cube cam in Hne.
  pose proof (wf_cubeMesh w Hwf) as Hc.
  change (keydown "w" r1 r2 r3 w) with (add_y cube 0.1 w).
  change (keydown "s" r1 r2 r3 w) with (add_y cube (- 0.1) w).
  change (keydown "a" r1 r2 r3 w) with (add_x cam (- 0.1) w).
  change (keydown "d" r1 r2 r3 w) with (add_x cam 0.1 w).
  change (keydown "q" r1 r2 r3 w) with (add_z cube (- 0.1) w).
  change (keydown "e" r1 r2 r3 w) with (add_z cube 0.1 w).
  change (keydown " " r1 r2 r3 w) with (spawn r1 r2 r3 w).
  split; [apply add_y_translated |]. split; [apply add_y_translated |].
  split; [apply add_x_translated |]. split; [apply add_x_translated |].
  split; [apply add_z_translated |]. split; [apply add_z_translated |].
  split; [| split; [| split]].
  - cbv zeta.
    split; [reflexivity |]. split; [reflexivity |]. split; [reflexivity |].
    split; [now apply spawn_heap_position |].
    split; [apply spawn_heap_direction |].
    split; [simpl; lra |].
    split; [intros l Hl; now apply spawn_heap_old |].
    split; [reflexivity |]. split; [reflexivity |]. split; [reflexivity |].
    split; [reflexivity |]. split; reflexivity.
  - intros key Hk. now apply keydown_unmapped.
  - destruct (add_y_translated cube 0.1 w) as (E & Ho & _).
    rewrite E. split; [reflexivity |]. now apply Ho.
  - destruct (add_x_translated cam (- 0.1) w) as (E & Ho & _).
    rewrite E. split; [simpl; lra |]. apply Ho. intro Eq. now apply Hne.
Qed.

(** C7 in the initial state: one [w], one [a]. *)
Lemma C7_key_mappings_witness :
  Vector3.y (heap (keydown "w" 0 0.5 0.5 init) (position (cubeMesh init))) =
    Vector3.y (heap init (position (cubeMesh init))) + 0.1 /\
  Vector3.x (heap (keydown "a" 0 0.5 0.5 init) (position (camera init))) =
    Vector3.x (heap init (position (camera init))) - 0.1.
Proof.
  assert (H0 : 0 <= 0 < 1) by lra.
  assert (H5 : 0 <= 0.5 < 1) by lra.
  destruct (C7_key_mappings init 0 0.5 0.5 wf_init H0 H5 H5) as
    (_ & _ & _ & _ & _ & _ & _ & _ & (Hw & _) & (Ha & _)).
  split; assumption.
Defined.

(** ** The constructor *)

Lemma sqrt_three_bounds : 1.7302 < sqrt 3 < 1.7331.
Proof.
  pose proof (sqrt_pos 3) as Hp.
  pose proof (sqrt_sqrt 3 ltac:(lra)) as Hs.
  split.
  - destruct (Rlt_or_le 1.7302 (sqrt 3)) as [H | H]; [assumption | nra].
  - destruct (Rlt_or_le (sqrt 3) 1.7331) as [H | H]; [assumption | nra].
Qed.

Lemma Projectile_new_heap_direction (position0 direction0 : loc) (w : World) :
  (position0 < next w)%nat -> (direction0 < next w)%nat ->
  position0 <> direction0 ->
  heap (snd (Projectile_new position0 direction0 w)) direction0 =
  Vector3.normalize (heap w direction0).
Proof.
  intros Hp Hd Hne.
  unfold Projectile_new, new_Object3D, new_Vector3. unfold_ops. simpl.
  rewrite store_eq, !store_neq by lia. reflexivity.
Qed.

Lemma Projectile_new_heap_position (position0 direction0 : loc) (w : World) :
  (position0 < next w)%nat -> (direction0 < next w)%nat ->
  heap (snd (Projectile_new position0 direction0 w)) (next w) =
  heap w position0.
Proof.
  intros Hp Hd.
  unfold Projectile_new, new_Object3D, new_Vector3. unfold_ops. simpl.
  rewrite (store_neq _ direction0) by lia.
  rewrite store_eq, store_neq by lia. reflexivity.
Qed.

(** The proximity check changes neither the projectile nor the heap. *)
Lemma tick_update (p : Projectile) (w : World) :
  fst (tick p w) = fst (Projectile_update p w) /\
  heap (snd (tick p w)) = heap (snd (Projectile_update p w)).
Proof.
  unfold tick. destruct (Projectile_update p w) as [q w'].
  split; [reflexivity |].
  unfold proximity. simpl.
  destruct (letterN w'), (number1 w'); try reflexivity.
  unfold_ops.
  repeat match goal with
    | |- context [Rlt_dec ?a ?b] => destruct (Rlt_dec a b)
    end; reflexivity.
Qed.

(** C6.  The constructor called with a position vector holding
    (0, 0, 0) and a direction vector holding (0.5, 0.5, 0.5), both
    allocated earlier: the projectile is alive, its mesh sits at
    (0, 0, 0) and the stored direction is (1/√3, 1/√3, 1/√3); after
    one update its position is (0.1/√3, 0.1/√3, 0.1/√3), each
    component between 0.0577 and 0.0578, and it is still alive. *)
Theorem C6_spawn_normalizes (w : World) (position0 direction0 : loc) :
  (position0 < next w)%nat -> (direction0 < next w)%nat ->
  heap w position0 = Vector3.mk 0 0 0 ->
  heap w direction0 = Vector3.mk 0.5 0.5 0.5 ->
  let p := fst (Projectile_new position0 direction0 w) in
  let w1 := snd (Projectile_new position0 direction0 w) in
  let p' := fst (Projectile_update p w1) in
  let w2 := snd (Projectile_update p w1) in
  alive p = true /\
  heap w1 (position (mesh p)) = Vector3.mk 0 0 0 /\
  heap w1 (direction p) = Vector3.mk (1 / sqrt 3) (1 / sqrt 3) (1 / sqrt 3) /\
  heap w2 (position (mesh p)) =
    Vector3.mk (0.1 / sqrt 3) (0.1 / sqrt 3) (0.1 / sqrt 3) /\
  0.0577 < 0.1 / sqrt 3 < 0.0578 /\
  alive p' = true.
Proof.
  intros Hp Hd Hpos Hdir p w1 p' w2.
  assert (Hne : position0 <> direction0).
  { intros ->. rewrite Hpos in Hdir. injection Hdir as E _ _. lra. }
  pose proof sqrt_three_bounds as [Hlo Hhi].
  assert (Hs3 : sqrt 3 <> 0) by lra.
  assert (Ep : p = {| mesh := {| position := next w |};
                      direction := direction0; alive := true |})
    by reflexivity.
  assert (E1 : heap w1 (next w) = Vector3.mk 0 0 0).
  { unfold w1. now rewrite Projectile_new_heap_position. }
  assert (E2 : heap w1 direction0 =
               Vector3.mk (1 / sqrt 3) (1 / sqrt 3) (1 / sqrt 3)).
  { unfold w1. rewrite Projectile_new_heap_direction by assumption.
    rewrite Hdir, (normalize_eq _ (sqrt 3 / 2)).
    - apply Vector3_eq; simpl; decimals; field; assumption.
    - lra.
    - unfold lengthSq. simpl.
      pose proof (sqrt_sqrt 3 ltac:(lra)) as Hs. nra. }
  assert (Hpd : position (mesh p) <> direction p).
  { rewrite Ep. simpl. lia. }
  assert (E3 : heap w2 (next w) =
               Vector3.mk (0.1 / sqrt 3) (0.1 / sqrt 3) (0.1 / sqrt 3)).
  { pose proof (tick_heap_position p w1 Hpd) as Ht.
    destruct (tick_update p w1) as [_ Hh]. fold w2 in Hh.
    rewrite Hh in Ht.
    change (position (mesh p)) with (next w) in Ht.
    change (direction p) with direction0 in Ht.
    rewrite Ht, E1, E2. unfold PROJECTILE_SPEED.
    apply Vector3_eq; simpl; decimals; field; assumption. }
  assert (Hb : 0.0577 < 0.1 / sqrt 3 < 0.0578).
  { split.
    - apply Rmult_lt_reg_r with (sqrt 3); [lra |].
      unfold Rdiv. rewrite Rmult_assoc, Rinv_l by assumption. lra.
    - apply Rmult_lt_reg_r with (sqrt 3); [lra |].
      unfold Rdiv. rewrite Rmult_assoc, Rinv_l by assumption. lra. }
  split; [reflexivity |]. split; [exact E1 |]. split; [exact E2 |].
  split; [exact E3 |]. split; [exact Hb |].
  pose proof (tick_alive p w1) as Ha.
  destruct (tick_update p w1) as [Hf Hh]. fold w2 in Hh. fold p' in Hf.
  rewrite Hf, Hh in Ha. rewrite Ha.
  destruct (Rgt_dec _ 10) as [G | _]; [| reflexivity].
  exfalso. revert G.
  change (position (mesh p)) with (next w).
  rewrite E3.
  rewrite (length_eq _ (sqrt 3 * (0.1 / sqrt 3))).
  - replace (sqrt 3 * (0.1 / sqrt 3)) with 0.1
      by (decimals; field; assumption).
    lra.
  - apply Rmult_le_pos; lra.
  - unfold lengthSq. simpl.
    pose proof (sqrt_sqrt 3 ltac:(lra)) as Hs.
    transitivity ((sqrt 3 * sqrt 3) * (0.1 / sqrt 3 * (0.1 / sqrt 3)));
      [ring |].
    rewrite Hs. ring.
Qed.

(** C6 in the state the space case of the handler is in when it calls
    the constructor, had the three draws made the raw direction
    (0.5, 0.5, 0.5). *)
Lemma C6_spawn_normalizes_witness :
  let w := snd (new_Vector3 (Vector3.mk 0.5 0.5 0.5)
                  (snd (clone (position (cubeMesh init)) init))) in
  let p := fst (Projectile_new 9%nat 10%nat w) in
  let w1 := snd (Projectile_new 9%nat 10%nat w) in
  heap w1 (direction p) = Vector3.mk (1 / sqrt 3) (1 / sqrt 3) (1 / sqrt 3) /\
  heap (snd (Projectile_update p w1)) (position (mesh p)) =
    Vector3.mk (0.1 / sqrt 3) (0.1 / sqrt 3) (0.1 / sqrt 3).
Proof.
  intros w p w1.
  destruct (C6_spawn_normalizes w 9%nat 10%nat) as (_ & _ & E2 & E3 & _).
  - simpl. lia.
  - simpl. lia.
  - reflexivity.
  - reflexivity.
  - split; assumption.
Defined.

(** ** A projectile in flight *)

Lemma pow_tenth_bounds (k : nat) : 0 < 0.1 ^ k <= 1.
Proof.
  induction k as [| k IH]; simpl; [lra | nra].
Qed.

Lemma remove_first_other (o c : Object3D) (s : list Object3D) :
  c <> o -> In c s -> In c (remove_first o s).
Proof.
  intro Hne. induction s as [| a s IH]; simpl; [tauto |].
  destruct (Object3D_eqb_spec a o) as [E | N].
  - subst a. intros [E | H]; [now symmetry in E | assumption].
  - simpl. tauto.
Qed.

Lemma forEach_tick_scene_other (ps : list Projectile) (w : World)
  (m : Object3D) :
  ~ In (position m) (flat_map projectile_locs ps) ->
  In m (scene w) -> In m (scene (snd (forEach tick ps w))).
Proof.
  revert w. induction ps as [| p ps IH]; intros w Hout Hm; [assumption |].
  rewrite forEach_cons. simpl snd. simpl in Hout. apply IH; [tauto |].
  destruct (tick_scene p w) as [E | [_ E]]; rewrite E; [assumption |].
  apply remove_first_other; [| assumption].
  intros ->. tauto.
Qed.

(** A pass keeps the mesh of a projectile it does not destroy among the
    children of the scene. *)
Lemma forEach_tick_scene_kept (ps : list Projectile) (w : World)
  (q : Projectile) :
  NoDup (flat_map projectile_locs ps) -> In q ps ->
  In (mesh q) (scene w) ->
  ~ Vector3.length (heap (snd (forEach tick ps w)) (position (mesh q))) > 10 ->
  In (mesh q) (scene (snd (forEach tick ps w))).
Proof.
  revert w. induction ps as [| p ps IH]; intros w Hnd Hq Hm Hnear;
    [contradiction |].
  rewrite forEach_cons in Hnear |- *. simpl snd in *.
  simpl in Hnd. inversion Hnd as [| ? ? Hpos Hnd1]; subst.
  inversion Hnd1 as [| ? ? Hdir Hnd2]; subst.
  destruct Hq as [-> | Hq].
  - assert (Hout : ~ In (position (mesh q)) (flat_map projectile_locs ps))
      by (intro Hin; apply Hpos; now right).
    rewrite forEach_tick_heap_other in Hnear by assumption.
    apply forEach_tick_scene_other; [assumption |].
    destruct (tick_kept q w Hnear) as [_ ->]. assumption.
  - apply IH; try assumption.
    destruct (tick_scene p w) as [E | [_ E]]; rewrite E; [assumption |].
    apply remove_first_other; [| assumption].
    intro E'. destruct (projectile_locs_In q ps Hq) as [Hin _].
    apply Hpos. right. now rewrite <- E'.
Qed.

Lemma animate_scene_kept (w : World) (q : Projectile) :
  wf w -> In q (iterated w) -> In (mesh q) (scene w) ->
  ~ Vector3.length (heap (animate w) (position (mesh q))) > 10 ->
  In (mesh q) (scene (animate w)).
Proof.
  intros Hwf Hq Hm. rewrite animate_eq, updateProjectiles_eq.
  change (heap (with_projectiles ?a ?b)) with (heap a).
  change (scene (with_projectiles ?a ?b)) with (scene a).
  rewrite before_pass_iterated.
  apply forEach_tick_scene_kept; try assumption.
  now apply wf_iterated_NoDup.
Qed.

Lemma keydown_scene_incl (key : string) (r1 r2 r3 : R) (w : World)
  (m : Object3D) :
  In m (scene w) -> In m (scene (keydown key r1 r2 r3 w)).
Proof.
  intro H. unfold keydown.
  repeat match goal with
    | |- context [String.eqb ?a ?b] => destruct (String.eqb a b)
    end; try assumption.
  rewrite spawn_scene. apply in_or_app. now left.
Qed.

Lemma font_loaded_heap_old (w : World) (l : loc) :
  (l < next w)%nat -> heap (font_loaded w) l = heap w l.
Proof.
  intro H. unfold font_loaded, new_Object3D, new_Vector3, scene_add, write.
  simpl. rewrite !store_neq by lia. reflexivity.
Qed.

Lemma distanceTo_add (p v : Vector3) :
  Vector3.distanceTo (Vector3.add p v) p = Vector3.length v.
Proof.
  unfold Vector3.distanceTo, Vector3.length. f_equal.
  unfold Vector3.distanceToSquared. simpl. ring.
Qed.

(** The geometric sum of the steps stays below 1/9. *)
Lemma travelled_bounds (k : nat) : 0 <= (1 - 0.1 ^ k) / 9 < 1 / 9.
Proof. pose proof (pow_tenth_bounds k). lra. Qed.

Lemma in_flight_near (p0 d0 : Vector3) (k : nat) :
  Vector3.length p0 <= 9.8 -> Vector3.length d0 <= 1 ->
  Vector3.length
    (Vector3.add p0 (Vector3.multiplyScalar d0 ((1 - 0.1 ^ k) / 9))) < 10.
Proof.
  intros Hp Hd. pose proof (travelled_bounds k) as [Hs0 Hs1].
  pose proof (length_add p0 (Vector3.multiplyScalar d0 ((1 - 0.1 ^ k) / 9)))
    as Ht.
  rewrite length_multiplyScalar in Ht by assumption.
  pose proof (length_nonneg d0) as Hd0.
  set (s := (1 - 0.1 ^ k) / 9) in *.
  assert (s * Vector3.length d0 <= s) by nra.
  lra.
Qed.

Lemma in_flight_animate (p : Projectile) (p0 d0 : Vector3) (k : nat)
  (w : World) :
  alive p = true ->
  Vector3.length p0 <= 9.8 -> Vector3.length d0 <= 1 ->
  in_flight p p0 d0 k w -> in_flight p p0 d0 (S k) (animate w).
Proof.
  intros Ha Hp0 Hd0 (Hwf & Hin & Hsc & Ed & Ep).
  assert (Hit : In p (iterated w)) by (apply iterated_In; now split).
  destruct (animate_elem w p Hwf Hit) as (E1 & E2 & E3).
  rewrite Ed in E1. rewrite Ed, Ep in E2.
  assert (Ed' : heap (animate w) (direction p) =
                Vector3.multiplyScalar d0 (0.1 ^ S k)).
  { rewrite E1. unfold PROJECTILE_SPEED.
    apply Vector3_eq; simpl; lra. }
  assert (Ep' : heap (animate w) (position (mesh p)) =
                Vector3.add p0
                  (Vector3.multiplyScalar d0 ((1 - 0.1 ^ S k) / 9))).
  { rewrite E2. unfold PROJECTILE_SPEED.
    apply Vector3_eq; simpl; lra. }
  assert (Hnear : ~ Vector3.length (heap (animate w) (position (mesh p))) > 10).
  { rewrite Ep'. pose proof (in_flight_near p0 d0 (S k) Hp0 Hd0). lra. }
  destruct (Rgt_dec _ 10) as [G | _]; [contradiction |].
  split; [now apply wf_animate |]. split; [assumption |].
  split; [now apply animate_scene_kept |]. split; assumption.
Qed.

Lemma in_flight_keydown (p : Projectile) (p0 d0 : Vector3) (k : nat)
  (key : string) (r1 r2 r3 : R) (w : World) :
  in_flight p p0 d0 k w -> in_flight p p0 d0 k (keydown key r1 r2 r3 w).
Proof.
  intros (Hwf & Hin & Hsc & Ed & Ep).
  destruct (keys_projectile_heap [KeyDown key r1 r2 r3] w p Hwf) as [Hp Hd];
    [repeat constructor | assumption |].
  change (run [KeyDown key r1 r2 r3] w) with (keydown key r1 r2 r3 w) in *.
  split; [now apply wf_keydown |].
  split; [now apply keydown_projectiles_incl |].
  split; [now apply keydown_scene_incl |].
  rewrite Hp, Hd. split; assumption.
Qed.

Lemma in_flight_font_loaded (p : Projectile) (p0 d0 : Vector3) (k : nat)
  (w : World) :
  in_flight p p0 d0 k w -> in_flight p p0 d0 k (font_loaded w).
Proof.
  intros (Hwf & Hin & Hsc & Ed & Ep).
  destruct (wf_projectile w p Hwf Hin) as (_ & Hbp & Hbd & _).
  split; [now apply wf_font_loaded |].
  split; [now rewrite font_loaded_projectiles |].
  split.
  - rewrite font_loaded_scene. apply in_or_app. left.
    apply in_or_app. now left.
  - rewrite !font_loaded_heap_old by assumption. split; assumption.
Qed.

Lemma frames_cons (e : Event) (es : list Event) :
  frames (e :: es) = (frames [e] + frames es)%nat.
Proof. now destruct e. Qed.

Lemma in_flight_step (p : Projectile) (p0 d0 : Vector3) (k : nat)
  (e : Event) (w : World) :
  alive p = true ->
  Vector3.length p0 <= 9.8 -> Vector3.length d0 <= 1 ->
  in_flight p p0 d0 k w -> in_flight p p0 d0 (frames [e] + k) (step w e).
Proof.
  intros Ha Hp0 Hd0 H. destruct e; unfold step.
  - now apply in_flight_animate.
  - now apply in_flight_keydown.
  - now apply in_flight_font_loaded.
Qed.

Lemma in_flight_run (p : Projectile) (p0 d0 : Vector3) (es : list Event)
  (k : nat) (w : World) :
  alive p = true ->
  Vector3.length p0 <= 9.8 -> Vector3.length d0 <= 1 ->
  in_flight p p0 d0 k w -> in_flight p p0 d0 (frames es + k) (run es w).
Proof.
  intros Ha Hp0 Hd0. revert k w.
  induction es as [| e es IH]; intros k w H; [assumption |].
  change (run (e :: es) w) with (run es (step w e)).
  rewrite frames_cons.
  replace (frames [e] + frames es + k)%nat
    with (frames es + (frames [e] + k))%nat by lia.
  apply IH. now apply in_flight_step.
Qed.

Lemma spawn_in_flight (r1 r2 r3 : R) (w : World) :
  wf w ->
  in_flight (spawned w) (heap w (position (cubeMesh w)))
    (Vector3.normalize (Vector3.mk (r1 - 0.5) (r2 - 0.5) (r3 - 0.5)))
    0 (spawn r1 r2 r3 w).
Proof.
  intro Hwf. split; [now apply wf_spawn |].
  split; [rewrite spawn_projectiles; apply in_or_app; right; now left |].
  split; [rewrite spawn_scene; apply in_or_app; right; now left |].
  split.
  - rewrite spawn_heap_direction. apply Vector3_eq; simpl; lra.
  - rewrite spawn_heap_position by now apply wf_cubeMesh.
    apply Vector3_eq; simpl; lra.
Qed.

(** ** A projectile, whatever becomes of it *)

Lemma animate_vectors (w : World) :
  vectors (animate w) =
  static_locs w ++ flat_map projectile_locs (iterated w).
Proof.
  change (static_locs w ++ flat_map projectile_locs (iterated w))
    with (vectors (with_projectiles (before_pass w) (iterated w))).
  apply vectors_refs.
  - rewrite animate_refs. reflexivity.
  - rewrite animate_eq, updateProjectiles_eq. apply forEach_tick_locs.
Qed.

Lemma animate_vectors_incl (w : World) (l : loc) :
  In l (vectors (animate w)) -> In l (vectors w).
Proof.
  rewrite animate_vectors. unfold vectors. rewrite !in_app_iff.
  intros [H | H]; [now left | right; now apply filter_locs_incl].
Qed.

(** The vectors of a dead entry are not vectors of any entry the pass
    iterates. *)
Lemma filter_dead_locs (ps : list Projectile) (q : Projectile) (l : loc) :
  NoDup (flat_map projectile_locs ps) -> In q ps -> alive q = false ->
  In l (projectile_locs q) ->
  ~ In l (flat_map projectile_locs (filter alive ps)).
Proof.
  induction ps as [| p ps IH]; intros Hnd Hq Ha Hl; [contradiction |].
  change (flat_map projectile_locs (p :: ps))
    with (projectile_locs p ++ flat_map projectile_locs ps) in Hnd.
  destruct Hq as [-> | Hq].
  - simpl. rewrite Ha. intro Hin. apply filter_locs_incl in Hin.
    exact (NoDup_app_disjoint _ _ _ Hnd Hl Hin).
  - assert (Hlps : In l (flat_map projectile_locs ps))
      by (apply in_flat_map; now exists q).
    simpl. destruct (alive p).
    + change (flat_map projectile_locs (p :: filter alive ps))
        with (projectile_locs p ++ flat_map projectile_locs (filter alive ps)).
      rewrite in_app_iff. intros [Hin | Hin].
      * exact (NoDup_app_disjoint _ _ _ Hnd Hin Hlps).
      * revert Hin. apply IH; try assumption.
        now apply NoDup_app_remove_l in Hnd.
    + apply IH; try assumption. now apply NoDup_app_remove_l in Hnd.
Qed.

(** A frame leaves alone every allocated vector that nothing refers
    to. *)
Lemma animate_heap_unreferenced (w : World) (l : loc) :
  ~ In l (static_locs w) ->
  ~ In l (flat_map projectile_locs (iterated w)) ->
  heap (animate w) l = heap w l.
Proof.
  intros Hs Hp. apply animate_heap_other; [| assumption].
  intro Hu. apply Hs. now apply uniform_locs_static.
Qed.

Lemma keydown_vectors (key : string) (r1 r2 r3 : R) (w : World) (l : loc) :
  In l (vectors (keydown key r1 r2 r3 w)) ->
  In l (vectors w) \/ (next w <= l)%nat.
Proof.
  unfold vectors.
  rewrite (static_locs_refs _ _ (keydown_refs key r1 r2 r3 w)).
  destruct (keydown_projectiles key r1 r2 r3 w) as [[-> _] | [-> _]];
    [now left |].
  rewrite flat_map_app, !in_app_iff. unfold spawned. simpl.
  intros [H | [H | H]]; auto. right. lia.
Qed.

Lemma font_loaded_vectors (w : World) (l : loc) :
  In l (vectors (font_loaded w)) ->
  In l (vectors w) \/ (next w <= l)%nat.
Proof.
  change (vectors (font_loaded w))
    with (next w :: S (next w)
          :: fixed_locs w ++ flat_map projectile_locs (projectiles w)).
  intros [H | [H | H]]; [right; lia | right; lia | left].
  unfold vectors, static_locs. rewrite <- !app_assoc.
  apply in_or_app. right. apply in_or_app. now right.
Qed.

Lemma not_in_vectors_static (w : World) (l : loc) :
  ~ In l (vectors w) -> ~ In l (static_locs w).
Proof. intros H Hs. apply H. unfold vectors. apply in_or_app. now left. Qed.

Lemma not_in_vectors_iterated (w : World) (l : loc) :
  ~ In l (vectors w) -> ~ In l (flat_map projectile_locs (iterated w)).
Proof.
  intros H Hs. apply H. unfold vectors. apply in_or_app. right.
  now apply filter_locs_incl.
Qed.

Lemma tracked_animate (p : Projectile) (p0 d0 : Vector3) (j : nat)
  (w : World) :
  alive p = true ->
  tracked p p0 d0 j w ->
  exists j', (j <= j' <= S j)%nat /\ tracked p p0 d0 j' (animate w).
Proof.
  intros Ha (Hwf & Hfate & Ed & Ep).
  pose proof (wf_animate w Hwf) as Hwf'.
  destruct Hfate as [Hin | Hin | Hne Hbp Hbd Hp Hd].
  - (* a live entry: it makes one more step *)
    exists (S j). split; [lia |].
    assert (Hit : In p (iterated w)) by (apply iterated_In; now split).
    destruct (animate_elem w p Hwf Hit) as (E1 & E2 & E3).
    rewrite Ed in E1. rewrite Ed, Ep in E2.
    split; [assumption |]. split; [| split].
    + destruct (Rgt_dec _ 10); [now apply dying | now apply flying].
    + rewrite E1. unfold PROJECTILE_SPEED. apply Vector3_eq; simpl; lra.
    + rewrite E2. unfold PROJECTILE_SPEED. apply Vector3_eq; simpl; lra.
  - (* a dead entry: the filter drops it, its vectors stay as they are *)
    exists j. split; [lia |].
    destruct (wf_projectile w _ Hwf Hin) as (Hne & Hbp & Hbd & Hsp & Hsd).
    change (position (mesh (with_alive p false)))
      with (position (mesh p)) in *.
    change (direction (with_alive p false)) with (direction p) in *.
    pose proof (wf_projectiles_NoDup w Hwf) as Hnd.
    assert (Hfp : ~ In (position (mesh p))
                     (flat_map projectile_locs (iterated w))).
    { apply (filter_dead_locs _ (with_alive p false)); try assumption;
        [reflexivity | simpl; auto]. }
    assert (Hfd : ~ In (direction p)
                     (flat_map projectile_locs (iterated w))).
    { apply (filter_dead_locs _ (with_alive p false)); try assumption;
        [reflexivity | simpl; auto]. }
    split; [assumption |]. split; [| split].
    + apply gone; rewrite ?animate_next, ?animate_vectors, ?in_app_iff;
        tauto.
    + now rewrite animate_heap_unreferenced.
    + now rewrite animate_heap_unreferenced.
  - (* filtered out earlier: nothing refers to its vectors *)
    exists j. split; [lia |].
    split; [assumption |]. split; [| split].
    + apply gone; rewrite ?animate_next; try assumption;
        intro H; apply animate_vectors_incl in H; contradiction.
    + rewrite animate_heap_unreferenced;
        [assumption | now apply not_in_vectors_static
        | now apply not_in_vectors_iterated].
    + rewrite animate_heap_unreferenced;
        [assumption | now apply not_in_vectors_static
        | now apply not_in_vectors_iterated].
Qed.

Lemma fate_heap_keydown (p : Projectile) (key : string) (r1 r2 r3 : R)
  (w : World) :
  wf w -> fate p w ->
  fate p (keydown key r1 r2 r3 w) /\
  heap (keydown key r1 r2 r3 w) (position (mesh p)) =
    heap w (position (mesh p)) /\
  heap (keydown key r1 r2 r3 w) (direction p) = heap w (direction p).
Proof.
  intros Hwf [Hin | Hin | Hne Hbp Hbd Hp Hd].
  - split; [apply flying; now apply keydown_projectiles_incl |].
    apply (keys_projectile_heap [KeyDown key r1 r2 r3] w p Hwf);
      [repeat constructor | assumption].
  - split; [apply dying; now apply keydown_projectiles_incl |].
    apply (keys_projectile_heap [KeyDown key r1 r2 r3] w
             (with_alive p false) Hwf);
      [repeat constructor | assumption].
  - pose proof (step_next w (KeyDown key r1 r2 r3)) as Hn.
    unfold step in Hn.
    split.
    + apply gone; try assumption; try lia.
      * intro H. apply keydown_vectors in H as [H | H]; [tauto | lia].
      * intro H. apply keydown_vectors in H as [H | H]; [tauto | lia].
    + split; apply keydown_heap_other; try assumption; intro E.
      * apply (not_in_vectors_static _ _ Hp). rewrite E.
        apply static_locs_cube.
      * apply (not_in_vectors_static _ _ Hp). rewrite E.
        apply static_locs_camera.
      * apply (not_in_vectors_static _ _ Hd). rewrite E.
        apply static_locs_cube.
      * apply (not_in_vectors_static _ _ Hd). rewrite E.
        apply static_locs_camera.
Qed.

Lemma tracked_keydown (p : Projectile) (p0 d0 : Vector3) (j : nat)
  (key : string) (r1 r2 r3 : R) (w : World) :
  tracked p p0 d0 j w -> tracked p p0 d0 j (keydown key r1 r2 r3 w).
Proof.
  intros (Hwf & Hfate & Ed & Ep).
  destruct (fate_heap_keydown p key r1 r2 r3 w Hwf Hfate) as (Hf & Hp & Hd).
  split; [now apply wf_keydown |]. split; [assumption |].
  rewrite Hp, Hd. split; assumption.
Qed.

Lemma tracked_font_loaded (p : Projectile) (p0 d0 : Vector3) (j : nat)
  (w : World) :
  tracked p p0 d0 j w -> tracked p p0 d0 j (font_loaded w).
Proof.
  intros (Hwf & Hfate & Ed & Ep).
  split; [now apply wf_font_loaded |].
  assert (Hb : (position (mesh p) < next w)%nat /\ (direction p < next w)%nat).
  { destruct Hfate as [Hin | Hin | Hne Hbp Hbd Hp Hd].
    - destruct (wf_projectile w p Hwf Hin) as (_ & H1 & H2 & _).
      now split.
    - destruct (wf_projectile w _ Hwf Hin) as (_ & H1 & H2 & _).
      now split.
    - now split. }
  destruct Hb as [Hbp Hbd].
  rewrite !font_loaded_heap_old by assumption.
  split; [| split; assumption].
  destruct Hfate as [Hin | Hin | Hne _ _ Hp Hd].
  - apply flying. now rewrite font_loaded_projectiles.
  - apply dying. now rewrite font_loaded_projectiles.
  - apply gone; rewrite ?font_loaded_next; try assumption; try lia.
    + intro H. apply font_loaded_vectors in H as [H | H]; [tauto | lia].
    + intro H. apply font_loaded_vectors in H as [H | H]; [tauto | lia].
Qed.

Lemma tracked_step (p : Projectile) (p0 d0 : Vector3) (j : nat)
  (e : Event) (w : World) :
  alive p = true ->
  tracked p p0 d0 j w ->
  exists j', (j <= j' <= frames [e] + j)%nat /\
             tracked p p0 d0 j' (step w e).
Proof.
  intros Ha H. destruct e; unfold step.
  - now apply tracked_animate.
  - exists j. split; [simpl; lia | now apply tracked_keydown].
  - exists j. split; [simpl; lia | now apply tracked_font_loaded].
Qed.

Lemma tracked_run (p : Projectile) (p0 d0 : Vector3) (es : list Event)
  (j : nat) (w : World) :
  alive p = true ->
  tracked p p0 d0 j w ->
  exists j', (j <= j' <= frames es + j)%nat /\
             tracked p p0 d0 j' (run es w).
Proof.
  intro Ha. revert j w.
  induction es as [| e es IH]; intros j w H.
  - exists j. split; [simpl; lia | assumption].
  - change (run (e :: es) w) with (run es (step w e)).
    destruct (tracked_step p p0 d0 j e w Ha H) as (j1 & Hj1 & H1).
    destruct (IH j1 _ H1) as (j2 & Hj2 & H2).
    exists j2. split; [| assumption].
    rewrite frames_cons. lia.
Qed.

Lemma spawn_tracked (r1 r2 r3 : R) (w : World) :
  wf w ->
  tracked (spawned w) (heap w (position (cubeMesh w)))
    (Vector3.normalize (Vector3.mk (r1 - 0.5) (r2 - 0.5) (r3 - 0.5)))
    0 (spawn r1 r2 r3 w).
Proof.
  intro Hwf.
  destruct (spawn_in_flight r1 r2 r3 w Hwf) as (H1 & H2 & _ & H4 & H5).
  split; [assumption |]. split; [now apply flying |]. now split.
Qed.

(** C9.  A projectile spawned by the space bar, at any later moment of
    the run, [k] frames after the spawn.  Its stored direction is the
    normalised direction [d0] (of length one, or zero when the three
    draws were all 0.5) scaled by 0.1^j, where [j <= k] counts the
    frames in which it was updated, so each step is a tenth of the step
    before; its position is the spawn position plus [d0] times
    (1 - 0.1^j)/9, less than 1/9 away from the spawn position.  If the
    cube was within 9.8 of the origin at the spawn, then [j = k]: the
    projectile is less than 10 from the origin, alive, an entry of the
    array and of the next pass, and its mesh is a child of the
    scene. *)
Theorem C9_projectile_stays_near_spawn (w : World) (r1 r2 r3 : R)
  (es : list Event) :
  wf w ->
  let p := spawned w in
  let p0 := heap w (position (cubeMesh w)) in
  let d0 := Vector3.normalize (Vector3.mk (r1 - 0.5) (r2 - 0.5) (r3 - 0.5)) in
  let w' := run es (keydown " " r1 r2 r3 w) in
  let k := frames es in
  (Vector3.length d0 = 1 \/ d0 = Vector3.zero) /\
  (exists j, (j <= k)%nat /\
     heap w' (direction p) = Vector3.multiplyScalar d0 (0.1 ^ j) /\
     Vector3.length (heap w' (direction p)) = 0.1 ^ j * Vector3.length d0 /\
     heap w' (position (mesh p)) =
       Vector3.add p0 (Vector3.multiplyScalar d0 ((1 - 0.1 ^ j) / 9))) /\
  Vector3.distanceTo (heap w' (position (mesh p))) p0 < 1 / 9 /\
  (Vector3.length p0 <= 9.8 ->
   heap w' (direction p) = Vector3.multiplyScalar d0 (0.1 ^ k) /\
   heap w' (position (mesh p)) =
     Vector3.add p0 (Vector3.multiplyScalar d0 ((1 - 0.1 ^ k) / 9)) /\
   Vector3.length (heap w' (position (mesh p))) < 10 /\
   alive p = true /\
   In p (projectiles w') /\
   In p (iterated w') /\
   In (mesh p) (scene w')).
Proof.
  intros Hwf p p0 d0 w' k.
  change (keydown " " r1 r2 r3 w) with (spawn r1 r2 r3 w) in w'.
  assert (Hd0 : Vector3.length d0 <= 1) by apply normalize_length_le.
  pose proof (length_nonneg d0) as Hd0'.
  destruct (tracked_run p p0 d0 es 0 (spawn r1 r2 r3 w) eq_refl
              (spawn_tracked r1 r2 r3 w Hwf)) as (j & Hj & _ & _ & Ed & Ep).
  fold w' in Ed, Ep.
  pose proof (pow_tenth_bounds j) as [Hj0 Hj1].
  pose proof (travelled_bounds j) as [Hs0 Hs1].
  split.
  { destruct (normalize_length (Vector3.mk (r1 - 0.5) (r2 - 0.5) (r3 - 0.5)))
      as [[_ E] | E]; [now right | now left]. }
  split.
  { exists j. split; [fold k; lia |]. split; [exact Ed |].
    split; [rewrite Ed; apply length_multiplyScalar; lra | exact Ep]. }
  split.
  { rewrite Ep, distanceTo_add, length_multiplyScalar by assumption.
    set (s := (1 - 0.1 ^ j) / 9) in *. nra. }
  intro Hcube.
  pose proof (in_flight_run p p0 d0 es 0 (spawn r1 r2 r3 w) eq_refl Hcube Hd0
                (spawn_in_flight r1 r2 r3 w Hwf)) as H.
  rewrite Nat.add_0_r in H. fold k w' in H.
  destruct H as (_ & Hin & Hsc & Ed' & Ep').
  split; [exact Ed' |]. split; [exact Ep' |].
  split; [rewrite Ep'; now apply in_flight_near |].
  split; [reflexivity |]. split; [exact Hin |].
  split; [apply iterated_In; now split | exact Hsc].
Qed.

(** C9 on a projectile spawned in the initial state, three frames and
    a move of the cube later. *)
Lemma C9_projectile_stays_near_spawn_witness :
  let p := spawned init in
  let w' := run [Frame; KeyDown "w" 0 0 0; Frame; Frame]
              (keydown " " 0.75 0.5 0.5 init) in
  Vector3.distanceTo (heap w' (position (mesh p)))
    (heap init (position (cubeMesh init))) < 1 / 9 /\
  Vector3.length (heap w' (position (mesh p))) < 10 /\
  In p (iterated w').
Proof.
  intros p w'.
  destruct (C9_projectile_stays_near_spawn init 0.75 0.5 0.5
              [Frame; KeyDown "w" 0 0 0; Frame; Frame] wf_init)
    as (_ & _ & Hd & Hnear).
  destruct Hnear as (_ & _ & Hl & _ & _ & Hi & _).
  - change (heap init (position (cubeMesh init))) with Vector3.zero.
    rewrite (length_eq _ 0); [lra | lra |]. unfold lengthSq. simpl. ring.
  - split; [exact Hd |]. split; [exact Hl | exact Hi].
Defined.

(** C1.  The program at an input on which the claim fails: the space
    bar pressed once with the cube at the origin, the draws giving the
    raw direction (0.25, 0, 0), then two frames.  The stored direction
    is the unit vector (1, 0, 0) after the spawn, (0.1, 0, 0) after the
    first frame and (0.01, 0, 0) after the second; the position is
    (0.1, 0, 0) and then (0.11, 0, 0): the first frame adds a step of
    length 0.1, the second a step of length 0.01, and the projectile
    is alive throughout. *)
Theorem C1_second_step_is_shorter :
  let p := spawned init in
  let w0 := keydown " " 0.75 0.5 0.5 init in
  let w1 := animate w0 in
  let w2 := animate w1 in
  heap w0 (position (mesh p)) = Vector3.mk 0 0 0 /\
  heap w0 (direction p) = Vector3.mk 1 0 0 /\
  heap w1 (position (mesh p)) = Vector3.mk 0.1 0 0 /\
  heap w1 (direction p) = Vector3.mk 0.1 0 0 /\
  heap w2 (position (mesh p)) = Vector3.mk 0.11 0 0 /\
  heap w2 (direction p) = Vector3.mk 0.01 0 0 /\
  Vector3.distanceTo (heap w1 (position (mesh p)))
                     (heap w0 (position (mesh p))) = 0.1 /\
  Vector3.distanceTo (heap w2 (position (mesh p)))
                     (heap w1 (position (mesh p))) = 0.01 /\
  Vector3.length (heap w1 (direction p)) = 0.1 /\
  In p (iterated w1) /\ In p (iterated w2).
Proof.
  intros p w0 w1 w2.
  change w0 with (spawn 0.75 0.5 0.5 init) in *. clear w0.
  pose proof (spawn_in_flight 0.75 0.5 0.5 init wf_init) as F0.
  fold p in F0.
  change (heap init (position (cubeMesh init))) with Vector3.zero in F0.
  rewrite (normalize_eq _ 0.25) in F0 by (unfold lengthSq; simpl; lra).
  set (d0 := Vector3.mk _ _ _) in F0.
  assert (Hp0 : Vector3.length Vector3.zero <= 9.8).
  { rewrite (length_eq _ 0); [lra | lra |]. unfold lengthSq. simpl. ring. }
  assert (Hd0 : Vector3.length d0 <= 1).
  { rewrite (length_eq _ 1); [lra | lra |]. unfold lengthSq, d0. simpl. lra. }
  pose proof (in_flight_animate p _ _ _ _ eq_refl Hp0 Hd0 F0) as F1.
  fold w1 in F1.
  pose proof (in_flight_animate p _ _ _ _ eq_refl Hp0 Hd0 F1) as F2.
  fold w2 in F2.
  destruct F0 as (_ & _ & _ & D0 & P0).
  destruct F1 as (_ & I1 & _ & D1 & P1).
  destruct F2 as (_ & I2 & _ & D2 & P2).
  clearbody w1 w2. set (w0 := spawn 0.75 0.5 0.5 init) in *. clearbody w0.
  rewrite D0, P0, D1, P1, D2, P2. unfold d0.
  split; [apply Vector3_eq; simpl; lra |].
  split; [apply Vector3_eq; simpl; lra |].
  split; [apply Vector3_eq; simpl; lra |].
  split; [apply Vector3_eq; simpl; lra |].
  split; [apply Vector3_eq; simpl; lra |].
  split; [apply Vector3_eq; simpl; lra |].
  split; [apply distanceTo_eq;
          [lra | unfold Vector3.distanceToSquared; simpl; lra] |].
  split; [apply distanceTo_eq;
          [lra | unfold Vector3.distanceToSquared; simpl; lra] |].
  split; [apply length_eq; [lra | unfold lengthSq; simpl; lra] |].
  split; apply iterated_In; now split.
Qed.

(** ** No stale highlight *)

(** A point farther than 10 from the origin is not within 2 of a point
    at distance 2 from the origin on the X axis. *)
Lemma far_from_anchor (v : Vector3) (a : R) :
  a = 2 \/ a = - 2 ->
  Vector3.length v > 10 ->
  ~ Vector3.distanceTo v (Vector3.mk a 0 0) < DETECTION_RADIUS.
Proof.
  intros Ha Hfar Hnear. unfold DETECTION_RADIUS in Hnear.
  pose proof (length_sq v) as Hl. pose proof (length_nonneg v) as Hl0.
  assert (Hd0 : 0 <= Vector3.distanceTo v (Vector3.mk a 0 0))
    by apply sqrt_pos.
  assert (Hd : Vector3.distanceTo v (Vector3.mk a 0 0)
               * Vector3.distanceTo v (Vector3.mk a 0 0)
               = Vector3.distanceToSquared v (Vector3.mk a 0 0)).
  { apply sqrt_sqrt. unfold Vector3.distanceToSquared. cbv zeta.
    apply sum_squares_nonneg. }
  unfold Vector3.distanceToSquared, lengthSq in *. simpl in Hd.
  destruct v as [x y z]. simpl in *.
  set (L := Vector3.length _) in *. set (D := Vector3.distanceTo _ _) in *.
  assert (HL : 100 < L * L) by nra.
  assert (HD : D * D < 4) by nra.
  destruct Ha as [-> | ->]; nra.
Qed.

Lemma wf_anchor (w : World) (n : Object3D) (l : loc) :
  wf w -> letterN w = Some n \/ number1 w = Some n ->
  (position n < next w)%nat /\
  (In l (fixed_locs w ++ flat_map projectile_locs (projectiles w)) ->
   l <> position n).
Proof.
  intros [Hnd Hb _ _] Hn. unfold vectors, static_locs in Hnd, Hb.
  rewrite <- !app_assoc in Hnd, Hb. rewrite Forall_forall in Hb.
  destruct Hn as [Hn | Hn]; rewrite Hn in Hnd, Hb; simpl in Hnd, Hb.
  - split; [apply Hb; now left |].
    intros Hl ->. inversion Hnd as [| ? ? Hout _]; subst.
    apply Hout. apply in_or_app. now right.
  - apply NoDup_app_remove_l in Hnd.
    split; [apply Hb; apply in_or_app; right; now left |].
    intros Hl ->. inversion Hnd as [| ? ? Hout _]; subst. contradiction.
Qed.

Lemma fixed_locs_uniform (w : World) (l : loc) :
  In l (uniform_locs w) -> In l (fixed_locs w).
Proof.
  unfold uniform_locs, fixed_locs, material_locs. simpl. intuition.
Qed.

Lemma anchor_animate (w : World) (n : Object3D) :
  wf w -> letterN w = Some n \/ number1 w = Some n ->
  heap (animate w) (position n) = heap w (position n).
Proof.
  intros Hwf Hn. apply animate_heap_other; intro Hl.
  - apply fixed_locs_uniform in Hl.
    destruct (wf_anchor w n (position n) Hwf Hn) as [_ H].
    apply H; [apply in_or_app; now left | reflexivity].
  - apply filter_locs_incl in Hl.
    destruct (wf_anchor w n (position n) Hwf Hn) as [_ H].
    apply H; [apply in_or_app; now right | reflexivity].
Qed.

Lemma anchor_keydown (key : string) (r1 r2 r3 : R) (w : World)
  (n : Object3D) :
  wf w -> letterN w = Some n \/ number1 w = Some n ->
  heap (keydown key r1 r2 r3 w) (position n) = heap w (position n).
Proof.
  intros Hwf Hn.
  destruct (wf_anchor w n (position (cubeMesh w)) Hwf Hn) as [Hb Hc].
  destruct (wf_anchor w n (position (camera w)) Hwf Hn) as [_ Hm].
  apply keydown_heap_other; try assumption; intro E; symmetry in E.
  - revert E. apply Hc. apply in_or_app. left.
    unfold fixed_locs. simpl. auto.
  - revert E. apply Hm. apply in_or_app. left.
    unfold fixed_locs. simpl. auto.
Qed.

Lemma anchored_animate (w : World) : wf w -> anchored w -> anchored (animate w).
Proof.
  intros Hwf [Hn Hd]. pose proof (animate_refs w) as Hr. split.
  - intros n E. rewrite (refs_letterN _ _ Hr) in E.
    rewrite anchor_animate; auto.
  - intros d E. rewrite (refs_number1 _ _ Hr) in E.
    rewrite anchor_animate; auto.
Qed.

Lemma anchored_keydown (key : string) (r1 r2 r3 : R) (w : World) :
  wf w -> anchored w -> anchored (keydown key r1 r2 r3 w).
Proof.
  intros Hwf [Hn Hd]. pose proof (keydown_refs key r1 r2 r3 w) as Hr. split.
  - intros n E. rewrite (refs_letterN _ _ Hr) in E.
    rewrite anchor_keydown; auto.
  - intros d E. rewrite (refs_number1 _ _ Hr) in E.
    rewrite anchor_keydown; auto.
Qed.

Lemma anchored_font_loaded (w : World) : anchored (font_loaded w).
Proof.
  split; intros n E; injection E as <-; simpl;
    unfold font_loaded, new_Object3D, new_Vector3, scene_add, write; simpl.
  - rewrite store_neq by lia. rewrite store_neq by lia. apply store_eq.
  - apply store_eq.
Qed.

Lemma animate_empty (w : World) :
  iterated w = [] ->
  iterated (animate w) = [] /\
  ambientIntensity (alphabetMaterial (animate w)) =
    ambientIntensity (alphabetMaterial w) /\
  ambientIntensity (digitMaterial (animate w)) =
    ambientIntensity (digitMaterial w).
Proof.
  intro H. rewrite animate_eq, updateProjectiles_eq, before_pass_iterated, H.
  repeat split.
Qed.

Lemma animate_missing (w : World) :
  letterN w = None \/ number1 w = None ->
  ambientIntensity (alphabetMaterial (animate w)) =
    ambientIntensity (alphabetMaterial w) /\
  ambientIntensity (digitMaterial (animate w)) =
    ambientIntensity (digitMaterial w).
Proof.
  intro H. rewrite animate_eq, (updateProjectiles_unguarded (before_pass w) H).
  exact (advance_and_prune_ambient (before_pass w)).
Qed.

Lemma highlight_ok_animate (w : World) :
  highlight_ok w -> highlight_ok (animate w).
Proof.
  intros (Hwf & Hanc & Hnone & Ha & Hd & Hempty).
  pose proof (wf_animate w Hwf) as Hwf'.
  pose proof (anchored_animate w Hwf Hanc) as Hanc'.
  pose proof (animate_refs w) as Hr.
  split; [assumption |]. split; [assumption |].
  destruct (letterN w) as [n |] eqn:En; [destruct (number1 w) as [d |] eqn:Ed |].
  - (* both text meshes are present *)
    assert (En' : letterN (animate w) = Some n)
      by now rewrite (refs_letterN _ _ Hr).
    assert (Ed' : number1 (animate w) = Some d)
      by now rewrite (refs_number1 _ _ Hr).
    split; [intros [E | E]; congruence |].
    destruct (iterated w) as [| p0 ps0] eqn:Eit.
    + destruct (animate_empty w Eit) as (_ & -> & ->). auto.
    + destruct (exists_last (l := p0 :: ps0)) as (ps & pl & Hlast);
        [discriminate |].
      rewrite Hlast in Eit.
      destruct (animate_last w n d ps pl En Ed Eit) as [Ea' Ed''].
      split; [rewrite Ea'; case_conditions; auto |].
      split; [rewrite Ed''; case_conditions; auto |].
      intro Hnil.
      assert (Hpl : In pl (iterated w))
        by (rewrite Eit; apply in_or_app; right; now left).
      destruct (animate_elem w pl Hwf Hpl) as (_ & _ & Hin).
      destruct (Rgt_dec _ 10) as [Hfar | _].
      * destruct Hanc' as [HN HD].
        rewrite Ea', Ed'', (HN n En'), (HD d Ed').
        split;
          match goal with
          | |- context [Rlt_dec ?a ?b] =>
              destruct (Rlt_dec a b) as [Hnear | _];
              [exfalso; revert Hnear; apply far_from_anchor; auto
              | reflexivity]
          end.
      * exfalso. apply iterated_In in Hpl as [_ Hal].
        assert (Hin' : In pl (iterated (animate w)))
          by (apply iterated_In; now split).
        rewrite Hnil in Hin'. contradiction.
  - (* the digit is missing *)
    destruct (animate_missing w (or_intror Ed)) as [Ea' Ed'].
    rewrite Ea', Ed'. destruct (Hnone (or_intror eq_refl)) as [-> ->].
    auto 6.
  - (* the letter is missing *)
    destruct (animate_missing w (or_introl En)) as [Ea' Ed'].
    rewrite Ea', Ed'. destruct (Hnone (or_introl eq_refl)) as [-> ->].
    auto 6.
Qed.

Lemma highlight_ok_keydown (key : string) (r1 r2 r3 : R) (w : World) :
  highlight_ok w -> highlight_ok (keydown key r1 r2 r3 w).
Proof.
  intros (Hwf & Hanc & Hnone & Ha & Hd & Hempty).
  pose proof (keydown_refs key r1 r2 r3 w) as Hr.
  destruct (keydown_ambient key r1 r2 r3 w) as [Ea Ed].
  split; [now apply wf_keydown |]. split; [now apply anchored_keydown |].
  rewrite (refs_letterN _ _ Hr), (refs_number1 _ _ Hr), Ea, Ed.
  split; [assumption |]. split; [assumption |]. split; [assumption |].
  intro Hnil. apply Hempty.
  destruct (iterated w) as [| q qs] eqn:Eit; [reflexivity |].
  assert (Hq : In q (iterated w)) by (rewrite Eit; now left).
  apply iterated_In in Hq as [Hq Hal].
  assert (Hq' : In q (iterated (keydown key r1 r2 r3 w))).
  { apply iterated_In. split; [| assumption].
    now apply keydown_projectiles_incl. }
  rewrite Hnil in Hq'. contradiction.
Qed.

Lemma highlight_ok_font_loaded (w : World) :
  highlight_ok w -> highlight_ok (font_loaded w).
Proof.
  intros (Hwf & Hanc & Hnone & Ha & Hd & Hempty).
  split; [now apply wf_font_loaded |].
  split; [apply anchored_font_loaded |].
  split; [intros [E | E]; discriminate E |].
  split; [exact Ha |]. split; [exact Hd |]. exact Hempty.
Qed.

Lemma highlight_ok_init : highlight_ok init.
Proof.
  split; [apply wf_init |].
  split; [split; intros n E; discriminate E |].
  split; [intros _; split; reflexivity |].
  split; [now left |]. split; [now left |].
  intros _. split; reflexivity.
Qed.

Lemma highlight_ok_step (w : World) (e : Event) :
  highlight_ok w -> highlight_ok (step w e).
Proof.
  intro H. destruct e; unfold step.
  - now apply highlight_ok_animate.
  - now apply highlight_ok_keydown.
  - now apply highlight_ok_font_loaded.
Qed.

Lemma highlight_ok_run (es : list Event) (w : World) :
  highlight_ok w -> highlight_ok (run es w).
Proof.
  revert w. induction es as [| e es IH]; intros w H; [assumption |].
  change (run (e :: es) w) with (run es (step w e)).
  apply IH. now apply highlight_ok_step.
Qed.

(** In every run, each intensity uniform holds 0.401 or 0.8, and a
    frame that finds no live projectile ends with both at 0.401. *)
Lemma no_stale_highlight (es : list Event) :
  let w := run es init in
  (ambientIntensity (alphabetMaterial w) = 0.401 \/
   ambientIntensity (alphabetMaterial w) = 0.8) /\
  (ambientIntensity (digitMaterial w) = 0.401 \/
   ambientIntensity (digitMaterial w) = 0.8) /\
  (iterated w = [] ->
   ambientIntensity (alphabetMaterial (animate w)) = 0.401 /\
   ambientIntensity (digitMaterial (animate w)) = 0.401).
Proof.
  intro w.
  destruct (highlight_ok_run es init highlight_ok_init)
    as (_ & _ & _ & Ha & Hd & Hempty).
  fold w in Ha, Hd, Hempty. clearbody w.
  split; [exact Ha |]. split; [exact Hd |].
  intro Hnil. destruct (animate_empty w Hnil) as (_ & -> & ->).
  now apply Hempty.
Qed.


(** * Further properties *)

(** ** Reachable states *)

(** X1.  Every state the program reaches is well formed: no two of the
    vectors the program holds references to (the positions of the
    camera, the cube, the light and the text meshes, the vector
    uniforms, and the position and direction of every entry of the
    projectile array) are the same object, each of them has been
    allocated, and no object is a child of the scene twice. *)
Theorem reachable_states_are_well_formed (es : list Event) :
  wf (run es init).
Proof. apply wf_run, wf_init. Qed.

(** ** A frame, entry by entry *)

(** X2.  A frame acts on the live entries one by one, each on its own
    vectors: the array after the frame is the filtered array with the
    flag cleared on the entries that ended farther than 10 from the
    origin, in the same order, and every live entry had its direction
    scaled by the speed and then added to its position, whatever the
    other entries are. *)
Theorem frame_moves_each_projectile_alone (w : World) :
  wf w ->
  projectiles (animate w) = map (settle (heap (animate w))) (iterated w) /\
  forall q, In q (iterated w) ->
    heap (animate w) (direction q) =
      Vector3.multiplyScalar (heap w (direction q)) PROJECTILE_SPEED /\
    heap (animate w) (position (mesh q)) =
      Vector3.add (heap w (position (mesh q)))
        (Vector3.multiplyScalar (heap w (direction q)) PROJECTILE_SPEED).
Proof.
  intro Hwf. split; [now apply animate_map |].
  intros q Hq. destruct (animate_elem w q Hwf Hq) as (E1 & E2 & _).
  now split.
Qed.

Lemma frame_moves_each_projectile_alone_witness :
  let w := run two_shots init in
  projectiles (animate w) = map (settle (heap (animate w))) (iterated w) /\
  forall q, In q (iterated w) ->
    heap (animate w) (direction q) =
      Vector3.multiplyScalar (heap w (direction q)) PROJECTILE_SPEED /\
    heap (animate w) (position (mesh q)) =
      Vector3.add (heap w (position (mesh q)))
        (Vector3.multiplyScalar (heap w (direction q)) PROJECTILE_SPEED).
Proof.
  apply (frame_moves_each_projectile_alone (run two_shots init)).
  apply wf_run, wf_init.
Defined.

(** ** The scene and the array agree *)

Lemma keydown_cases (key : string) (r1 r2 r3 : R) (w : World) :
  (projectiles (keydown key r1 r2 r3 w) = projectiles w /\
   scene (keydown key r1 r2 r3 w) = scene w) \/
  keydown key r1 r2 r3 w = spawn r1 r2 r3 w.
Proof.
  unfold keydown.
  repeat match goal with
    | |- context [String.eqb ?a ?b] => destruct (String.eqb a b)
    end; auto.
Qed.

Lemma scene_consistent_animate (w : World) :
  wf w -> scene_consistent w -> scene_consistent (animate w).
Proof.
  intros Hwf Hsc p Hp.
  pose proof Hp as Hp'. rewrite (animate_map w Hwf) in Hp'.
  apply in_map_iff in Hp' as (q & Eq & Hq).
  pose proof Hq as Hq'. apply iterated_In in Hq' as [Hqin Hqa].
  unfold settle in Eq.
  destruct (Rgt_dec (Vector3.length (heap (animate w) (position (mesh q)))) 10)
    as [Hfar | Hnear]; subst p.
  - destruct (animate_far w (with_alive q false) Hwf Hp Hfar) as [_ Hout].
    simpl. split; [intro H; contradiction | discriminate].
  - split; [intros _; assumption | intros _].
    apply animate_scene_kept; try assumption.
    now apply Hsc.
Qed.

Lemma scene_consistent_fresh (w : World) (extra : list Object3D) :
  wf w -> scene_consistent w ->
  Forall (fun m => (next w <= position m)%nat) extra ->
  forall p, In p (projectiles w) ->
            (In (mesh p) (scene w ++ extra) <-> alive p = true).
Proof.
  intros Hwf Hsc Hfresh p Hp. rewrite in_app_iff, <- (Hsc p Hp).
  split; [intros [H | H]; [assumption | exfalso] | now left].
  rewrite Forall_forall in Hfresh. specialize (Hfresh _ H).
  destruct (wf_projectile w p Hwf Hp) as (_ & Hb & _). lia.
Qed.

Lemma scene_consistent_keydown (key : string) (r1 r2 r3 : R) (w : World) :
  wf w -> scene_consistent w -> scene_consistent (keydown key r1 r2 r3 w).
Proof.
  intros Hwf Hsc.
  destruct (keydown_cases key r1 r2 r3 w) as [[Ep Es] | ->].
  - intros p Hp. rewrite Ep in Hp. rewrite Es. now apply Hsc.
  - intros p Hp. rewrite spawn_projectiles in Hp. rewrite spawn_scene.
    apply in_app_or in Hp as [Hp | [<- | []]].
    + apply (scene_consistent_fresh w);
        try assumption.
      repeat constructor; simpl; lia.
    + split; [reflexivity | intros _].
      apply in_or_app. right. now left.
Qed.

Lemma scene_consistent_font_loaded (w : World) :
  wf w -> scene_consistent w -> scene_consistent (font_loaded w).
Proof.
  intros Hwf Hsc p Hp. rewrite font_loaded_projectiles in Hp.
  rewrite font_loaded_scene, <- app_assoc.
  apply (scene_consistent_fresh w);
    try assumption.
  repeat constructor; simpl; lia.
Qed.

Lemma scene_consistent_run (es : list Event) (w : World) :
  wf w -> scene_consistent w -> scene_consistent (run es w).
Proof.
  revert w. induction es as [| e es IH]; intros w Hwf Hsc; [assumption |].
  change (run (e :: es) w) with (run es (step w e)).
  apply IH; [now apply wf_step |].
  destruct e; unfold step.
  - now apply scene_consistent_animate.
  - now apply scene_consistent_keydown.
  - now apply scene_consistent_font_loaded.
Qed.

(** X3.  In every state the program reaches, the mesh of an entry of
    the projectile array is a child of the scene exactly when the
    entry's liveness flag is set. *)
Theorem scene_agrees_with_liveness (es : list Event) (p : Projectile) :
  In p (projectiles (run es init)) ->
  (In (mesh p) (scene (run es init)) <-> alive p = true).
Proof.
  apply (scene_consistent_run es init wf_init).
  intros q Hq. contradiction.
Qed.

Lemma scene_agrees_with_liveness_witness :
  In (mesh shot1) (scene (run two_shots init)) <-> alive shot1 = true.
Proof.
  apply (scene_agrees_with_liveness two_shots shot1).
  simpl. auto.
Defined.

(** ** The uniforms that follow the camera and the cube *)

Lemma wf_fixed_NoDup (w : World) : wf w -> NoDup (fixed_locs w).
Proof.
  intros [H _ _ _]. unfold vectors, static_locs in H.
  rewrite <- !app_assoc in H.
  apply NoDup_app_remove_l in H. apply NoDup_app_remove_l in H.
  now apply NoDup_app_remove_r in H.
Qed.

(** Two references of the fixed part of a well-formed world, taken at
    different places of [fixed_locs], are different vectors. *)
Lemma wf_fixed_neq (w : World) (i j : nat) (a b : loc) :
  wf w -> nth_error (fixed_locs w) i = Some a ->
  nth_error (fixed_locs w) j = Some b -> i <> j -> a <> b.
Proof.
  intros Hwf Hi Hj Hij ->. apply Hij.
  apply (proj1 (NoDup_nth_error (fixed_locs w)) (wf_fixed_NoDup w Hwf)).
  - apply nth_error_Some. now rewrite Hi.
  - now rewrite Hi, Hj.
Qed.

Lemma fixed_not_projectile (w : World) (l : loc) :
  wf w -> In l (fixed_locs w) ->
  ~ In l (flat_map projectile_locs (iterated w)).
Proof.
  intros Hwf Hl Hp. apply filter_locs_incl in Hp.
  destruct Hwf as [H _ _ _]. unfold vectors, static_locs in H.
  rewrite <- !app_assoc in H.
  apply NoDup_app_remove_l in H. apply NoDup_app_remove_l in H.
  exact (NoDup_app_disjoint _ _ _ H Hl Hp).
Qed.

Lemma before_pass_uniforms (w : World) :
  wf w ->
  heap (before_pass w) (viewPosition (alphabetMaterial w)) =
    heap w (position (camera w)) /\
  heap (before_pass w) (viewPosition (digitMaterial w)) =
    heap w (position (camera w)) /\
  heap (before_pass w) (cubePos (alphabetMaterial w)) =
    heap w (position (cubeMesh w)) /\
  heap (before_pass w) (cubePos (digitMaterial w)) =
    heap w (position (cubeMesh w)).
Proof.
  intro Hwf.
  pose proof (fun i j a b => wf_fixed_neq w i j a b Hwf) as N.
  unfold fixed_locs, material_locs in N.
  assert (N1 := N 5%nat 8%nat _ _ eq_refl eq_refl ltac:(lia)).
  assert (N2 := N 5%nat 3%nat _ _ eq_refl eq_refl ltac:(lia)).
  assert (N3 := N 5%nat 6%nat _ _ eq_refl eq_refl ltac:(lia)).
  assert (N4 := N 8%nat 3%nat _ _ eq_refl eq_refl ltac:(lia)).
  assert (N5 := N 8%nat 6%nat _ _ eq_refl eq_refl ltac:(lia)).
  assert (N6 := N 3%nat 6%nat _ _ eq_refl eq_refl ltac:(lia)).
  assert (N7 := N 0%nat 5%nat _ _ eq_refl eq_refl ltac:(lia)).
  assert (N8 := N 1%nat 5%nat _ _ eq_refl eq_refl ltac:(lia)).
  assert (N9 := N 1%nat 8%nat _ _ eq_refl eq_refl ltac:(lia)).
  assert (N10 := N 1%nat 3%nat _ _ eq_refl eq_refl ltac:(lia)).
  simpl in *.
  unfold before_pass, copy, write. simpl.
  repeat split.
  - rewrite !store_neq by assumption. apply store_eq.
  - rewrite !store_neq by congruence. rewrite store_eq.
    now rewrite store_neq by congruence.
  - rewrite !store_neq by congruence. rewrite store_eq.
    now rewrite !store_neq by congruence.
  - rewrite store_eq. now rewrite !store_neq by congruence.
Qed.

Lemma refs_fields (w w' : World) :
  refs w' = refs w ->
  camera w' = camera w /\ cubeMesh w' = cubeMesh w /\
  cubePos (alphabetMaterial w') = cubePos (alphabetMaterial w) /\
  viewPosition (alphabetMaterial w') = viewPosition (alphabetMaterial w) /\
  cubePos (digitMaterial w') = cubePos (digitMaterial w) /\
  viewPosition (digitMaterial w') = viewPosition (digitMaterial w).
Proof.
  unfold refs, material_locs. intro H.
  injection H as -> -> _ -> _ -> -> _ -> _ _. repeat split.
Qed.

Lemma animate_fixed (w : World) (l : loc) :
  wf w -> In l (fixed_locs w) ->
  heap (animate w) l = heap (before_pass w) l.
Proof.
  intros Hwf Hl. rewrite animate_eq.
  apply updateProjectiles_heap_other. rewrite before_pass_iterated.
  now apply fixed_not_projectile.
Qed.

Lemma fixed_locs_cube (w : World) : In (position (cubeMesh w)) (fixed_locs w).
Proof. unfold fixed_locs. simpl. auto. Qed.

Lemma fixed_locs_camera (w : World) : In (position (camera w)) (fixed_locs w).
Proof. unfold fixed_locs. simpl. auto. Qed.

Lemma not_uniform_cube (w : World) :
  wf w -> ~ In (position (cubeMesh w)) (uniform_locs w).
Proof.
  intro Hwf.
  pose proof (fun i j a b => wf_fixed_neq w i j a b Hwf) as N.
  unfold fixed_locs, material_locs in N.
  assert (N1 := N 1%nat 5%nat _ _ eq_refl eq_refl ltac:(lia)).
  assert (N2 := N 1%nat 8%nat _ _ eq_refl eq_refl ltac:(lia)).
  assert (N3 := N 1%nat 3%nat _ _ eq_refl eq_refl ltac:(lia)).
  assert (N4 := N 1%nat 6%nat _ _ eq_refl eq_refl ltac:(lia)).
  unfold uniform_locs. simpl in *. intuition congruence.
Qed.

Lemma not_uniform_camera (w : World) :
  wf w -> ~ In (position (camera w)) (uniform_locs w).
Proof.
  intro Hwf.
  pose proof (fun i j a b => wf_fixed_neq w i j a b Hwf) as N.
  unfold fixed_locs, material_locs in N.
  assert (N1 := N 0%nat 5%nat _ _ eq_refl eq_refl ltac:(lia)).
  assert (N2 := N 0%nat 8%nat _ _ eq_refl eq_refl ltac:(lia)).
  assert (N3 := N 0%nat 3%nat _ _ eq_refl eq_refl ltac:(lia)).
  assert (N4 := N 0%nat 6%nat _ _ eq_refl eq_refl ltac:(lia)).
  unfold uniform_locs. simpl in *. intuition congruence.
Qed.

(** A frame moves neither the cube nor the camera. *)
Lemma animate_cube_camera (w : World) :
  wf w ->
  heap (animate w) (position (cubeMesh w)) = heap w (position (cubeMesh w)) /\
  heap (animate w) (position (camera w)) = heap w (position (camera w)).
Proof.
  intro Hwf. split.
  - rewrite animate_fixed by (auto using fixed_locs_cube).
    apply before_pass_heap. now apply not_uniform_cube.
  - rewrite animate_fixed by (auto using fixed_locs_camera).
    apply before_pass_heap. now apply not_uniform_camera.
Qed.

(** X4.  After a frame of a well-formed world, each material's
    [viewPosition] uniform holds the components of the camera's
    position and each [cubePos] uniform those of the cube's position,
    and the frame has moved neither the camera nor the cube.  The
    uniforms are copies: a press of [w] after the frame moves the cube
    and leaves the [cubePos] uniforms where they were, 0.1 behind on Y
    until the next frame. *)
Theorem uniforms_follow_camera_and_cube (w : World) (r1 r2 r3 : R) :
  wf w ->
  let w' := animate w in
  let cam := position (camera w') in
  let cube := position (cubeMesh w') in
  heap w' cam = heap w (position (camera w)) /\
  heap w' cube = heap w (position (cubeMesh w)) /\
  heap w' (viewPosition (alphabetMaterial w')) = heap w' cam /\
  heap w' (viewPosition (digitMaterial w')) = heap w' cam /\
  heap w' (cubePos (alphabetMaterial w')) = heap w' cube /\
  heap w' (cubePos (digitMaterial w')) = heap w' cube /\
  (let w'' := keydown "w" r1 r2 r3 w' in
   Vector3.y (heap w'' cube) =
     Vector3.y (heap w'' (cubePos (alphabetMaterial w''))) + 0.1 /\
   Vector3.y (heap w'' cube) =
     Vector3.y (heap w'' (cubePos (digitMaterial w''))) + 0.1).
Proof.
  intros Hwf w' cam cube.
  pose proof (wf_animate w Hwf) as Hwf'. fold w' in Hwf'.
  destruct (refs_fields w w' (animate_refs w)) as (Ec & Em & E1 & E2 & E3 & E4).
  destruct (animate_cube_camera w Hwf) as [Hcube Hcam].
  destruct (before_pass_uniforms w Hwf) as (U1 & U2 & U3 & U4).
  assert (F : forall l, In l (uniform_locs w) -> heap w' l = heap (before_pass w) l).
  { intros l Hl. apply animate_fixed; [assumption |].
    unfold uniform_locs, fixed_locs, material_locs in *. simpl in *.
    intuition. }
  unfold cam, cube. rewrite Ec, Em, E1, E2, E3, E4. fold w'.
  assert (A1 : heap w' (viewPosition (alphabetMaterial w)) =
               heap w (position (camera w)))
    by (rewrite F, U1; [reflexivity | unfold uniform_locs; simpl; auto]).
  assert (A2 : heap w' (viewPosition (digitMaterial w)) =
               heap w (position (camera w)))
    by (rewrite F, U2; [reflexivity | unfold uniform_locs; simpl; auto]).
  assert (A3 : heap w' (cubePos (alphabetMaterial w)) =
               heap w (position (cubeMesh w)))
    by (rewrite F, U3; [reflexivity | unfold uniform_locs; simpl; auto]).
  assert (A4 : heap w' (cubePos (digitMaterial w)) =
               heap w (position (cubeMesh w)))
    by (rewrite F, U4; [reflexivity | unfold uniform_locs; simpl; auto]).
  fold w' in Hcube, Hcam. clearbody w'.
  split; [exact Hcam |]. split; [exact Hcube |].
  split; [now rewrite A1, Hcam |]. split; [now rewrite A2, Hcam |].
  split; [now rewrite A3, Hcube |]. split; [now rewrite A4, Hcube |].
  cbv zeta.
  change (keydown "w" r1 r2 r3 w')
    with (add_y (position (cubeMesh w')) 0.1 w').
  rewrite Em.
  destruct (add_y_translated (position (cubeMesh w)) 0.1 w') as (Ey & Eo & _).
  change (alphabetMaterial (add_y (position (cubeMesh w)) 0.1 w'))
    with (alphabetMaterial w').
  change (digitMaterial (add_y (position (cubeMesh w)) 0.1 w'))
    with (digitMaterial w').
  rewrite E1, E3, Ey.
  pose proof (not_uniform_cube w Hwf) as Hnu. unfold uniform_locs in Hnu.
  rewrite !Eo by (intro E; apply Hnu; rewrite <- E; simpl; auto).
  rewrite A3, A4, Hcube. simpl. split; reflexivity.
Qed.

Lemma uniforms_follow_camera_and_cube_witness :
  let w' := animate (run two_shots init) in
  heap w' (cubePos (alphabetMaterial w')) = heap w' (position (cubeMesh w')) /\
  heap w' (viewPosition (digitMaterial w')) = heap w' (position (camera w')).
Proof.
  intro w'.
  destruct (uniforms_follow_camera_and_cube (run two_shots init) 0 0 0)
    as (_ & _ & _ & H2 & H3 & _).
  - apply wf_run, wf_init.
  - split; assumption.
Defined.

(** ** The clock *)

Lemma tick_clock (p : Projectile) (w : World) :
  time (snd (tick p w)) = time w /\
  cube_rotation_x (snd (tick p w)) = cube_rotation_x w /\
  cube_rotation_y (snd (tick p w)) = cube_rotation_y w.
Proof. unfold_ops. case_conditions; repeat split. Qed.

Lemma forEach_tick_clock (ps : list Projectile) (w : World) :
  time (snd (forEach tick ps w)) = time w /\
  cube_rotation_x (snd (forEach tick ps w)) = cube_rotation_x w /\
  cube_rotation_y (snd (forEach tick ps w)) = cube_rotation_y w.
Proof.
  revert w. induction ps as [| p ps IH]; intro w; [repeat split |].
  rewrite forEach_cons. simpl snd.
  destruct (IH (snd (tick p w))) as (-> & -> & ->). apply tick_clock.
Qed.

Lemma animate_clock (w : World) :
  time (animate w) = time w + 0.05 /\
  cube_rotation_x (animate w) = cube_rotation_x w + 0.01 /\
  cube_rotation_y (animate w) = cube_rotation_y w + 0.01.
Proof.
  rewrite animate_eq, updateProjectiles_eq.
  change (time (with_projectiles ?a ?b)) with (time a).
  change (cube_rotation_x (with_projectiles ?a ?b)) with (cube_rotation_x a).
  change (cube_rotation_y (with_projectiles ?a ?b)) with (cube_rotation_y a).
  destruct (forEach_tick_clock (iterated (before_pass w))
              (with_projectiles (before_pass w) (iterated (before_pass w))))
    as (-> & -> & ->).
  repeat split.
Qed.

Lemma keydown_clock (key : string) (r1 r2 r3 : R) (w : World) :
  time (keydown key r1 r2 r3 w) = time w /\
  cube_rotation_x (keydown key r1 r2 r3 w) = cube_rotation_x w /\
  cube_rotation_y (keydown key r1 r2 r3 w) = cube_rotation_y w.
Proof.
  unfold keydown.
  repeat match goal with
    | |- context [String.eqb ?a ?b] => destruct (String.eqb a b)
    end; repeat split.
Qed.

Lemma run_clock (es : list Event) (w : World) :
  time (run es w) = time w + 0.05 * INR (frames es) /\
  cube_rotation_x (run es w) = cube_rotation_x w + 0.01 * INR (frames es) /\
  cube_rotation_y (run es w) = cube_rotation_y w + 0.01 * INR (frames es).
Proof.
  revert w. induction es as [| e es IH]; intro w.
  - simpl. repeat split; lra.
  - change (run (e :: es) w) with (run es (step w e)).
    destruct (IH (step w e)) as (-> & -> & ->).
    destruct e as [| key r1 r2 r3 |]; unfold step.
    + destruct (animate_clock w) as (-> & -> & ->).
      change (frames (Frame :: es)) with (S (frames es)).
      rewrite S_INR. repeat split; lra.
    + destruct (keydown_clock key r1 r2 r3 w) as (-> & -> & ->).
      repeat split.
    + repeat split.
Qed.

(** X5.  Only frames advance the clock: after any run, the time uniform
    of the cube's material is 0.05 times the number of frames so far,
    and the cube's rotation about X and about Y is 0.01 times that
    number; key presses and the loading of the font change neither. *)
Theorem clock_counts_frames (es : list Event) :
  time (run es init) = 0.05 * INR (frames es) /\
  cube_rotation_x (run es init) = 0.01 * INR (frames es) /\
  cube_rotation_y (run es init) = 0.01 * INR (frames es).
Proof.
  destruct (run_clock es init) as (-> & -> & ->).
  simpl. repeat split; lra.
Qed.

(** ** The two highlights exclude each other *)

(** No point is within 2 of both anchors. *)
Lemma near_one_anchor_only (v : Vector3) :
  Vector3.distanceTo v (Vector3.mk (-2) 0 0) < DETECTION_RADIUS ->
  Vector3.distanceTo v (Vector3.mk 2 0 0) < DETECTION_RADIUS ->
  False.
Proof.
  unfold DETECTION_RADIUS. intros H1 H2.
  assert (P1 : 0 <= Vector3.distanceTo v (Vector3.mk (-2) 0 0))
    by apply sqrt_pos.
  assert (P2 : 0 <= Vector3.distanceTo v (Vector3.mk 2 0 0))
    by apply sqrt_pos.
  assert (S1 : Vector3.distanceTo v (Vector3.mk (-2) 0 0)
               * Vector3.distanceTo v (Vector3.mk (-2) 0 0)
               = Vector3.distanceToSquared v (Vector3.mk (-2) 0 0)).
  { apply sqrt_sqrt. unfold Vector3.distanceToSquared. cbv zeta.
    apply sum_squares_nonneg. }
  assert (S2 : Vector3.distanceTo v (Vector3.mk 2 0 0)
               * Vector3.distanceTo v (Vector3.mk 2 0 0)
               = Vector3.distanceToSquared v (Vector3.mk 2 0 0)).
  { apply sqrt_sqrt. unfold Vector3.distanceToSquared. cbv zeta.
    apply sum_squares_nonneg. }
  unfold Vector3.distanceToSquared in *. simpl in *.
  destruct v as [x y z]. simpl in *.
  set (D1 := Vector3.distanceTo _ _) in *.
  set (D2 := Vector3.distanceTo _ _) in *.
  assert (D1 * D1 < 4) by nra. assert (D2 * D2 < 4) by nra.
  nra.
Qed.

Lemma exclusive_animate (w : World) :
  highlight_ok w -> ~ both_elevated w -> ~ both_elevated (animate w).
Proof.
  intros (Hwf & Hanc & _) Hex.
  pose proof (anchored_animate w Hwf Hanc) as [HN HD].
  pose proof (animate_refs w) as Hr.
  unfold both_elevated in *.
  destruct (letterN w) as [n |] eqn:En; [destruct (number1 w) as [d |] eqn:Ed |].
  - destruct (iterated w) as [| p0 ps0] eqn:Eit.
    + destruct (animate_empty w Eit) as (_ & -> & ->). assumption.
    + destruct (exists_last (l := p0 :: ps0)) as (ps & pl & Hlast);
        [discriminate |].
      rewrite Hlast in Eit.
      destruct (animate_last w n d ps pl En Ed Eit) as [-> ->].
      rewrite (HN n), (HD d)
        by (rewrite ?(refs_letterN _ _ Hr), ?(refs_number1 _ _ Hr);
            assumption).
      intros [E1 E2].
      destruct (Rlt_dec _ _) as [N1 | _] in E1; [| lra].
      destruct (Rlt_dec _ _) as [N2 | _] in E2; [| lra].
      exact (near_one_anchor_only _ N1 N2).
  - destruct (animate_missing w (or_intror Ed)) as [-> ->]. assumption.
  - destruct (animate_missing w (or_introl En)) as [-> ->]. assumption.
Qed.

Lemma exclusive_run (es : list Event) (w : World) :
  highlight_ok w -> ~ both_elevated w -> ~ both_elevated (run es w).
Proof.
  revert w. induction es as [| e es IH]; intros w Hok Hex; [assumption |].
  change (run (e :: es) w) with (run es (step w e)).
  apply IH; [now apply highlight_ok_step |].
  destruct e as [| key r1 r2 r3 |]; unfold step.
  - now apply exclusive_animate.
  - unfold both_elevated.
    destruct (keydown_ambient key r1 r2 r3 w) as [-> ->]. assumption.
  - assumption.
Qed.

(** X6.  The letter and the digit are never highlighted together: in
    no state the program reaches do both intensity uniforms hold
    0.8. *)
Theorem never_both_highlighted (es : list Event) :
  ~ (ambientIntensity (alphabetMaterial (run es init)) = 0.8 /\
     ambientIntensity (digitMaterial (run es init)) = 0.8).
Proof.
  apply (exclusive_run es init highlight_ok_init).
  unfold both_elevated. simpl. lra.
Qed.

(** ** The text meshes *)

Lemma font_status_step (w : World) (e : Event) :
  (letterN (step w e) = None <-> letterN w = None /\ e <> FontLoaded) /\
  (number1 (step w e) = None <-> number1 w = None /\ e <> FontLoaded).
Proof.
  destruct e as [| key r1 r2 r3 |]; unfold step.
  - rewrite (refs_letterN _ _ (animate_refs w)),
      (refs_number1 _ _ (animate_refs w)).
    split; split; try tauto; intro H; split; try assumption; discriminate.
  - rewrite (refs_letterN _ _ (keydown_refs key r1 r2 r3 w)),
      (refs_number1 _ _ (keydown_refs key r1 r2 r3 w)).
    split; split; try tauto; intro H; split; try assumption; discriminate.
  - change (letterN (font_loaded w)) with (Some {| position := next w |}).
    change (number1 (font_loaded w)) with (Some {| position := S (next w) |}).
    split; split; try discriminate; intros [_ H]; now contradiction H.
Qed.

Lemma font_status_run (es : list Event) (w : World) :
  (letterN (run es w) = None <-> letterN w = None /\ ~ In FontLoaded es) /\
  (number1 (run es w) = None <-> number1 w = None /\ ~ In FontLoaded es).
Proof.
  revert w. induction es as [| e es IH]; intro w.
  - simpl. tauto.
  - change (run (e :: es) w) with (run es (step w e)).
    destruct (IH (step w e)) as [IN ID].
    destruct (font_status_step w e) as [SN SD].
    rewrite IN, ID, SN, SD. simpl.
    split; split; intros H; intuition congruence.
Qed.

(** X7.  The text meshes exist exactly once the loader callback has
    run, both or neither, and nothing moves them: in every state the
    program reaches the letter is at (-2, 0, 0) and the digit at
    (2, 0, 0). *)
Theorem text_meshes_stay_put (es : list Event) :
  let w := run es init in
  (letterN w = None <-> ~ In FontLoaded es) /\
  (number1 w = None <-> ~ In FontLoaded es) /\
  (forall n, letterN w = Some n ->
             heap w (position n) = Vector3.mk (-2) 0 0) /\
  (forall d, number1 w = Some d ->
             heap w (position d) = Vector3.mk 2 0 0).
Proof.
  intro w.
  destruct (font_status_run es init) as [HN HD]. fold w in HN, HD.
  destruct (highlight_ok_run es init highlight_ok_init) as (_ & Hanc & _).
  fold w in Hanc. clearbody w. destruct Hanc as [A1 A2].
  change (letterN init) with (@None Object3D) in HN.
  change (number1 init) with (@None Object3D) in HD.
  split; [rewrite HN; tauto |]. split; [rewrite HD; tauto |].
  split; assumption.
Qed.

(** ** A spawn with no direction *)

Lemma normalize_zero :
  Vector3.normalize (Vector3.mk (0.5 - 0.5) (0.5 - 0.5) (0.5 - 0.5)) =
  Vector3.zero.
Proof.
  destruct (normalize_length
              (Vector3.mk (0.5 - 0.5) (0.5 - 0.5) (0.5 - 0.5)))
    as [[_ E] | E]; [assumption | exfalso].
  unfold Vector3.normalize in E.
  rewrite (length_eq (Vector3.mk (0.5 - 0.5) (0.5 - 0.5) (0.5 - 0.5)) 0) in E
    by (try lra; unfold lengthSq; simpl; lra).
  destruct (Req_dec_T 0 0) as [_ | N]; [| lra].
  rewrite (length_eq _ 0) in E; [lra | lra |].
  unfold lengthSq. simpl. lra.
Qed.

(** X8.  When the three draws are all 0.5 the raw direction is the zero
    vector; [normalize] leaves it zero, and the projectile never moves:
    at every later moment of the run its direction is (0, 0, 0) and its
    position is the position the cube had at the spawn. *)
Theorem spawn_without_direction_stays (w : World) (es : list Event) :
  wf w ->
  let p := spawned w in
  let w' := run es (keydown " " 0.5 0.5 0.5 w) in
  heap w' (direction p) = Vector3.zero /\
  heap w' (position (mesh p)) = heap w (position (cubeMesh w)).
Proof.
  intros Hwf p w'.
  change (keydown " " 0.5 0.5 0.5 w) with (spawn 0.5 0.5 0.5 w) in w'.
  pose proof (spawn_tracked 0.5 0.5 0.5 w Hwf) as T0.
  rewrite normalize_zero in T0.
  destruct (tracked_run p _ _ es 0 _ eq_refl T0) as (j & _ & _ & _ & Ed & Ep).
  fold w' in Ed, Ep. rewrite Ed, Ep.
  split; apply Vector3_eq; simpl; lra.
Qed.

Lemma spawn_without_direction_stays_witness :
  let p := spawned init in
  let w' := run [Frame; Frame; KeyDown "w" 0 0 0; Frame]
              (keydown " " 0.5 0.5 0.5 init) in
  heap w' (direction p) = Vector3.zero /\
  heap w' (position (mesh p)) = heap init (position (cubeMesh init)).
Proof.
  apply (spawn_without_direction_stays init
           [Frame; Frame; KeyDown "w" 0 0 0; Frame] wf_init).
Defined.

(** ** A spawn out of range *)

Lemma length_sub_le (u v : Vector3) :
  Vector3.length u - Vector3.length v <= Vector3.length (Vector3.add u v).
Proof.
  pose proof (length_add (Vector3.add u v)
                (Vector3.mk (- Vector3.x v) (- Vector3.y v) (- Vector3.z v)))
    as H.
  replace (Vector3.add (Vector3.add u v)
             (Vector3.mk (- Vector3.x v) (- Vector3.y v) (- Vector3.z v)))
    with u in H by (apply Vector3_eq; simpl; lra).
  rewrite (length_eq (Vector3.mk (- Vector3.x v) (- Vector3.y v)
                        (- Vector3.z v)) (Vector3.length v)) in H.
  - lra.
  - apply length_nonneg.
  - rewrite length_sq. unfold lengthSq. simpl. ring.
Qed.

(** X9.  A projectile spawned while the cube is farther than 10.1 from
    the origin is destroyed by the first frame after the spawn: that
    frame clears its flag and removes its mesh from the scene, and the
    frame after it does not iterate it. *)
Theorem spawn_out_of_range_dies_at_once (w : World) (r1 r2 r3 : R) :
  wf w ->
  Vector3.length (heap w (position (cubeMesh w))) > 10.1 ->
  let p := spawned w in
  let w1 := animate (keydown " " r1 r2 r3 w) in
  In (with_alive p false) (projectiles w1) /\
  ~ In (mesh p) (scene w1) /\
  ~ In (mesh p) (map mesh (iterated w1)) /\
  ~ In (mesh p) (map mesh (projectiles (animate w1))).
Proof.
  intros Hwf Hfar p w1.
  change (keydown " " r1 r2 r3 w) with (spawn r1 r2 r3 w) in w1.
  destruct (spawn_then_frame r1 r2 r3 w Hwf) as (_ & Ep & Hin).
  fold p w1 in Ep, Hin.
  assert (Hlen : Vector3.length (heap w1 (position (mesh p))) > 10).
  { rewrite Ep.
    pose proof (length_sub_le (heap w (position (cubeMesh w)))
                  (Vector3.multiplyScalar
                     (Vector3.normalize
                        (Vector3.mk (r1 - 0.5) (r2 - 0.5) (r3 - 0.5)))
                     PROJECTILE_SPEED)) as H.
    rewrite length_multiplyScalar in H by (unfold PROJECTILE_SPEED; lra).
    pose proof (normalize_length_le
                  (Vector3.mk (r1 - 0.5) (r2 - 0.5) (r3 - 0.5))) as Hn.
    unfold PROJECTILE_SPEED in *. lra. }
  destruct (Rgt_dec _ 10) as [_ | N]; [| contradiction].
  pose proof (wf_spawn r1 r2 r3 w Hwf) as Hwf0.
  destruct (animate_far _ (with_alive p false) Hwf0 Hin Hlen) as [_ Hout].
  assert (Hdead : stays_dead (mesh p) w1).
  { split; [now apply wf_animate |]. split.
    - now apply (wf_projectile w1 (with_alive p false) (wf_animate _ Hwf0) Hin).
    - intros q Hq Hm. apply (animate_far _ q Hwf0 Hq).
      rewrite Hm. exact Hlen. }
  split; [exact Hin |]. split; [exact Hout |].
  split; [now apply stays_dead_absent |].
  rewrite animate_mesh. now apply stays_dead_absent.
Qed.

Lemma spawn_out_of_range_dies_at_once_witness :
  let w := add_y (position (cubeMesh init)) 10.2 init in
  let p := spawned w in
  let w1 := animate (keydown " " 0.5 0.75 0.5 w) in
  In (with_alive p false) (projectiles w1) /\
  ~ In (mesh p) (scene w1) /\
  ~ In (mesh p) (map mesh (iterated w1)) /\
  ~ In (mesh p) (map mesh (projectiles (animate w1))).
Proof.
  apply (spawn_out_of_range_dies_at_once
           (add_y (position (cubeMesh init)) 10.2 init) 0.5 0.75 0.5).
  - apply wf_write, wf_init.
  - rewrite (length_eq _ 10.2); [lra | lra |].
    unfold lengthSq. simpl. lra.
Defined.

(** ** Translations by key *)

(** Two worlds built by writes of translated vectors are equal when
    their heaps agree at every address. *)
Ltac world_eq :=
  unfold keydown; simpl;
  unfold add_x, add_y, add_z, write, with_heap; simpl;
  try match goal with
    | w : World |- _ = ?x => is_var x; destruct x; simpl
    end;
  f_equal; apply functional_extensionality; intro;
  unfold store;
  repeat match goal with
    | |- context [Nat.eqb ?a ?b] =>
        destruct (Nat.eqb_spec a b); subst; try congruence
    end;
  repeat match goal with
    | e : position (camera _) = position (cubeMesh _) |- _ =>
        rewrite ?e; clear e
    | e : position (cubeMesh _) = position (camera _) |- _ =>
        rewrite <- ?e; clear e
    end;
  try reflexivity; try (apply Vector3_eq; simpl; lra).

(** X10.  Presses of translation keys commute: two of the keys [w],
    [s], [a], [d], [q], [e] that are not an opposite pair write to
    different coordinates, or to the same coordinate by the same
    amount, so pressing them in either order gives the same world.
    (An opposite pair adds 0.1 and -0.1 to one coordinate; the two
    orders agree over the reals but need not under rounding, so the
    pair is left out.) *)
Theorem translations_commute (w : World) (k1 k2 : string)
  (r1 r2 r3 r1' r2' r3' : R) :
  In k1 translation_keys -> In k2 translation_keys ->
  ~ opposite k1 k2 ->
  keydown k1 r1 r2 r3 (keydown k2 r1' r2' r3' w) =
  keydown k2 r1' r2' r3' (keydown k1 r1 r2 r3 w).
Proof.
  unfold translation_keys. simpl. intros H1 H2 _.
  repeat match goal with
    | H : _ \/ _ |- _ => destruct H as [H | H]
    | H : False |- _ => contradiction
    end; subst; world_eq.
Qed.

Lemma translations_commute_witness :
  keydown "w" 0 0 0 (keydown "a" 0 0 0 init) =
  keydown "a" 0 0 0 (keydown "w" 0 0 0 init).
Proof.
  apply (translations_commute init "w" "a"); simpl; [auto | auto |].
  unfold opposite. simpl. intuition congruence.
Defined.

(** ** Projectiles pile up *)

Lemma filter_all (ps : list Projectile) :
  (forall p, In p ps -> alive p = true) -> filter alive ps = ps.
Proof.
  induction ps as [| p ps IH]; intro H; [reflexivity |].
  simpl. rewrite (H p) by now left. f_equal. apply IH.
  intros q Hq. apply H. now right.
Qed.

Lemma calm_iterated (w : World) : calm w -> iterated w = projectiles w.
Proof.
  intros (_ & _ & H). apply filter_all. intros p Hp. now apply (H p Hp).
Qed.

Lemma calm_animate (w : World) :
  calm w -> calm (animate w) /\ projectiles (animate w) = projectiles w.
Proof.
  intros Hcalm. pose proof (calm_iterated w Hcalm) as Hit.
  destruct Hcalm as (Hwf & Hcube & Hall).
  assert (Hstep : forall q, In q (projectiles w) ->
            settle (heap (animate w)) q = q /\ cruising (animate w) q).
  { intros q Hq. destruct (Hall q Hq) as (Ha & p0 & d0 & k & Hp0 & Hd0 & Ed & Ep).
    assert (Hqi : In q (iterated w)) by now rewrite Hit.
    destruct (animate_elem w q Hwf Hqi) as (E1 & E2 & _).
    rewrite Ed in E1. rewrite Ed, Ep in E2.
    assert (Ep' : heap (animate w) (position (mesh q)) =
                  Vector3.add p0
                    (Vector3.multiplyScalar d0 ((1 - 0.1 ^ S k) / 9))).
    { rewrite E2. unfold PROJECTILE_SPEED. apply Vector3_eq; simpl; lra. }
    split.
    - unfold settle. rewrite Ep'.
      pose proof (in_flight_near p0 d0 (S k) Hp0 Hd0).
      destruct (Rgt_dec _ 10); [lra | reflexivity].
    - split; [assumption |]. exists p0, d0, (S k).
      split; [assumption |]. split; [assumption |]. split; [| assumption].
      rewrite E1. unfold PROJECTILE_SPEED. apply Vector3_eq; simpl; lra. }
  assert (Eps : projectiles (animate w) = projectiles w).
  { rewrite (animate_map w Hwf), Hit.
    rewrite <- (map_id (projectiles w)) at 2.
    apply map_ext_in. intros q Hq. now apply Hstep. }
  split; [| assumption].
  split; [now apply wf_animate |]. split.
  - destruct (refs_fields w (animate w) (animate_refs w)) as (_ & -> & _).
    destruct (animate_cube_camera w Hwf) as [-> _]. assumption.
  - intros p Hp. rewrite Eps in Hp. now apply Hstep.
Qed.

Lemma keydown_still (key : string) (r1 r2 r3 : R) (w : World) :
  wf w -> ~ moves_cube (KeyDown key r1 r2 r3) ->
  heap (keydown key r1 r2 r3 w) (position (cubeMesh w)) =
  heap w (position (cubeMesh w)).
Proof.
  intros Hwf Hkey. simpl in Hkey. unfold keydown.
  pose proof (wf_camera_cube w Hwf) as Hne.
  pose proof (wf_cubeMesh w Hwf) as Hb.
  repeat match goal with
    | |- context [String.eqb ?a ?b] =>
        destruct (String.eqb_spec a b) as [E | _];
        [try (exfalso; apply Hkey; rewrite E; simpl; tauto) |]
    end;
    try (unfold add_x, write; simpl; apply store_neq; congruence).
  - now apply spawn_heap_old.
  - reflexivity.
Qed.

Lemma keydown_length (key : string) (r1 r2 r3 : R) (w : World) :
  List.length (projectiles (keydown key r1 r2 r3 w)) =
  (List.length (projectiles w) + spaces [KeyDown key r1 r2 r3])%nat.
Proof.
  unfold keydown. cbn [spaces].
  destruct (String.eqb_spec key "w") as [-> | _]; [simpl; lia |].
  destruct (String.eqb_spec key "s") as [-> | _]; [simpl; lia |].
  destruct (String.eqb_spec key "a") as [-> | _]; [simpl; lia |].
  destruct (String.eqb_spec key "d") as [-> | _]; [simpl; lia |].
  destruct (String.eqb_spec key "q") as [-> | _]; [simpl; lia |].
  destruct (String.eqb_spec key "e") as [-> | _]; [simpl; lia |].
  destruct (String.eqb key " "); [| lia].
  rewrite spawn_projectiles, length_app. simpl. lia.
Qed.

Lemma calm_keydown (key : string) (r1 r2 r3 : R) (w : World) :
  calm w -> ~ moves_cube (KeyDown key r1 r2 r3) ->
  calm (keydown key r1 r2 r3 w).
Proof.
  intros (Hwf & Hcube & Hall) Hkey.
  pose proof (keydown_still key r1 r2 r3 w Hwf Hkey) as Hstill.
  destruct (refs_fields w _ (keydown_refs key r1 r2 r3 w)) as (_ & Em & _).
  split; [now apply wf_keydown |]. split; [now rewrite Em, Hstill |].
  assert (Hold : forall p, In p (projectiles w) ->
                           cruising (keydown key r1 r2 r3 w) p).
  { intros p Hp.
    destruct (Hall p Hp) as (Ha & p0 & d0 & k & Hp0 & Hd0 & Ed & Ep).
    destruct (keys_projectile_heap [KeyDown key r1 r2 r3] w p Hwf)
      as [E1 E2]; [repeat constructor | assumption |].
    change (run [KeyDown key r1 r2 r3] w) with (keydown key r1 r2 r3 w) in *.
    split; [assumption |]. exists p0, d0, k. rewrite E1, E2. auto. }
  destruct (keydown_cases key r1 r2 r3 w) as [[Ep _] | Es].
  - intros p Hp. rewrite Ep in Hp. now apply Hold.
  - intros p Hp. pose proof Hp as Hp'. rewrite Es, spawn_projectiles in Hp'.
    apply in_app_or in Hp' as [Hp' | [<- | []]]; [now apply Hold |].
    rewrite Es.
    destruct (spawn_in_flight r1 r2 r3 w Hwf) as (_ & _ & _ & Ed & Epos).
    split; [reflexivity |].
    exists (heap w (position (cubeMesh w))),
      (Vector3.normalize (Vector3.mk (r1 - 0.5) (r2 - 0.5) (r3 - 0.5))), 0%nat.
    split; [assumption |]. split; [apply normalize_length_le |].
    split; assumption.
Qed.

Lemma calm_font_loaded (w : World) : calm w -> calm (font_loaded w).
Proof.
  intros (Hwf & Hcube & Hall).
  split; [now apply wf_font_loaded |]. split.
  - change (cubeMesh (font_loaded w)) with (cubeMesh w).
    rewrite font_loaded_heap_old by now apply wf_cubeMesh. assumption.
  - intros p Hp. rewrite font_loaded_projectiles in Hp.
    destruct (Hall p Hp) as (Ha & p0 & d0 & k & Hp0 & Hd0 & Ed & Ep).
    destruct (wf_projectile w p Hwf Hp) as (_ & Hbp & Hbd & _).
    split; [assumption |]. exists p0, d0, k.
    rewrite !font_loaded_heap_old by assumption. auto.
Qed.

Lemma calm_run (es : list Event) (w : World) :
  calm w -> Forall (fun e => ~ moves_cube e) es ->
  calm (run es w) /\
  List.length (projectiles (run es w)) =
    (List.length (projectiles w) + spaces es)%nat.
Proof.
  revert w. induction es as [| e es IH]; intros w Hcalm Hes.
  - split; [assumption | simpl; lia].
  - inversion Hes as [| ? ? He Hes']; subst.
    change (run (e :: es) w) with (run es (step w e)).
    destruct e as [| key r1 r2 r3 |]; unfold step.
    + destruct (calm_animate w Hcalm) as [Hc Ep].
      destruct (IH _ Hc Hes') as [Hc' ->]. rewrite Ep.
      split; [assumption | reflexivity].
    + destruct (IH _ (calm_keydown key r1 r2 r3 w Hcalm He) Hes') as [Hc' ->].
      split; [assumption |]. rewrite keydown_length.
      simpl. destruct (String.eqb key " "); lia.
    + destruct (IH _ (calm_font_loaded w Hcalm) Hes') as [Hc' ->].
      split; [assumption |]. now rewrite font_loaded_projectiles.
Qed.

Lemma calm_init : calm init.
Proof.
  split; [apply wf_init |]. split.
  - change (heap init (position (cubeMesh init))) with Vector3.zero.
    rewrite (length_eq _ 0); [lra | lra |]. unfold lengthSq. simpl. ring.
  - intros p Hp. contradiction.
Qed.

(** X11.  While the cube is left at the origin, no projectile is ever
    removed: after any run without presses of [w], [s], [q], [e], the
    array holds one entry for each press of the space bar, every entry
    is alive, and the next pass iterates all of them. *)
Theorem projectiles_pile_up (es : list Event) :
  Forall (fun e => ~ moves_cube e) es ->
  let w := run es init in
  List.length (projectiles w) = spaces es /\
  (forall p, In p (projectiles w) -> alive p = true) /\
  iterated w = projectiles w.
Proof.
  intros Hes w. destruct (calm_run es init calm_init Hes) as [Hc Hl].
  fold w in Hc, Hl. clearbody w.
  split; [exact Hl |]. split; [| now apply calm_iterated].
  intros p Hp. destruct Hc as (_ & _ & Hall). now apply (Hall p Hp).
Qed.

Lemma projectiles_pile_up_witness :
  let w := run [KeyDown " " 0 0.5 0.5; Frame; KeyDown "a" 0 0 0;
                KeyDown " " 0.75 0.5 0.5; Frame; Frame] init in
  List.length (projectiles w) = 2%nat /\
  (forall p, In p (projectiles w) -> alive p = true) /\
  iterated w = projectiles w.
Proof.
  apply (projectiles_pile_up
           [KeyDown " " 0 0.5 0.5; Frame; KeyDown "a" 0 0 0;
            KeyDown " " 0.75 0.5 0.5; Frame; Frame]).
  repeat constructor; simpl; intuition discriminate.
Defined.

(** ** The shaders *)

(** X12.  The cube pulses within fixed bounds: in every state the
    program reaches, the shader of the cube gives every fragment the
    same grey, with red, green and blue equal to
    1 + 0.3 sin(0.1 n) after n frames, between 0.7 and 1.3, and
    alpha 1. *)
Theorem cube_glow_bounded (es : list Event) :
  let c := cube_fragment (time (run es init)) in
  Vector3.x (fst c) = 1 + 0.3 * sin (0.1 * INR (frames es)) /\
  Vector3.y (fst c) = Vector3.x (fst c) /\
  Vector3.z (fst c) = Vector3.x (fst c) /\
  0.7 <= Vector3.x (fst c) <= 1.3 /\
  snd c = 1.
Proof.
  intro c. subst c.
  destruct (run_clock es init) as (-> & _ & _).
  change (time init) with 0. unfold cube_fragment. simpl.
  replace ((0 + 0.05 * INR (frames es)) * 2.0)
    with (0.1 * INR (frames es)) by lra.
  pose proof (SIN_bound (0.1 * INR (frames es))) as [Hlo Hhi].
  repeat split; lra.
Qed.

Lemma pow_max_nonneg (x : R) (n : nat) : 0 <= Rmax x 0.0 ^ n.
Proof. apply pow_le. pose proof (Rmax_r x 0.0). lra. Qed.

(** X13.  The intensity uniform only shifts the colour: with the other
    uniforms and the varyings equal, the colour of a fragment at
    intensity [j] is its colour at intensity [i] plus [j - i] times the
    base colour, in both text shaders; so the highlight, which raises
    the uniform from 0.401 to 0.8, adds 0.399 times the base colour to
    every fragment of the mesh, whatever its normal and its place
    are. *)
Theorem highlight_adds_base_colour
  (cubePos baseColor viewPosition vNormal vWorldPos : Vector3) (i j : R) :
  let alphabet k := fst (alphabet_fragment cubePos baseColor viewPosition k
                           vNormal vWorldPos) in
  let digit k := fst (digit_fragment cubePos baseColor viewPosition k
                        vNormal vWorldPos) in
  alphabet j = Vector3.add (alphabet i) (GLSL.scale (j - i) baseColor) /\
  digit j = Vector3.add (digit i) (GLSL.scale (j - i) baseColor) /\
  alphabet 0.8 = Vector3.add (alphabet 0.401) (GLSL.scale 0.399 baseColor) /\
  digit 0.8 = Vector3.add (digit 0.401) (GLSL.scale 0.399 baseColor).
Proof.
  cbv zeta. unfold alphabet_fragment, digit_fragment. cbv zeta. cbn [fst].
  set (lightDir := GLSL.normalize (GLSL.sub cubePos vWorldPos)).
  set (viewDir := GLSL.normalize (GLSL.sub viewPosition vWorldPos)).
  set (halfDir := GLSL.normalize (Vector3.add lightDir viewDir)).
  set (reflectDir := GLSL.reflect (GLSL.neg lightDir) vNormal).
  set (s1 := Rmax (GLSL.dot vNormal halfDir) 0.0 ^ 32).
  set (s2 := Rmax (GLSL.dot viewDir reflectDir) 0.0 ^ 64).
  set (df := Rmax (GLSL.dot vNormal lightDir) 0.0).
  clearbody s1 s2 df.
  repeat split; apply Vector3_eq; simpl; lra.
Qed.

Lemma refs_baseColor (w w' : World) :
  refs w' = refs w ->
  baseColor (alphabetMaterial w') = baseColor (alphabetMaterial w) /\
  baseColor (digitMaterial w') = baseColor (digitMaterial w).
Proof.
  unfold refs, material_locs. intro H.
  injection H as _ _ _ _ -> _ _ -> _ _ _. split; reflexivity.
Qed.

Lemma fixed_locs_base (w : World) :
  In (baseColor (alphabetMaterial w)) (fixed_locs w) /\
  In (baseColor (digitMaterial w)) (fixed_locs w).
Proof. unfold fixed_locs, material_locs. simpl. tauto. Qed.

Lemma wf_fixed_bound (w : World) (l : loc) :
  wf w -> In l (fixed_locs w) -> (l < next w)%nat.
Proof.
  intros [_ H _ _] Hl. rewrite Forall_forall in H. apply H.
  unfold vectors, static_locs. apply in_or_app. left.
  apply in_or_app. right. apply in_or_app. now right.
Qed.

(** No part of a frame before the pass writes to a base colour. *)
Lemma before_pass_base (w : World) :
  wf w ->
  heap (before_pass w) (baseColor (alphabetMaterial w)) =
    heap w (baseColor (alphabetMaterial w)) /\
  heap (before_pass w) (baseColor (digitMaterial w)) =
    heap w (baseColor (digitMaterial w)).
Proof.
  intro Hwf.
  pose proof (fun i j a b => wf_fixed_neq w i j a b Hwf) as N.
  unfold fixed_locs, material_locs in N.
  assert (A1 := N 4%nat 3%nat _ _ eq_refl eq_refl ltac:(lia)).
  assert (A2 := N 4%nat 5%nat _ _ eq_refl eq_refl ltac:(lia)).
  assert (A3 := N 4%nat 6%nat _ _ eq_refl eq_refl ltac:(lia)).
  assert (A4 := N 4%nat 8%nat _ _ eq_refl eq_refl ltac:(lia)).
  assert (D1 := N 7%nat 3%nat _ _ eq_refl eq_refl ltac:(lia)).
  assert (D2 := N 7%nat 5%nat _ _ eq_refl eq_refl ltac:(lia)).
  assert (D3 := N 7%nat 6%nat _ _ eq_refl eq_refl ltac:(lia)).
  assert (D4 := N 7%nat 8%nat _ _ eq_refl eq_refl ltac:(lia)).
  simpl in *.
  unfold before_pass, copy, write. simpl.
  split; now rewrite !store_neq by assumption.
Qed.

Lemma colours_kept_animate (w : World) :
  wf w -> colours_kept w -> colours_kept (animate w).
Proof.
  intros Hwf [Ha Hd]. unfold colours_kept.
  destruct (refs_baseColor _ _ (animate_refs w)) as [-> ->].
  destruct (fixed_locs_base w) as [Fa Fd].
  destruct (before_pass_base w Hwf) as [Ba Bd].
  rewrite (animate_fixed w _ Hwf Fa), (animate_fixed w _ Hwf Fd), Ba, Bd.
  now split.
Qed.

Lemma colours_kept_keydown (key : string) (r1 r2 r3 : R) (w : World) :
  wf w -> colours_kept w -> colours_kept (keydown key r1 r2 r3 w).
Proof.
  intros Hwf [Ha Hd]. unfold colours_kept.
  destruct (refs_baseColor _ _ (keydown_refs key r1 r2 r3 w)) as [-> ->].
  destruct (fixed_locs_base w) as [Fa Fd].
  pose proof (fun i j a b => wf_fixed_neq w i j a b Hwf) as N.
  unfold fixed_locs, material_locs in N.
  assert (A1 := N 4%nat 0%nat _ _ eq_refl eq_refl ltac:(lia)).
  assert (A2 := N 4%nat 1%nat _ _ eq_refl eq_refl ltac:(lia)).
  assert (D1 := N 7%nat 0%nat _ _ eq_refl eq_refl ltac:(lia)).
  assert (D2 := N 7%nat 1%nat _ _ eq_refl eq_refl ltac:(lia)).
  simpl in A1, A2, D1, D2.
  rewrite !keydown_heap_other
    by (assumption || now apply wf_fixed_bound).
  now split.
Qed.

Lemma colours_kept_font_loaded (w : World) :
  wf w -> colours_kept w -> colours_kept (font_loaded w).
Proof.
  intros Hwf [Ha Hd]. unfold colours_kept.
  destruct (fixed_locs_base w) as [Fa Fd].
  change (alphabetMaterial (font_loaded w)) with (alphabetMaterial w).
  change (digitMaterial (font_loaded w)) with (digitMaterial w).
  rewrite !font_loaded_heap_old by now apply wf_fixed_bound.
  now split.
Qed.

Lemma colours_kept_run (es : list Event) (w : World) :
  wf w -> colours_kept w -> colours_kept (run es w).
Proof.
  revert w. induction es as [| e es IH]; intros w Hwf H; [assumption |].
  change (run (e :: es) w) with (run es (step w e)).
  apply IH; [now apply wf_step |].
  destruct e as [| key r1 r2 r3 |]; unfold step.
  - now apply colours_kept_animate.
  - now apply colours_kept_keydown.
  - now apply colours_kept_font_loaded.
Qed.

Lemma colours_kept_init : colours_kept init.
Proof. split; reflexivity. Qed.

(** The colour of a fragment is the ambient term plus two terms that
    are not negative when the base colour is not. *)
Lemma fragment_floor
  (cubePos baseColor viewPosition vNormal vWorldPos : Vector3) (i : R) :
  0 <= Vector3.x baseColor -> 0 <= Vector3.y baseColor ->
  0 <= Vector3.z baseColor ->
  let a := fst (alphabet_fragment cubePos baseColor viewPosition i
                  vNormal vWorldPos) in
  let d := fst (digit_fragment cubePos baseColor viewPosition i
                  vNormal vWorldPos) in
  (i * Vector3.x baseColor <= Vector3.x a /\
   i * Vector3.y baseColor <= Vector3.y a /\
   i * Vector3.z baseColor <= Vector3.z a) /\
  (i * Vector3.x baseColor <= Vector3.x d /\
   i * Vector3.y baseColor <= Vector3.y d /\
   i * Vector3.z baseColor <= Vector3.z d).
Proof.
  intros Hx Hy Hz. cbv zeta.
  unfold alphabet_fragment, digit_fragment. cbv zeta. cbn [fst snd].
  set (lightDir := GLSL.normalize (GLSL.sub cubePos vWorldPos)).
  set (viewDir := GLSL.normalize (GLSL.sub viewPosition vWorldPos)).
  set (halfDir := GLSL.normalize (Vector3.add lightDir viewDir)).
  set (reflectDir := GLSL.reflect (GLSL.neg lightDir) vNormal).
  pose proof (pow_max_nonneg (GLSL.dot vNormal halfDir) 32) as Hs1.
  pose proof (pow_max_nonneg (GLSL.dot viewDir reflectDir) 64) as Hs2.
  pose proof (Rmax_r (GLSL.dot vNormal lightDir) 0.0) as Hd.
  set (s1 := Rmax (GLSL.dot vNormal halfDir) 0.0 ^ 32) in *.
  set (s2 := Rmax (GLSL.dot viewDir reflectDir) 0.0 ^ 64) in *.
  set (df := Rmax (GLSL.dot vNormal lightDir) 0.0) in *.
  assert (Hdf : 0 <= df) by lra.
  clearbody s1 s2 df.
  pose proof (Rmult_le_pos _ _ Hdf Hx) as Hdx.
  pose proof (Rmult_le_pos _ _ Hdf Hy) as Hdy.
  pose proof (Rmult_le_pos _ _ Hdf Hz) as Hdz.
  pose proof (Rmult_le_pos _ _ Hs2 Hx) as Hsx.
  pose proof (Rmult_le_pos _ _ Hs2 Hy) as Hsy.
  pose proof (Rmult_le_pos _ _ Hs2 Hz) as Hsz.
  cbn [Vector3.x Vector3.y Vector3.z Vector3.add GLSL.scale GLSL.vec3].
  repeat split; lra.
Qed.

(** X14.  The text never goes darker than its baseline: no callback
    writes to a base colour, so in every state the program reaches the
    letter is gold and the digit royal blue, and every fragment of
    either, whatever its normal and its place, has each of red, green
    and blue at least 0.401 times the base colour's. *)
Theorem text_never_darker_than_baseline (es : list Event)
  (vNormal vWorldPos : Vector3) :
  let w := run es init in
  let a := fst (text_fragment alphabet_fragment (alphabetMaterial w) w
                  vNormal vWorldPos) in
  let d := fst (text_fragment digit_fragment (digitMaterial w) w
                  vNormal vWorldPos) in
  heap w (baseColor (alphabetMaterial w)) = Vector3.mk 1.0 0.843 0.0 /\
  heap w (baseColor (digitMaterial w)) = Vector3.mk 0.165 0.322 0.745 /\
  (0.401 * 1.0 <= Vector3.x a /\ 0.401 * 0.843 <= Vector3.y a /\
   0 <= Vector3.z a) /\
  (0.401 * 0.165 <= Vector3.x d /\ 0.401 * 0.322 <= Vector3.y d /\
   0.401 * 0.745 <= Vector3.z d).
Proof.
  intros w a d.
  destruct (colours_kept_run es init wf_init colours_kept_init) as [Ca Cd].
  destruct (highlight_ok_run es init highlight_ok_init)
    as (_ & _ & _ & Ha & Hd & _).
  fold w in Ca, Cd, Ha, Hd. subst a d. clearbody w.
  unfold text_fragment. rewrite Ca, Cd.
  split; [reflexivity |]. split; [reflexivity |].
  match goal with
  | |- context [alphabet_fragment ?c ?b ?v ?i ?n ?p] =>
      destruct (fragment_floor c b v n p i) as [(A1 & A2 & A3) _];
      [simpl; lra | simpl; lra | simpl; lra |]
  end.
  match goal with
  | |- context [digit_fragment ?c ?b ?v ?i ?n ?p] =>
      destruct (fragment_floor c b v n p i) as [_ (D1 & D2 & D3)];
      [simpl; lra | simpl; lra | simpl; lra |]
  end.
  cbn [Vector3.x Vector3.y Vector3.z] in A1, A2, A3, D1, D2, D3.
  split; (split; [| split]);
    first [destruct Ha as [Ha | Ha]; rewrite Ha in *; lra
          | destruct Hd as [Hd | Hd]; rewrite Hd in *; lra].
Qed.
